(** * loopserve: process lifecycle manager and configuration store

    A shallow embedding of the Go sources of loopserve and the properties
    of its specification that were checked against them.

    The repository holds several near-identical copies of the lifecycle
    logic.  They are kept apart here, one module per copy:

    - [Apps]      package [apps]     (internal/apps: Config, AddApp,
                                      IsProcessRunning, StartApp, StopApp,
                                      UpdateAppStatus)
    - [Handlers]  package [handlers] (internal/handlers/http.go)
    - [Main]      the functions shared verbatim by the copies of package
                  [main] (parseCommand, isProcessRunning, loadAppsConfig,
                  saveAppsConfig, ensureLogsDir)
    - [Cli]       package [main], command line copy (main.go: addApp,
                  startApp, stopApps)
    - [WebUI]     package [main], web copy (startApp, startIndividualApp,
                  stopIndividualApp, handleApps)
    - [Store]     package [apps], DeleteApp
    - [Api]       package [handlers], the handlers that add and delete
    - [Commands]  package [main], command line copy (startApps,
                  truncateString)
    - [WebApi]    package [main], web copy (handleStartApps,
                  handleStopApps, handleDeleteApp)

    Effects (signals, files, child processes, the clock) are modelled by a
    trace of calls to the operating system and an oracle that answers each
    call from the history so far.  A function that mutates a record or
    the configuration through a pointer returns the mutated value.  What
    the programs print on the console ([fmt.Printf], [log.Printf]) and
    the encoding of the records as JSON are left out: a configuration is
    read and written as the list of its records. *)

From Stdlib Require Import ZArith List String Ascii Bool Lia DecimalString.
From stdpp Require Import base list.
Import ListNotations.
Local Open Scope string_scope.
Local Open Scope Z_scope.

(** ** Go strings

    A Go string is a sequence of bytes; [string] of [ascii] is used for
    it.  [for _, char := range s] decodes UTF-8 and yields runes, and
    [string(char)] encodes a rune again; both are part of the language,
    not of the repository, and are spelled out here because
    [parseCommand] is written with them. *)

Definition rune := Z.

Definition byteZ (c : ascii) : Z := Z.of_N (N_of_ascii c).
Definition Zbyte (z : Z) : ascii := ascii_of_N (Z.to_N z).

Definition RuneError : rune := 65533.

Definition cont (b : Z) : bool := (128 <=? b) && (b <=? 191).

(** [utf8.DecodeRuneInString]: the first rune of a non-empty byte
    sequence and its width; an invalid or truncated encoding yields
    [(RuneError, 1)]. *)
Definition decodeRune (bs : list Z) : rune * nat :=
  match bs with
  | [] => (RuneError, 1%nat)
  | b0 :: t =>
    if b0 <? 128 then (b0, 1%nat)
    else if (194 <=? b0) && (b0 <=? 223) then
      match t with
      | b1 :: _ =>
        if cont b1 then ((b0 - 192) * 64 + (b1 - 128), 2%nat)
        else (RuneError, 1%nat)
      | _ => (RuneError, 1%nat)
      end
    else if (224 <=? b0) && (b0 <=? 239) then
      match t with
      | b1 :: b2 :: _ =>
        let lo := if b0 =? 224 then 160 else 128 in
        let hi := if b0 =? 237 then 159 else 191 in
        if (lo <=? b1) && (b1 <=? hi) && cont b2
        then ((b0 - 224) * 4096 + (b1 - 128) * 64 + (b2 - 128), 3%nat)
        else (RuneError, 1%nat)
      | _ => (RuneError, 1%nat)
      end
    else if (240 <=? b0) && (b0 <=? 244) then
      match t with
      | b1 :: b2 :: b3 :: _ =>
        let lo := if b0 =? 240 then 144 else 128 in
        let hi := if b0 =? 244 then 143 else 191 in
        if (lo <=? b1) && (b1 <=? hi) && cont b2 && cont b3
        then ((b0 - 240) * 262144 + (b1 - 128) * 4096
              + (b2 - 128) * 64 + (b3 - 128), 4%nat)
        else (RuneError, 1%nat)
      | _ => (RuneError, 1%nat)
      end
    else (RuneError, 1%nat)
  end.

(** The runes a [range] loop over the bytes yields, in order.  [skip]
    counts the bytes of the current rune still to be passed over. *)
Fixpoint rangeBytes (skip : nat) (bs : list Z) : list rune :=
  match bs with
  | [] => []
  | _ :: t =>
    match skip with
    | S k => rangeBytes k t
    | O => let (r, w) := decodeRune bs in r :: rangeBytes (Nat.pred w) t
    end
  end.

Definition bytesOf (s : string) : list Z := map byteZ (list_ascii_of_string s).

Definition rangeString (s : string) : list rune := rangeBytes 0 (bytesOf s).

(** [string(r)] for a rune [r]: its UTF-8 encoding, and the encoding of
    [RuneError] for a surrogate or a value outside Unicode. *)
Definition runeBytes (r : rune) : list Z :=
  if (0 <=? r) && (r <=? 127) then [r]
  else if (128 <=? r) && (r <=? 2047) then [192 + r / 64; 128 + r mod 64]
  else if (r <? 0) || (1114111 <? r) || ((55296 <=? r) && (r <=? 57343))
  then [239; 191; 189]
  else if r <=? 65535
  then [224 + r / 4096; 128 + (r / 64) mod 64; 128 + r mod 64]
  else [240 + r / 262144; 128 + (r / 4096) mod 64;
        128 + (r / 64) mod 64; 128 + r mod 64].

Definition runeString (r : rune) : string :=
  string_of_list_ascii (map Zbyte (runeBytes r)).

(** [fmt.Sprintf("%d", n)] *)
Definition itoa (n : Z) : string := NilZero.string_of_int (Z.to_int n).

(** The three characters [parseCommand] looks at. *)
Definition dquote : rune := 34.   (* the double quote, U+0022 *)
Definition squote : rune := 39.   (* the single quote, U+0027 *)
Definition space  : rune := 32.   (* the space, U+0020 *)

(** ** Data model *)

(** [type App struct] (the same in every copy). *)
Record App := {
  Name : string;
  Port : Z;
  Command : string;
  PID : Z;
  LogFile : string
}.

(** [app.PID = pid] and [app.LogFile = f] through a pointer to the record. *)
Definition setPID (app : App) (pid : Z) : App :=
  {| Name := Name app; Port := Port app; Command := Command app;
     PID := pid; LogFile := LogFile app |}.

Definition setLogFile (app : App) (f : string) : App :=
  {| Name := Name app; Port := Port app; Command := Command app;
     PID := PID app; LogFile := f |}.

(** [type Config struct { Apps []App }], called [AppsConfig] in package main. *)
Record Config := { Apps : list App }.

(** The loops [for i := range c.Apps { if c.Apps[i].Name == name ... } ]
    that yield a pointer [&c.Apps[i]] to the first record of that name: the
    pointer is the index, given together with the record it points to. *)
Fixpoint findFrom (i : nat) (apps : list App) (name : string) : option (nat * App) :=
  match apps with
  | [] => None
  | app :: rest =>
    if String.eqb (Name app) name then Some (i, app)
    else findFrom (S i) rest name
  end.

Definition findByName (apps : list App) (name : string) : option (nat * App) :=
  findFrom 0 apps name.

(** The errors of the Go code, by kind.  Each [fmt.Errorf] of the sources
    is one of them; a wrapper that only prefixes the message of the error
    it wraps keeps the kind of that error. *)
Inductive Error :=
| ReadFailed          (* failed to read apps.json *)
| ParseFailed         (* failed to parse apps.json *)
| WriteFailed         (* failed to write apps.json *)
| InvalidPort         (* Invalid port number *)
| DuplicateName       (* app with name already exists *)
| DuplicatePort       (* port is already in use *)
| NotFound            (* app not found *)
| AlreadyRunning      (* app is already running *)
| LogDirUnavailable   (* failed to create logs directory *)
| LogFileUnavailable  (* failed to create / open log file *)
| InvalidCommand      (* invalid command *)
| LaunchFailed        (* failed to start app / command *)
| NotRunning          (* app is not running *)
| FindProcessFailed   (* failed to find process *)
| SignalFailed.       (* failed to stop app *)

(** ** The operating system *)

Inductive Signal := Signal0 | SIGTERM | SIGKILL | Interrupt.

(** The two layouts passed to [time.Format]. *)
Inductive Layout := DateTime | RFC3339.

(** The fields of [exec.Cmd] the sources set.  [Env = None] is a nil
    [cmd.Env]: the child then runs with the environment of the parent. *)
Record Cmd := {
  Args : list string;
  Dir : string;
  Env : option (list string);
  Stdout : string;
  Stderr : string;
  Setpgid : bool
}.

(** What reading and decoding apps.json gives. *)
Inductive ReadResult :=
| ReadErr
| ParseErr
| Parsed (apps : list App).

(** One call to the operating system (or to the clock). *)
Inductive Event :=
| EStat (path : string)
| EReadFile (path : string)
| EWriteFile (path : string) (content : Config)
| EMkdirAll (path : string)
| ECreate (path : string)
| EOpenAppend (path : string)
| EWriteString (path : string) (text : string)
| EClose (path : string)
| ENow
| ELookPath (file : string)
| EStart (cmd : Cmd)
| EFindProcess (pid : Z)
| ESignal (pid : Z) (sig : Signal)
| ESleep (seconds : Z).

Definition Trace := list Event.

(** The answers of the operating system, each a function of the calls
    made so far, and the library functions on paths and numbers the
    sources use. *)
Record OS := {
  os_Environ : list string;                        (* os.Environ() *)
  os_Stat : Trace -> string -> bool;               (* false: IsNotExist *)
  os_ReadFile : Trace -> string -> ReadResult;     (* os.ReadFile, json.Unmarshal *)
  os_WriteFile : Trace -> string -> bool;
  os_MkdirAll : Trace -> string -> bool;
  os_Create : Trace -> string -> bool;
  os_OpenFile : Trace -> string -> bool;
  os_Now : Trace -> Layout -> string;              (* time.Now().Format(layout) *)
  os_LookPath : Trace -> string -> option string;  (* exec.LookPath *)
  os_Start : Trace -> Cmd -> option Z;             (* cmd.Start: the child's pid *)
  os_FindProcess : Trace -> Z -> bool;             (* os.FindProcess: err == nil *)
  os_Signal : Trace -> Z -> Signal -> bool;        (* process.Signal: err == nil *)
  filepath_Join : string -> string -> string;
  filepath_Dir : string -> string;
  filepath_IsAbs : string -> bool;
  strconv_Atoi : string -> option Z
}.

(** Code that calls the operating system: a function of the trace so
    far, giving a result and the extended trace. *)
Definition M (A : Type) : Type := Trace -> A * Trace.

Definition ret {A : Type} (a : A) : M A := fun w => (a, w).

Definition bind {A B : Type} (m : M A) (f : A -> M B) : M B :=
  fun w => f (fst (m w)) (snd (m w)).

Notation "x <- m ;; k" := (bind m (fun x => k))
  (at level 100, m at next level, right associativity).
Notation "m ;; k" := (bind m (fun _ => k))
  (at level 100, right associativity).

(** A call: answered from the history, then recorded. *)
Definition call {A : Type} (e : Event) (answer : Trace -> A) : M A :=
  fun w => (answer w, (w ++ [e])%list).

Definition when (b : bool) (m : M unit) : M unit := if b then m else ret tt.

Definition nl : string := String (Zbyte 10) "".

Section Calls.
Context (os : OS).

Definition Stat (path : string) : M bool :=
  call (EStat path) (fun w => os_Stat os w path).
Definition ReadFile (path : string) : M ReadResult :=
  call (EReadFile path) (fun w => os_ReadFile os w path).
Definition WriteFile (path : string) (c : Config) : M bool :=
  call (EWriteFile path c) (fun w => os_WriteFile os w path).
Definition MkdirAll (path : string) : M bool :=
  call (EMkdirAll path) (fun w => os_MkdirAll os w path).
Definition Create (path : string) : M bool :=
  call (ECreate path) (fun w => os_Create os w path).
Definition OpenAppend (path : string) : M bool :=
  call (EOpenAppend path) (fun w => os_OpenFile os w path).
Definition WriteString (path text : string) : M unit :=
  call (EWriteString path text) (fun _ => tt).
Definition Close (path : string) : M unit :=
  call (EClose path) (fun _ => tt).
Definition Now (layout : Layout) : M string :=
  call ENow (fun w => os_Now os w layout).
Definition LookPath (file : string) : M (option string) :=
  call (ELookPath file) (fun w => os_LookPath os w file).
Definition Start (cmd : Cmd) : M (option Z) :=
  call (EStart cmd) (fun w => os_Start os w cmd).
Definition FindProcess (pid : Z) : M bool :=
  call (EFindProcess pid) (fun w => os_FindProcess os w pid).
Definition SignalProcess (pid : Z) (sig : Signal) : M bool :=
  call (ESignal pid sig) (fun w => os_Signal os w pid sig).
Definition Sleep (seconds : Z) : M unit :=
  call (ESleep seconds) (fun _ => tt).
End Calls.

(** The environment of a child started with [cmd]. *)
Definition childEnv (os : OS) (cmd : Cmd) : list string :=
  match Env cmd with
  | Some env => env
  | None => os_Environ os
  end.

(** ** Functions shared by the copies of package main *)

Module Main.

(** The three locals of [parseCommand]. *)
Record pstate := { parts : list string; current : string; inQuotes : bool }.

Definition pinit : pstate := {| parts := []; current := ""; inQuotes := false |}.

(** One iteration of the loop body of [parseCommand]. *)
Definition pstep (st : pstate) (char : rune) : pstate :=
  if (char =? dquote) || (char =? squote) then
    {| parts := parts st; current := current st; inQuotes := negb (inQuotes st) |}
  else if (char =? space) && negb (inQuotes st) then
    if negb (String.eqb (current st) "") then
      {| parts := parts st ++ [current st]; current := ""; inQuotes := inQuotes st |}
    else st
  else
    {| parts := parts st; current := current st ++ runeString char;
       inQuotes := inQuotes st |}.

(** The flush after the loop. *)
Definition pflush (st : pstate) : list string :=
  if negb (String.eqb (current st) "") then parts st ++ [current st] else parts st.

Definition parseCommand (command : string) : list string :=
  pflush (fold_left pstep (rangeString command) pinit).

Definition appsFile : string := "apps.json".
Definition logsDir : string := "logs".

Section WithOS.
Context (os : OS).

Definition loadAppsConfig : M (Error + Config) :=
  found <- Stat os appsFile ;;
  if negb found then ret (inr {| Apps := [] |})
  else
    data <- ReadFile os appsFile ;;
    match data with
    | ReadErr => ret (inl ReadFailed)
    | ParseErr => ret (inl ParseFailed)
    | Parsed apps => ret (inr {| Apps := apps |})
    end.

(** [json.MarshalIndent] has no failing case on a [Config]; the write
    is what can fail. *)
Definition saveAppsConfig (config : Config) : M (option Error) :=
  ok <- WriteFile os appsFile config ;;
  if negb ok then ret (Some WriteFailed) else ret None.

Definition ensureLogsDir : M (option Error) :=
  found <- Stat os logsDir ;;
  if negb found then
    ok <- MkdirAll os logsDir ;;
    if negb ok then ret (Some LogDirUnavailable) else ret None
  else ret None.

Definition isProcessRunning (pid : Z) : M bool :=
  found <- FindProcess os pid ;;
  if negb found then ret false
  else SignalProcess os pid Signal0.

End WithOS.

End Main.

(** ** Package apps *)

Module Apps.

Definition AppsFile : string := "apps.json".
Definition LogsDir : string := "logs".

(** The loop of [AddApp] over the existing records. *)
Fixpoint AddApp_check (existing : list App) (app : App) : option Error :=
  match existing with
  | [] => None
  | existingApp :: rest =>
    if String.eqb (Name existingApp) (Name app) then Some DuplicateName
    else if Port existingApp =? Port app then Some DuplicatePort
    else AddApp_check rest app
  end.

Definition GetApp (c : Config) (name : string) : option (nat * App) :=
  findByName (Apps c) name.

Section WithOS.
Context (os : OS).

Definition LoadConfig : M (Error + Config) :=
  found <- Stat os AppsFile ;;
  if negb found then ret (inr {| Apps := [] |})
  else
    data <- ReadFile os AppsFile ;;
    match data with
    | ReadErr => ret (inl ReadFailed)
    | ParseErr => ret (inl ParseFailed)
    | Parsed apps => ret (inr {| Apps := apps |})
    end.

Definition SaveConfig (config : Config) : M (option Error) :=
  ok <- WriteFile os AppsFile config ;;
  if negb ok then ret (Some WriteFailed) else ret None.

(** The receiver [c] is mutated in place: the configuration after the
    call is returned with the error. *)
Definition AddApp (c : Config) (app : App) : M (Config * option Error) :=
  match AddApp_check (Apps c) app with
  | Some e => ret (c, Some e)
  | None =>
    let c' := {| Apps := Apps c ++ [app] |} in
    err <- SaveConfig c' ;;
    ret (c', err)
  end.

Definition IsProcessRunning (pid : Z) : M bool :=
  if pid <=? 0 then ret false
  else
    found <- FindProcess os pid ;;
    if negb found then ret false
    else SignalProcess os pid Signal0.

(** [app] is a pointer: the record after the call is returned with the
    error. *)
Definition StartApp (app : App) : M (App * option Error) :=
  running <- (if PID app >? 0 then IsProcessRunning (PID app) else ret false) ;;
  if running then ret (app, Some AlreadyRunning)
  else
    ok <- MkdirAll os LogsDir ;;
    if negb ok then ret (app, Some LogDirUnavailable)
    else
      let logFile := filepath_Join os LogsDir (Name app ++ ".log") in
      let app := setLogFile app logFile in
      ok <- OpenAppend os logFile ;;
      if negb ok then ret (app, Some LogFileUnavailable)
      else
        timestamp <- Now os DateTime ;;
        WriteString logFile
          ("[" ++ timestamp ++ "] Starting " ++ Name app ++ "..." ++ nl) ;;
        let commandDir := filepath_Dir os (Command app) in
        let cmd := {| Args := ["sh"; "-c"; Command app];
                      Dir := if negb (String.eqb commandDir ".")
                             then commandDir else "";
                      Env := None;
                      Stdout := logFile;
                      Stderr := logFile;
                      Setpgid := true |} in
        started <- Start os cmd ;;
        match started with
        | None =>
          Close logFile ;;
          ret (app, Some LaunchFailed)
        | Some pid =>
          let app := setPID app pid in
          WriteString logFile
            ("[" ++ timestamp ++ "] Started with PID " ++ itoa (PID app) ++ nl) ;;
          Close logFile ;;
          ret (app, None)
        end.

Definition StopApp (app : App) : M (App * option Error) :=
  stopped <- (if PID app <=? 0 then ret true
              else running <- IsProcessRunning (PID app) ;; ret (negb running)) ;;
  if stopped then ret (setPID app 0, None)
  else
    found <- FindProcess os (PID app) ;;
    if negb found then ret (setPID app 0, None)
    else
      ok <- SignalProcess os (PID app) SIGTERM ;;
      if negb ok then ret (setPID app 0, None)
      else
        Sleep 2 ;;
        running <- IsProcessRunning (PID app) ;;
        when running (SignalProcess os (PID app) SIGKILL ;; Sleep 1) ;;
        ret (setPID app 0, None).

(** The body of the loop of [UpdateAppStatus] for one record. *)
Definition UpdateAppStatus_one (app : App) : M App :=
  stale <- (if PID app >? 0
            then running <- IsProcessRunning (PID app) ;; ret (negb running)
            else ret false) ;;
  if stale then ret (setPID app 0) else ret app.

Fixpoint UpdateAppStatus_loop (apps : list App) : M (list App) :=
  match apps with
  | [] => ret []
  | app :: rest =>
    app' <- UpdateAppStatus_one app ;;
    rest' <- UpdateAppStatus_loop rest ;;
    ret (app' :: rest')
  end.

Definition UpdateAppStatus (c : Config) : M Config :=
  apps' <- UpdateAppStatus_loop (Apps c) ;;
  ret {| Apps := apps' |}.

End WithOS.

End Apps.

(** ** Package handlers *)

Module Handlers.

(** What a handler answers with. *)
Inductive Response :=
| MethodNotAllowed                         (* http.Error 405 *)
| JSONError (e : Error)                    (* {error: ...} *)
| JSONSuccess                              (* {status: success} *)
| JSONPartial (errors : list (string * Error))  (* {status: partial, errors} *)
| JSONApps (apps : list App).              (* the records *)

Section WithOS.
Context (os : OS).

(** The handlers share one [*apps.Config], held in the handler and
    mutated in place: it is passed in and returned. *)
Definition GetApps (c : Config) : M (Config * Response) :=
  c' <- Apps.UpdateAppStatus os c ;;
  ret (c', JSONApps (Apps c')).

(** [for i := range h.config.Apps { apps.StopApp(&h.config.Apps[i]) }] *)
Fixpoint StopApp_all (apps : list App) : M (list App) :=
  match apps with
  | [] => ret []
  | app :: rest =>
    r <- Apps.StopApp os app ;;
    rest' <- StopApp_all rest ;;
    ret (fst r :: rest')
  end.

(** [reqName] is the name decoded from the request body, empty when the
    body is absent or does not decode. *)
Definition StopApp (method reqName : string) (c : Config) : M (Config * Response) :=
  if negb (String.eqb method "POST") then ret (c, MethodNotAllowed)
  else if negb (String.eqb reqName "") then
    match Apps.GetApp c reqName with
    | None => ret (c, JSONError NotFound)
    | Some (i, app) =>
      r <- Apps.StopApp os app ;;
      let c' := {| Apps := <[i := fst r]> (Apps c) |} in
      match snd r with
      | Some e => ret (c', JSONError e)
      | None =>
        Apps.SaveConfig os c' ;;
        ret (c', JSONSuccess)
      end
    end
  else
    apps' <- StopApp_all (Apps c) ;;
    let c' := {| Apps := apps' |} in
    Apps.SaveConfig os c' ;;
    ret (c', JSONSuccess).

Fixpoint StartApp_all (apps : list App) : M (list App * list (string * Error)) :=
  match apps with
  | [] => ret ([], [])
  | app :: rest =>
    r <- Apps.StartApp os app ;;
    rs <- StartApp_all rest ;;
    ret (fst r :: fst rs,
         match snd r with
         | Some e => (Name (fst r), e) :: snd rs
         | None => snd rs
         end)
  end.

Definition StartApp (method reqName : string) (c : Config) : M (Config * Response) :=
  if negb (String.eqb method "POST") then ret (c, MethodNotAllowed)
  else if negb (String.eqb reqName "") then
    match Apps.GetApp c reqName with
    | None => ret (c, JSONError NotFound)
    | Some (i, app) =>
      r <- Apps.StartApp os app ;;
      let c' := {| Apps := <[i := fst r]> (Apps c) |} in
      match snd r with
      | Some e => ret (c', JSONError e)
      | None =>
        Apps.SaveConfig os c' ;;
        ret (c', JSONSuccess)
      end
    end
  else
    rs <- StartApp_all (Apps c) ;;
    let c' := {| Apps := fst rs |} in
    Apps.SaveConfig os c' ;;
    match snd rs with
    | [] => ret (c', JSONSuccess)
    | errors => ret (c', JSONPartial errors)
    end.

End WithOS.

End Handlers.

(** ** Package main, command line copy (main.go) *)

Module Cli.

(** How a command ends: it returns, or [log.Fatalf] ends the process. *)
Inductive Exit :=
| Returned
| Fatal (e : Error).

(** The loop of [addApp] over the existing records. *)
Fixpoint addApp_check (apps : list App) (name : string) (port : Z) : option Error :=
  match apps with
  | [] => None
  | app :: rest =>
    if String.eqb (Name app) name then Some DuplicateName
    else if Port app =? port then Some DuplicatePort
    else addApp_check rest name port
  end.

Section WithOS.
Context (os : OS).

(** [args] are the three arguments cobra passes on. *)
Definition addApp (name portArg command : string) : M Exit :=
  match strconv_Atoi os portArg with
  | None => ret (Fatal InvalidPort)
  | Some port =>
    loaded <- Main.loadAppsConfig os ;;
    match loaded with
    | inl e => ret (Fatal e)
    | inr config =>
      match addApp_check (Apps config) name port with
      | Some e => ret (Fatal e)
      | None =>
        let newApp := {| Name := name; Port := port; Command := command;
                         PID := 0; LogFile := "" |} in
        let config := {| Apps := Apps config ++ [newApp] |} in
        err <- Main.saveAppsConfig os config ;;
        match err with
        | Some e => ret (Fatal e)
        | None => ret Returned
        end
      end
    end
  end.

Definition startApp (app : App) : M (App * option Error) :=
  let logFileName := filepath_Join os Main.logsDir (Name app ++ ".log") in
  let app := setLogFile app logFileName in
  ok <- Create os logFileName ;;
  if negb ok then ret (app, Some LogFileUnavailable)
  else
    match Main.parseCommand (Command app) with
    | [] =>
      Close logFileName ;;
      ret (app, Some InvalidCommand)
    | name :: args =>
      dir <- (if filepath_IsAbs os name then ret (filepath_Dir os name)
              else
                found <- LookPath os name ;;
                match found with
                | Some execPath => ret (filepath_Dir os execPath)
                | None => ret ""
                end) ;;
      ok <- OpenAppend os logFileName ;;
      if negb ok then
        Close logFileName ;;
        ret (app, Some LogFileUnavailable)
      else
        let execCmd := {| Args := name :: args;
                          Dir := dir;
                          Env := Some (os_Environ os
                                       ++ [("PORT=" ++ itoa (Port app))%string])%list;
                          Stdout := logFileName;
                          Stderr := logFileName;
                          Setpgid := false |} in
        started <- Start os execCmd ;;
        match started with
        | None =>
          Close logFileName ;;
          Close logFileName ;;
          ret (app, Some LaunchFailed)
        | Some pid =>
          let app := setPID app pid in
          now <- Now os RFC3339 ;;
          WriteString logFileName
            ("=== Started " ++ Name app ++ " at " ++ now
             ++ " (working dir: " ++ dir ++ ") ===" ++ nl) ;;
          Close logFileName ;;
          Close logFileName ;;
          ret (app, None)
        end
    end.

(** The body of the loop of [stopApps] for one record. *)
Definition stopApps_one (app : App) : M App :=
  if PID app =? 0 then ret app
  else
    running <- Main.isProcessRunning os (PID app) ;;
    if negb running then ret (setPID app 0)
    else
      found <- FindProcess os (PID app) ;;
      if negb found then ret app
      else
        ok <- SignalProcess os (PID app) Interrupt ;;
        if negb ok then ret app
        else ret (setPID app 0).

Fixpoint stopApps_loop (apps : list App) : M (list App) :=
  match apps with
  | [] => ret []
  | app :: rest =>
    app' <- stopApps_one app ;;
    rest' <- stopApps_loop rest ;;
    ret (app' :: rest')
  end.

Definition stopApps : M Exit :=
  loaded <- Main.loadAppsConfig os ;;
  match loaded with
  | inl e => ret (Fatal e)
  | inr config =>
    apps' <- stopApps_loop (Apps config) ;;
    err <- Main.saveAppsConfig os {| Apps := apps' |} ;;
    match err with
    | Some e => ret (Fatal e)
    | None => ret Returned
    end
  end.

End WithOS.

End Cli.

(** ** Package main, web copy *)

Module WebUI.

(** What [handleApps] answers with. *)
Inductive Response :=
| HTTPError (code : Z)          (* http.Error *)
| JSONApps (apps : list App)    (* the encoded records *)
| Created                       (* 201 *)
| NoResponse.                   (* another method: nothing is written *)

Section WithOS.
Context (os : OS).

Definition startApp (app : App) : M (App * option Error) :=
  let logFileName := filepath_Join os Main.logsDir (Name app ++ ".log") in
  let app := setLogFile app logFileName in
  ok <- Create os logFileName ;;
  if negb ok then ret (app, Some LogFileUnavailable)
  else
    now <- Now os RFC3339 ;;
    WriteString logFileName
      ("=== Started " ++ Name app ++ " at " ++ now ++ " ===" ++ nl) ;;
    Close logFileName ;;
    match Main.parseCommand (Command app) with
    | [] => ret (app, Some InvalidCommand)
    | name :: args =>
      dir <- (if filepath_IsAbs os name then ret (filepath_Dir os name)
              else
                found <- LookPath os name ;;
                match found with
                | Some execPath => ret (filepath_Dir os execPath)
                | None => ret ""
                end) ;;
      ok <- OpenAppend os logFileName ;;
      if negb ok then ret (app, Some LogFileUnavailable)
      else
        let execCmd := {| Args := name :: args;
                          Dir := dir;
                          Env := Some (os_Environ os
                                       ++ [("PORT=" ++ itoa (Port app))%string])%list;
                          Stdout := logFileName;
                          Stderr := logFileName;
                          Setpgid := false |} in
        started <- Start os execCmd ;;
        match started with
        | None =>
          Close logFileName ;;
          ret (app, Some LaunchFailed)
        | Some pid =>
          let app := setPID app pid in
          WriteString logFileName ("Command: " ++ Command app ++ nl) ;;
          WriteString logFileName ("PID: " ++ itoa (PID app) ++ nl) ;;
          when (negb (String.eqb dir ""))
            (WriteString logFileName ("Working directory: " ++ dir ++ nl)) ;;
          WriteString logFileName ("--- Application Output ---" ++ nl) ;;
          Close logFileName ;;
          ret (app, None)
        end
    end.

Definition startIndividualApp (appName : string) : M (option Error) :=
  loaded <- Main.loadAppsConfig os ;;
  match loaded with
  | inl e => ret (Some e)
  | inr config =>
    err <- Main.ensureLogsDir os ;;
    match err with
    | Some e => ret (Some e)
    | None =>
      match findByName (Apps config) appName with
      | None => ret (Some NotFound)
      | Some (i, targetApp) =>
        running <- (if negb (PID targetApp =? 0)
                    then Main.isProcessRunning os (PID targetApp)
                    else ret false) ;;
        if running then ret (Some AlreadyRunning)
        else
          r <- startApp targetApp ;;
          match snd r with
          | Some e => ret (Some e)
          | None =>
            Main.saveAppsConfig os {| Apps := <[i := fst r]> (Apps config) |}
          end
      end
    end
  end.

(** [os.Create(logFile)] and, when it succeeds, one line written and
    the file closed: the log is emptied and holds the marker alone. *)
Definition truncateLog (logFile : string) (marker : string -> string) : M unit :=
  when (negb (String.eqb logFile ""))
    (ok <- Create os logFile ;;
     when ok
       (now <- Now os RFC3339 ;;
        WriteString logFile (marker now) ;;
        Close logFile)).

Definition stopIndividualApp (appName : string) : M (option Error) :=
  loaded <- Main.loadAppsConfig os ;;
  match loaded with
  | inl e => ret (Some e)
  | inr config =>
    match findByName (Apps config) appName with
    | None => ret (Some NotFound)
    | Some (i, targetApp) =>
      if PID targetApp =? 0 then ret (Some NotRunning)
      else
        running <- Main.isProcessRunning os (PID targetApp) ;;
        if negb running then
          truncateLog (LogFile targetApp)
            (fun now => "=== App '" ++ Name targetApp
                        ++ "' stopped (process not found) at " ++ now
                        ++ " ===" ++ nl) ;;
          err <- Main.saveAppsConfig os
                   {| Apps := <[i := setPID targetApp 0]> (Apps config) |} ;;
          match err with
          | Some e => ret (Some e)
          | None => ret (Some NotRunning)
          end
        else
          found <- FindProcess os (PID targetApp) ;;
          if negb found then ret (Some FindProcessFailed)
          else
            ok <- SignalProcess os (PID targetApp) Interrupt ;;
            if negb ok then ret (Some SignalFailed)
            else
              truncateLog (LogFile targetApp)
                (fun now => "=== App '" ++ Name targetApp
                            ++ "' stopped at " ++ now ++ " ===" ++ nl) ;;
              Main.saveAppsConfig os
                {| Apps := <[i := setPID targetApp 0]> (Apps config) |}
    end
  end.

(** The body of the status loop of [handleApps] for one record. *)
Definition handleApps_one (app : App) : M App :=
  stale <- (if negb (PID app =? 0)
            then running <- Main.isProcessRunning os (PID app) ;; ret (negb running)
            else ret false) ;;
  if stale then
    truncateLog (LogFile app)
      (fun now => "=== App '" ++ Name app
                  ++ "' stopped (detected via status check) at " ++ now
                  ++ " ===" ++ nl) ;;
    ret (setPID app 0)
  else ret app.

Fixpoint handleApps_loop (apps : list App) : M (list App) :=
  match apps with
  | [] => ret []
  | app :: rest =>
    app' <- handleApps_one app ;;
    rest' <- handleApps_loop rest ;;
    ret (app' :: rest')
  end.

(** [body] is the record decoded from the request, [None] when the body
    is not valid JSON. *)
Definition handleApps (method : string) (body : option App) : M Response :=
  if String.eqb method "GET" then
    loaded <- Main.loadAppsConfig os ;;
    match loaded with
    | inl _ => ret (HTTPError 500)
    | inr config =>
      apps' <- handleApps_loop (Apps config) ;;
      Main.saveAppsConfig os {| Apps := apps' |} ;;
      ret (JSONApps apps')
    end
  else if String.eqb method "POST" then
    match body with
    | None => ret (HTTPError 400)
    | Some newApp =>
      loaded <- Main.loadAppsConfig os ;;
      match loaded with
      | inl _ => ret (HTTPError 500)
      | inr config =>
        match Apps.AddApp_check (Apps config) newApp with
        | Some _ => ret (HTTPError 400)
        | None =>
          err <- Main.saveAppsConfig os {| Apps := Apps config ++ [newApp] |} ;;
          match err with
          | Some _ => ret (HTTPError 500)
          | None => ret Created
          end
        end
      end
    end
  else ret NoResponse.

End WithOS.

End WebUI.

(** ** Package apps: removing a record (internal/apps, [DeleteApp]) *)

Module Store.

Section WithOS.
Context (os : OS).

(** [c.Apps = append(c.Apps[:i], c.Apps[i+1:]...)] at the first record
    of that name, then [SaveConfig]; the receiver is mutated in place and
    is returned with the error. *)
Definition DeleteApp (c : Config) (name : string) : M (Config * option Error) :=
  match findByName (Apps c) name with
  | Some (i, _) =>
    let c' := {| Apps := take i (Apps c) ++ drop (S i) (Apps c) |} in
    err <- Apps.SaveConfig os c' ;;
    ret (c', err)
  | None => ret (c, Some NotFound)
  end.

End WithOS.

End Store.

(** ** Package handlers: adding and deleting (internal/handlers/http.go) *)

Module Api.

(** [http.Error] with its status, and with the error whose message it
    carries when it carries one; a JSON success with its status. *)
Inductive Response :=
| HTTPError (status : Z) (cause : option Error)
| JSONStatus (status : Z).

Section WithOS.
Context (os : OS).

(** [body] is the record decoded from the request, [None] when the body
    is not valid JSON. *)
Definition AddApp (method : string) (body : option App) (c : Config)
  : M (Config * Response) :=
  if negb (String.eqb method "POST") then ret (c, HTTPError 405 None)
  else
    match body with
    | None => ret (c, HTTPError 400 None)
    | Some app =>
      if String.eqb (Name app) "" || (Port app =? 0) || String.eqb (Command app) ""
      then ret (c, HTTPError 400 None)
      else
        r <- Apps.AddApp os c app ;;
        match snd r with
        | Some e => ret (fst r, HTTPError 400 (Some e))
        | None => ret (fst r, JSONStatus 201)
        end
    end.

(** [body] is the name decoded from the request, [None] when the body is
    not valid JSON. *)
Definition DeleteApp (method : string) (body : option string) (c : Config)
  : M (Config * Response) :=
  if negb (String.eqb method "POST") then ret (c, HTTPError 405 None)
  else
    match body with
    | None => ret (c, HTTPError 400 None)
    | Some name =>
      if String.eqb name "" then ret (c, HTTPError 400 None)
      else
        c1 <- match Apps.GetApp c name with
              | Some (i, app) =>
                r <- Apps.StopApp os app ;;
                ret {| Apps := <[i := fst r]> (Apps c) |}
              | None => ret c
              end ;;
        r <- Store.DeleteApp os c1 name ;;
        match snd r with
        | Some e => ret (fst r, HTTPError 404 (Some e))
        | None => ret (fst r, JSONStatus 200)
        end
    end.

End WithOS.

End Api.

(** ** Package main, command line copy: further commands (main.go) *)

Module Commands.

(** [s[:maxLen-3]] panics when [maxLen-3] is negative: [None] is the
    panic.  Lengths and the slice are in bytes. *)
Definition truncateString (s : string) (maxLen : Z) : option string :=
  if Z.of_nat (String.length s) <=? maxLen then Some s
  else if maxLen - 3 <? 0 then None
  else Some (substring 0 (Z.to_nat (maxLen - 3)) s ++ "...")%string.

Section WithOS.
Context (os : OS).

(** The body of the loop of [startApps] for one record. *)
Definition startApps_one (app : App) : M App :=
  running <- (if negb (PID app =? 0)
              then Main.isProcessRunning os (PID app)
              else ret false) ;;
  if running then ret app
  else
    r <- Cli.startApp os app ;;
    ret (fst r).

Fixpoint startApps_loop (apps : list App) : M (list App) :=
  match apps with
  | [] => ret []
  | app :: rest =>
    app' <- startApps_one app ;;
    rest' <- startApps_loop rest ;;
    ret (app' :: rest')
  end.

Definition startApps : M Cli.Exit :=
  loaded <- Main.loadAppsConfig os ;;
  match loaded with
  | inl e => ret (Cli.Fatal e)
  | inr config =>
    match Apps config with
    | [] => ret Cli.Returned
    | _ =>
      err <- Main.ensureLogsDir os ;;
      match err with
      | Some e => ret (Cli.Fatal e)
      | None =>
        apps' <- startApps_loop (Apps config) ;;
        err <- Main.saveAppsConfig os {| Apps := apps' |} ;;
        match err with
        | Some e => ret (Cli.Fatal e)
        | None => ret Cli.Returned
        end
      end
    end
  end.

End WithOS.

End Commands.

(** ** Package main, web copy: the other handlers *)

Module WebApi.

(** What the handlers answer with. *)
Inductive Response :=
| HTTPError (status : Z)        (* http.Error *)
| JSONError (e : Error)         (* {error: ...} *)
| JSONMessage                   (* {message: ...} *)
| OK.                           (* 200 *)

Section WithOS.
Context (os : OS).









End WithOS.

End WebApi.

(** ** Predicates on command strings *)

Definition isSpace (c : ascii) : bool := byteZ c =? space.
Definition isQuote (c : ascii) : bool := (byteZ c =? dquote) || (byteZ c =? squote).
Definition isSpaceOrQuote (c : ascii) : bool := isSpace c || isQuote c.

(** Every byte of [s] satisfies [p]. *)
Definition allBytes (p : ascii -> bool) (s : string) : bool :=
  forallb p (list_ascii_of_string s).

(** Two bytes that are the same, or are both quote characters (of either
    kind). *)
Definition sameOrQuotes (a b : ascii) : bool :=
  Ascii.eqb a b || (isQuote a && isQuote b).

(** Two strings of the same length that differ at most in the kind of
    their quote characters. *)
Definition sameUpToQuoteKind (s t : string) : Prop :=
  Forall2 (fun a b => sameOrQuotes a b = true)
          (list_ascii_of_string s) (list_ascii_of_string t).

(** A single quote replaced by a double quote: strings that differ only
    in the kind of their quotes have the same image. *)
Definition normQuote (z : Z) : Z := if z =? squote then dquote else z.

Definition notQuote (c : ascii) : bool := negb (isQuote c).

(** Invariants of the loop of [parseCommand]: the tokens collected so far
    are not empty; tokens and the token under construction hold only
    spaces; they hold no quote character. *)
Definition partsNonEmpty (st : Main.pstate) : Prop :=
  Forall (fun t => t <> "") (Main.parts st).

Definition spacesOnly (st : Main.pstate) : Prop :=
  Forall (fun t => allBytes isSpace t = true) (Main.parts st)
  /\ allBytes isSpace (Main.current st) = true.

Definition quoteFree (st : Main.pstate) : Prop :=
  Forall (fun t => allBytes notQuote t = true) (Main.parts st)
  /\ allBytes notQuote (Main.current st) = true.

(** The string holding one double quote. *)
Definition dq : string := String (Zbyte 34) "".

(** ** Shapes of record sets and of tokens *)

(** No two records share a name, and no two share a port. *)
Definition uniqueApps (apps : list App) : Prop :=
  NoDup (map Name apps) /\ NoDup (map Port apps).

(** [b] is the record [a], or [a] with its pid reset to 0. *)
Definition sameOrStopped (a b : App) : Prop := b = a \/ b = setPID a 0.

(** [b] has the name, the port and the command of [a]. *)
Definition sameIdentity (a b : App) : Prop :=
  Name b = Name a /\ Port b = Port a /\ Command b = Command a.

(** An ASCII byte. *)
Definition asciiByte (c : ascii) : bool := byteZ c <? 128.

(** A byte of a bare token: ASCII, neither a space nor a quote. *)
Definition plainByte (c : ascii) : bool :=
  (byteZ c <? 128) && negb (isSpace c) && negb (isQuote c).

(** A byte that may stand inside quotes: ASCII and not a quote. *)
Definition quotableByte (c : ascii) : bool :=
  (byteZ c <? 128) && negb (isQuote c).

Definition plainToken (t : string) : bool :=
  negb (String.eqb t "") && allBytes plainByte t.

(** A quote character of either kind, as a string. *)
Definition isQuoteString (q : string) : Prop := q = dq \/ q = "'".

(** ** Commands written as words

    A command line as a user writes it: words separated by runs of
    spaces, a word being bare text and quoted spans written one after the
    other. *)

(** A piece of a word: bare text, or a span between an opening and a
    closing quote character. *)
Inductive piece :=
| Bare (a : string)
| Quoted (q s q' : string).

(** Bare text holds ASCII bytes other than the space and the quotes; a
    span is opened and closed by a quote character of either kind and
    holds ASCII bytes other than the quotes. *)
Definition pieceOK (p : piece) : Prop :=
  match p with
  | Bare a => allBytes plainByte a = true
  | Quoted q s q' =>
    isQuoteString q /\ isQuoteString q' /\ allBytes quotableByte s = true
  end.

(** A quoted span that holds spaces only. *)
Definition spacePiece (p : piece) : Prop :=
  match p with
  | Bare _ => False
  | Quoted q s q' =>
    isQuoteString q /\ isQuoteString q' /\ allBytes isSpace s = true
  end.

(** The piece as it is written, and what it stands for. *)
Definition pieceText (p : piece) : string :=
  match p with
  | Bare a => a
  | Quoted q s q' => q ++ s ++ q'
  end.

Definition pieceContent (p : piece) : string :=
  match p with
  | Bare a => a
  | Quoted _ s _ => s
  end.

Definition word := list piece.

Definition wordText (w : word) : string :=
  fold_right (fun p t => pieceText p ++ t)%string "" w.

Definition wordContent (w : word) : string :=
  fold_right (fun p t => pieceContent p ++ t)%string "" w.

(** Words, each followed by its run of separating spaces, and a last
    word that nothing follows. *)
Fixpoint renderWords (ws : list (word * string)) (final : word) : string :=
  match ws with
  | [] => wordText final
  | (w, sp) :: rest => wordText w ++ sp ++ renderWords rest final
  end.

(** Every word is well formed and is followed by one space or more. *)
Definition wordsOK (ok : piece -> Prop) (ws : list (word * string)) : Prop :=
  Forall (fun x => Forall ok (fst x)
                   /\ allBytes isSpace (snd x) = true /\ snd x <> "") ws.

(** The strings of a list that are not empty. *)
Definition nonEmptyTokens (l : list string) : list string :=
  List.filter (fun t => negb (String.eqb t "")) l.


(** ** Reading traces *)

(** The commands started in a trace, in order. *)
Fixpoint startsOf (w : Trace) : list Cmd :=
  match w with
  | [] => []
  | EStart cmd :: rest => cmd :: startsOf rest
  | _ :: rest => startsOf rest
  end.

(** The configurations written to apps.json in a trace, in order. *)
Fixpoint writesOf (w : Trace) : list Config :=
  match w with
  | [] => []
  | EWriteFile _ c :: rest => c :: writesOf rest
  | _ :: rest => writesOf rest
  end.

(** The signals other than the existence check sent in a trace. *)
Fixpoint signalsOf (w : Trace) : list (Z * Signal) :=
  match w with
  | [] => []
  | ESignal _ Signal0 :: rest => signalsOf rest
  | ESignal pid sig :: rest => (pid, sig) :: signalsOf rest
  | _ :: rest => signalsOf rest
  end.

(** The two calls of a liveness probe that reaches the signal. *)
Definition probe (pid : Z) : Trace := [EFindProcess pid; ESignal pid Signal0].

(** ** A simulated operating system

    Concrete answers, used to run the functions: the processes [procs]
    exist, and one of them is gone once a signal in [fatal] has been sent
    to it; apps.json holds [file]; files and directories can be made; a
    started child gets pid 4242. *)

Definition sentFatal (fatal : Signal -> bool) (pid : Z) (w : Trace) : bool :=
  existsb (fun e => match e with
                    | ESignal p sig => (p =? pid) && fatal sig
                    | _ => false
                    end) w.

Definition simOS (procs : Z -> bool) (fatal : Signal -> bool) (file : list App) : OS :=
  {| os_Environ := ["PATH=/usr/bin"; "HOME=/root"];
     os_Stat := fun _ _ => true;
     os_ReadFile := fun _ _ => Parsed file;
     os_WriteFile := fun _ _ => true;
     os_MkdirAll := fun _ _ => true;
     os_Create := fun _ _ => true;
     os_OpenFile := fun _ _ => true;
     os_Now := fun _ _ => "2024-01-01T00:00:00Z";
     os_LookPath := fun _ file => Some ("/usr/bin/" ++ file);
     os_Start := fun _ _ => Some 4242;
     os_FindProcess := fun _ _ => true;
     os_Signal := fun w pid _ => procs pid && negb (sentFatal fatal pid w);
     filepath_Join := fun dir file => dir ++ "/" ++ file;
     filepath_Dir := fun _ => ".";
     filepath_IsAbs := fun _ => false;
     strconv_Atoi := fun _ => Some 3000 |}.

(** Signals a process ends on: any terminating signal, or the forceful
    one alone. *)
Definition anyTerm (sig : Signal) : bool :=
  match sig with Signal0 => false | _ => true end.

Definition onlyKill (sig : Signal) : bool :=
  match sig with SIGKILL => true | _ => false end.

Definition never (sig : Signal) : bool := false.

(** A process that is there for the first probe and gone right after it
    (it ends between the probe and the next signal). *)
Definition afterProbe (sig : Signal) : bool := true.

(** One process, pid 42. *)
Definition sim42 (fatal : Signal -> bool) (file : list App) : OS :=
  simOS (fun pid => pid =? 42) fatal file.

(** The same system on a disk where apps.json is the only file and no
    directory can be made. *)
Definition noLogsDir (file : list App) : OS :=
  {| os_Environ := os_Environ (sim42 never file);
     os_Stat := fun _ path => String.eqb path "apps.json";
     os_ReadFile := os_ReadFile (sim42 never file);
     os_WriteFile := os_WriteFile (sim42 never file);
     os_MkdirAll := fun _ _ => false;
     os_Create := os_Create (sim42 never file);
     os_OpenFile := os_OpenFile (sim42 never file);
     os_Now := os_Now (sim42 never file);
     os_LookPath := os_LookPath (sim42 never file);
     os_Start := os_Start (sim42 never file);
     os_FindProcess := os_FindProcess (sim42 never file);
     os_Signal := os_Signal (sim42 never file);
     filepath_Join := filepath_Join (sim42 never file);
     filepath_Dir := filepath_Dir (sim42 never file);
     filepath_IsAbs := filepath_IsAbs (sim42 never file);
     strconv_Atoi := strconv_Atoi (sim42 never file) |}.

(** A record whose command holds no token. *)
Definition blank : App :=
  {| Name := "blank"; Port := 5000; Command := "   "; PID := 0; LogFile := "" |}.

(** A record with the name of [api] and the port of [web]. *)
Definition clash : App :=
  {| Name := "api"; Port := 3000; Command := "sleep 300"; PID := 0; LogFile := "" |}.

(** [e] shares neither name nor port with [app]. *)
Definition apart (app e : App) : Prop :=
  Name e <> Name app /\ Port e <> Port app.

(** Sample records. *)
Definition web (pid : Z) : App :=
  {| Name := "web"; Port := 3000; Command := "sleep 100";
     PID := pid; LogFile := "" |}.

Definition api (pid : Z) : App :=
  {| Name := "api"; Port := 4000; Command := "sleep 200";
     PID := pid; LogFile := "" |}.

(** ** Facts about Go strings *)

Lemma byteZ_Zbyte (z : Z) : 0 <= z < 256 -> byteZ (Zbyte z) = z.
Proof.
  intros H. unfold byteZ, Zbyte.
  rewrite N_ascii_embedding by lia. lia.
Qed.

Lemma Zbyte_byteZ (c : ascii) : Zbyte (byteZ c) = c.
Proof.
  unfold byteZ, Zbyte. rewrite N2Z.id. apply ascii_N_embedding.
Qed.

Lemma byteZ_range (c : ascii) : 0 <= byteZ c < 256.
Proof.
  unfold byteZ. pose proof (N_ascii_bounded c). lia.
Qed.

Lemma runeBytes_ascii (r : rune) : 0 <= r <= 127 -> runeBytes r = [r].
Proof.
  intros H. unfold runeBytes.
  replace ((0 <=? r) && (r <=? 127)) with true; [reflexivity|].
  symmetry. apply andb_true_iff. split; apply Z.leb_le; lia.
Qed.

Lemma runeBytes_high (r : rune) :
  ~ 0 <= r <= 127 -> Forall (fun b => 128 <= b < 256) (runeBytes r).
Proof.
  intros H. unfold runeBytes.
  destruct ((0 <=? r) && (r <=? 127)) eqn:E1.
  { apply andb_true_iff in E1 as [?%Z.leb_le ?%Z.leb_le]. lia. }
  destruct ((128 <=? r) && (r <=? 2047)) eqn:E2.
  { apply andb_true_iff in E2 as [?%Z.leb_le ?%Z.leb_le].
    repeat constructor; Z.div_mod_to_equations; lia. }
  destruct ((r <? 0) || (1114111 <? r) || ((55296 <=? r) && (r <=? 57343))) eqn:E3.
  { repeat constructor; lia. }
  apply orb_false_iff in E3 as [E3 _].
  apply orb_false_iff in E3 as [?%Z.ltb_ge ?%Z.ltb_ge].
  apply andb_false_iff in E2.
  assert (2047 < r) by (destruct E2 as [?%Z.leb_gt | ?%Z.leb_gt]; lia).
  destruct (r <=? 65535) eqn:E4.
  - apply Z.leb_le in E4. repeat constructor; Z.div_mod_to_equations; lia.
  - apply Z.leb_gt in E4. repeat constructor; Z.div_mod_to_equations; lia.
Qed.

Lemma runeBytes_range (r : rune) : Forall (fun b => 0 <= b < 256) (runeBytes r).
Proof.
  destruct (Z_le_dec 0 r) as [H0|H0]; [destruct (Z_le_dec r 127) as [H1|H1]|].
  - rewrite runeBytes_ascii by lia. repeat constructor; lia.
  - eapply Forall_impl; [apply runeBytes_high; lia|]. simpl. intros; lia.
  - eapply Forall_impl; [apply runeBytes_high; lia|]. simpl. intros; lia.
Qed.

Lemma runeBytes_nonempty (r : rune) : runeBytes r <> [].
Proof.
  unfold runeBytes.
  repeat match goal with |- context [if ?c then _ else _] => destruct c end;
    discriminate.
Qed.

Lemma runeString_nonempty (r : rune) : runeString r <> "".
Proof.
  unfold runeString. pose proof (runeBytes_nonempty r) as H.
  destruct (runeBytes r); [congruence | discriminate].
Qed.

Lemma bytesOf_runeString (r : rune) : bytesOf (runeString r) = runeBytes r.
Proof.
  unfold bytesOf, runeString. rewrite list_ascii_of_string_of_list_ascii.
  rewrite map_map. pose proof (runeBytes_range r) as H.
  induction H as [|b l Hb _ IH]; simpl; [reflexivity|].
  rewrite byteZ_Zbyte by exact Hb. now rewrite IH.
Qed.

Lemma bytesOf_app (s t : string) : bytesOf (s ++ t) = (bytesOf s ++ bytesOf t)%list.
Proof.
  unfold bytesOf. induction s as [|c s IH]; simpl; [reflexivity|].
  now rewrite IH.
Qed.

(** A byte below 128 is a rune of its own: on ASCII input the [range]
    loop yields the bytes themselves. *)
Lemma rangeBytes_ascii (bs : list Z) :
  Forall (fun b => b < 128) bs -> rangeBytes 0 bs = bs.
Proof.
  induction 1 as [|b l Hb _ IH]; simpl; [reflexivity|].
  replace (b <? 128) with true by (symmetry; apply Z.ltb_lt; exact Hb).
  simpl. now rewrite IH.
Qed.

(** ** The command parser *)

Section ParserFacts.
Import Main.

Lemma fold_pstep_inv (P : pstate -> Prop) (Q : rune -> Prop) :
  (forall st r, Q r -> P st -> P (pstep st r)) ->
  forall rs st, Forall Q rs -> P st -> P (fold_left pstep rs st).
Proof.
  intros Hstep rs. induction rs as [|r rs IH]; intros st HQ HP; simpl.
  - exact HP.
  - inversion HQ; subst. apply IH; [assumption|]. now apply Hstep.
Qed.

Lemma Forall_True {A : Type} (l : list A) : Forall (fun _ => True) l.
Proof. induction l; constructor; auto. Qed.

Lemma pstep_partsNonEmpty st r : partsNonEmpty st -> partsNonEmpty (pstep st r).
Proof.
  unfold partsNonEmpty, pstep. intros H.
  destruct ((r =? dquote) || (r =? squote)); simpl; [exact H|].
  destruct ((r =? space) && negb (inQuotes st)); simpl; [|exact H].
  destruct (String.eqb (current st) "") eqn:E; simpl; [exact H|].
  apply Forall_app. split; [exact H|].
  constructor; [|constructor]. now apply String.eqb_neq.
Qed.

Lemma pflush_nonempty st tok :
  partsNonEmpty st -> In tok (pflush st) -> tok <> "".
Proof.
  unfold partsNonEmpty, pflush. intros H Hin.
  destruct (String.eqb (current st) "") eqn:E; simpl in Hin.
  - rewrite Forall_forall in H. apply H. now apply list_elem_of_In.
  - apply in_app_or in Hin as [Hin|[<-|[]]].
    + rewrite Forall_forall in H. apply H. now apply list_elem_of_In.
    + now apply String.eqb_neq.
Qed.

Lemma parseCommand_nonempty command tok :
  In tok (parseCommand command) -> tok <> "".
Proof.
  unfold parseCommand. apply pflush_nonempty.
  apply (fold_pstep_inv partsNonEmpty (fun _ => True)).
  - intros st r _. apply pstep_partsNonEmpty.
  - apply Forall_True.
  - constructor.
Qed.

(** *** Bytes of strings *)

Lemma list_ascii_app (s t : string) :
  list_ascii_of_string (s ++ t)
  = (list_ascii_of_string s ++ list_ascii_of_string t)%list.
Proof. induction s as [|c s IH]; simpl; [reflexivity|]. now rewrite IH. Qed.

Lemma allBytes_app p (s t : string) :
  allBytes p (s ++ t) = allBytes p s && allBytes p t.
Proof. unfold allBytes. rewrite list_ascii_app. apply forallb_app. Qed.

Lemma allBytes_bytesOf (q : Z -> bool) (s : string) :
  allBytes (fun c => q (byteZ c)) s = forallb q (bytesOf s).
Proof.
  unfold allBytes, bytesOf.
  induction (list_ascii_of_string s) as [|c l IH]; simpl; [reflexivity|].
  now rewrite IH.
Qed.

Lemma allBytes_Forall (p : ascii -> bool) (Q : Z -> Prop) (s : string) :
  (forall c, p c = true -> Q (byteZ c)) ->
  allBytes p s = true -> Forall Q (bytesOf s).
Proof.
  intros Hp. unfold allBytes, bytesOf.
  induction (list_ascii_of_string s) as [|c l IH]; simpl; intros H.
  - constructor.
  - apply andb_true_iff in H as [Hc Hl]. constructor; auto.
Qed.

Lemma rangeString_ascii (p : ascii -> bool) (s : string) :
  (forall c, p c = true -> byteZ c < 128) ->
  allBytes p s = true -> rangeString s = bytesOf s.
Proof.
  intros Hp H. apply rangeBytes_ascii.
  now apply (allBytes_Forall p (fun b => b < 128)).
Qed.

(** *** Only spaces, only quotes *)

Lemma parseCommand_spaces command :
  allBytes isSpace command = true -> parseCommand command = [].
Proof.
  intros H. unfold parseCommand.
  rewrite (rangeString_ascii isSpace) by
    (auto; unfold isSpace, space; intros c ?%Z.eqb_eq; lia).
  assert (Hinv : fold_left pstep (bytesOf command) pinit = pinit).
  { apply (fold_pstep_inv (fun st => st = pinit) (fun r => r = space)).
    - intros st r -> ->. reflexivity.
    - apply (allBytes_Forall isSpace); [|exact H].
      unfold isSpace. now intros c ?%Z.eqb_eq.
    - reflexivity. }
  now rewrite Hinv.
Qed.

Lemma pstep_quote st q :
  q = dquote \/ q = squote ->
  pstep st q = {| parts := parts st; current := current st;
                  inQuotes := negb (inQuotes st) |}.
Proof. intros [-> | ->]; reflexivity. Qed.

Lemma parseCommand_quotes command :
  allBytes isQuote command = true -> parseCommand command = [].
Proof.
  intros H. unfold parseCommand.
  assert (Hq : forall c, isQuote c = true -> byteZ c = dquote \/ byteZ c = squote).
  { unfold isQuote. intros c [?%Z.eqb_eq | ?%Z.eqb_eq]%orb_true_iff; auto. }
  rewrite (rangeString_ascii isQuote) by
    (auto; intros c [-> | ->]%Hq; unfold dquote, squote; lia).
  assert (Hinv : parts (fold_left pstep (bytesOf command) pinit) = []
                 /\ current (fold_left pstep (bytesOf command) pinit) = "").
  { apply (fold_pstep_inv (fun st => parts st = [] /\ current st = "")
                          (fun r => r = dquote \/ r = squote)).
    - intros st r Hr Hst. now rewrite pstep_quote.
    - now apply (allBytes_Forall isQuote).
    - now split. }
  destruct Hinv as [Hp Hc]. unfold pflush. now rewrite Hc, Hp.
Qed.

(** *** Spaces and quotes together: tokens of quoted spaces *)

Lemma pstep_spacesOnly st r :
  r = space \/ r = dquote \/ r = squote ->
  spacesOnly st -> spacesOnly (pstep st r).
Proof.
  unfold spacesOnly. intros Hr [Hp Hc].
  destruct Hr as [-> | Hr]; [|now rewrite pstep_quote].
  unfold pstep. change ((space =? dquote) || (space =? squote)) with false.
  change (space =? space) with true. cbv iota. simpl andb.
  destruct (inQuotes st); simpl.
  - split; [exact Hp|]. rewrite allBytes_app, Hc. reflexivity.
  - destruct (String.eqb (current st) ""); simpl; [now split|].
    split; [|reflexivity]. apply Forall_app. split; [exact Hp|].
    now constructor.
Qed.

Lemma parseCommand_spaces_quotes command tok :
  allBytes isSpaceOrQuote command = true ->
  In tok (parseCommand command) -> allBytes isSpace tok = true.
Proof.
  intros H. unfold parseCommand.
  assert (Hq : forall c, isSpaceOrQuote c = true ->
                 byteZ c = space \/ byteZ c = dquote \/ byteZ c = squote).
  { unfold isSpaceOrQuote, isSpace, isQuote.
    intros c [?%Z.eqb_eq | [?%Z.eqb_eq | ?%Z.eqb_eq]%orb_true_iff]%orb_true_iff;
      auto. }
  rewrite (rangeString_ascii isSpaceOrQuote) by
    (auto; intros c [-> | [-> | ->]]%Hq; unfold space, dquote, squote; lia).
  assert (Hinv : spacesOnly (fold_left pstep (bytesOf command) pinit)).
  { apply (fold_pstep_inv spacesOnly
             (fun r => r = space \/ r = dquote \/ r = squote)).
    - intros st r. apply pstep_spacesOnly.
    - now apply (allBytes_Forall isSpaceOrQuote).
    - split; [constructor | reflexivity]. }
  destruct Hinv as [Hp Hc]. unfold pflush.
  rewrite Forall_forall in Hp.
  destruct (String.eqb (current _) ""); simpl; intros Hin.
  - apply Hp. now apply list_elem_of_In.
  - apply in_app_or in Hin as [Hin|[<-|[]]]; [|exact Hc].
    apply Hp. now apply list_elem_of_In.
Qed.

(** *** Quote characters never reach the output *)

Lemma runeString_notQuote r :
  (r =? dquote) || (r =? squote) = false ->
  allBytes notQuote (runeString r) = true.
Proof.
  intros Hr. apply orb_false_iff in Hr as [H1%Z.eqb_neq H2%Z.eqb_neq].
  unfold notQuote, isQuote.
  rewrite (allBytes_bytesOf (fun b => negb ((b =? dquote) || (b =? squote)))).
  rewrite bytesOf_runeString. apply forallb_forall.
  intros b Hb.
  assert (Hne : b <> dquote /\ b <> squote).
  { destruct (Z_le_dec 0 r) as [H0|H0]; [destruct (Z_le_dec r 127) as [H3|H3]|].
    - rewrite runeBytes_ascii in Hb by lia. destruct Hb as [<-|[]]. now split.
    - pose proof (runeBytes_high r ltac:(lia)) as Hh.
      rewrite Forall_forall in Hh. apply list_elem_of_In, Hh in Hb.
      unfold dquote, squote. lia.
    - pose proof (runeBytes_high r ltac:(lia)) as Hh.
      rewrite Forall_forall in Hh. apply list_elem_of_In, Hh in Hb.
      unfold dquote, squote. lia. }
  destruct Hne as [?%Z.eqb_neq ?%Z.eqb_neq]. apply negb_true_iff.
  now apply orb_false_iff.
Qed.

Lemma pstep_quoteFree st r : quoteFree st -> quoteFree (pstep st r).
Proof.
  unfold quoteFree, pstep. intros [Hp Hc].
  destruct ((r =? dquote) || (r =? squote)) eqn:Eq; simpl; [now split|].
  destruct ((r =? space) && negb (inQuotes st)); simpl.
  - destruct (String.eqb (current st) ""); simpl; [now split|].
    split; [|reflexivity]. apply Forall_app. split; [exact Hp|].
    now constructor.
  - split; [exact Hp|]. rewrite allBytes_app, Hc. simpl.
    now apply runeString_notQuote.
Qed.

Lemma parseCommand_quoteFree command tok :
  In tok (parseCommand command) -> allBytes notQuote tok = true.
Proof.
  unfold parseCommand.
  assert (Hinv : quoteFree (fold_left pstep (rangeString command) pinit)).
  { apply (fold_pstep_inv quoteFree (fun _ => True)).
    - intros st r _. apply pstep_quoteFree.
    - apply Forall_True.
    - split; [constructor | reflexivity]. }
  destruct Hinv as [Hp Hc]. unfold pflush.
  rewrite Forall_forall in Hp.
  destruct (String.eqb (current _) ""); simpl; intros Hin.
  - apply Hp. now apply list_elem_of_In.
  - apply in_app_or in Hin as [Hin|[<-|[]]]; [|exact Hc].
    apply Hp. now apply list_elem_of_In.
Qed.

(** *** The kind of a quote does not matter *)

Lemma normQuote_id z : z <> squote -> normQuote z = z.
Proof.
  intros H. unfold normQuote. now apply Z.eqb_neq in H as ->.
Qed.

Lemma cont_normQuote z : cont (normQuote z) = cont z.
Proof.
  unfold normQuote. destruct (z =? squote) eqn:E; [|reflexivity].
  apply Z.eqb_eq in E as ->. reflexivity.
Qed.

Ltac toProp :=
  repeat match goal with
  | H : _ && _ = true |- _ => apply andb_true_iff in H; destruct H
  | H : (_ <=? _) = true |- _ => apply Z.leb_le in H
  | H : (_ <=? _) = false |- _ => apply Z.leb_gt in H
  | H : (_ <? _) = true |- _ => apply Z.ltb_lt in H
  | H : (_ <? _) = false |- _ => apply Z.ltb_ge in H
  | H : (_ =? _) = true |- _ => apply Z.eqb_eq in H
  | H : (_ =? _) = false |- _ => apply Z.eqb_neq in H
  end.

Lemma inRange_normQuote lo hi z :
  128 <= lo ->
  ((lo <=? normQuote z) && (normQuote z <=? hi)) = ((lo <=? z) && (z <=? hi)).
Proof.
  intros H. unfold normQuote. destruct (z =? squote) eqn:E; [|reflexivity].
  apply Z.eqb_eq in E as ->. unfold dquote, squote.
  replace (lo <=? 34) with false by (symmetry; apply Z.leb_gt; lia).
  replace (lo <=? 39) with false by (symmetry; apply Z.leb_gt; lia).
  reflexivity.
Qed.

Lemma decodeRune_norm l :
  decodeRune (map normQuote l) = (normQuote (fst (decodeRune l)), snd (decodeRune l)).
Proof.
  destruct l as [|b0 t]; [reflexivity|].
  simpl map. unfold decodeRune.
  destruct (b0 <? 128) eqn:E0.
  { simpl. replace (normQuote b0 <? 128) with true; [reflexivity|].
    symmetry. apply Z.ltb_lt. apply Z.ltb_lt in E0. unfold normQuote.
    destruct (b0 =? squote); unfold dquote; lia. }
  assert (Hb0 : normQuote b0 = b0).
  { apply normQuote_id. apply Z.ltb_ge in E0. unfold squote. lia. }
  rewrite Hb0, E0.
  assert (HE : normQuote RuneError = RuneError) by reflexivity.
  destruct ((194 <=? b0) && (b0 <=? 223)) eqn:E1.
  { destruct t as [|b1 t]; [reflexivity|]. simpl map. cbv beta iota.
    rewrite cont_normQuote. destruct (cont b1) eqn:C1; [|reflexivity].
    simpl. unfold cont in C1. toProp.
    rewrite (normQuote_id b1) by (unfold squote; lia).
    rewrite normQuote_id by (unfold squote; lia). reflexivity. }
  destruct ((224 <=? b0) && (b0 <=? 239)) eqn:E2.
  { destruct t as [|b1 [|b2 t]]; [reflexivity|reflexivity|]. simpl map. cbv beta iota.
    rewrite cont_normQuote.
    rewrite inRange_normQuote by (destruct (b0 =? 224); lia).
    destruct (_ && cont b2) eqn:C; [|reflexivity].
    simpl. unfold cont in C. toProp.
    assert (128 <= b1) by (destruct (b0 =? 224); lia).
    rewrite (normQuote_id b1), (normQuote_id b2) by (unfold squote; lia).
    rewrite normQuote_id; [reflexivity|].
    destruct (b0 =? 224) eqn:?; toProp; unfold squote; lia. }
  destruct ((240 <=? b0) && (b0 <=? 244)) eqn:E3; [|reflexivity].
  destruct t as [|b1 [|b2 [|b3 t]]]; [reflexivity|reflexivity|reflexivity|].
  simpl map. cbv beta iota. rewrite !cont_normQuote.
  rewrite inRange_normQuote by (destruct (b0 =? 240); lia).
  destruct (_ && cont b3) eqn:C; [|reflexivity].
  simpl. unfold cont in C. toProp.
  assert (128 <= b1) by (destruct (b0 =? 240); lia).
  rewrite (normQuote_id b1), (normQuote_id b2), (normQuote_id b3) by (unfold squote; lia).
  rewrite normQuote_id; [reflexivity|].
  destruct (b0 =? 240) eqn:?; toProp; unfold squote; lia.
Qed.

Lemma rangeBytes_norm l : forall k,
  rangeBytes k (map normQuote l) = map normQuote (rangeBytes k l).
Proof.
  induction l as [|b t IH]; intros k; [reflexivity|].
  destruct k as [|k].
  - change (rangeBytes 0 (map normQuote (b :: t)))
      with (let (r, w) := decodeRune (map normQuote (b :: t)) in
            r :: rangeBytes (Nat.pred w) (map normQuote t)).
    change (rangeBytes 0 (b :: t))
      with (let (r, w) := decodeRune (b :: t) in
            r :: rangeBytes (Nat.pred w) t).
    rewrite decodeRune_norm.
    destruct (decodeRune (b :: t)) as [r w]. simpl. now rewrite IH.
  - simpl. apply IH.
Qed.

Lemma pstep_norm st r : pstep st (normQuote r) = pstep st r.
Proof.
  unfold normQuote. destruct (r =? squote) eqn:E; [|reflexivity].
  apply Z.eqb_eq in E as ->. reflexivity.
Qed.

Lemma fold_pstep_norm rs : forall st,
  fold_left pstep (map normQuote rs) st = fold_left pstep rs st.
Proof.
  induction rs as [|r rs IH]; intros st; simpl; [reflexivity|].
  now rewrite pstep_norm, IH.
Qed.

Lemma sameOrQuotes_norm a b :
  sameOrQuotes a b = true -> normQuote (byteZ a) = normQuote (byteZ b).
Proof.
  unfold sameOrQuotes. intros [H|H]%orb_true_iff.
  - apply Ascii.eqb_eq in H as ->. reflexivity.
  - unfold isQuote in H. unfold normQuote.
    apply andb_true_iff in H as [Ha Hb].
    apply orb_true_iff in Ha as [->%Z.eqb_eq | ->%Z.eqb_eq];
      apply orb_true_iff in Hb as [->%Z.eqb_eq | ->%Z.eqb_eq]; reflexivity.
Qed.

Lemma parseCommand_quote_kind s t :
  sameUpToQuoteKind s t -> parseCommand s = parseCommand t.
Proof.
  intros H. unfold parseCommand, rangeString.
  rewrite <- (fold_pstep_norm (rangeBytes 0 (bytesOf s))).
  rewrite <- (fold_pstep_norm (rangeBytes 0 (bytesOf t))).
  rewrite <- !rangeBytes_norm. do 3 f_equal.
  unfold sameUpToQuoteKind in H. unfold bytesOf.
  induction H as [|a b l1 l2 Hab _ IH]; simpl; [reflexivity|].
  now rewrite (sameOrQuotes_norm a b Hab), IH.
Qed.

End ParserFacts.

(** ** The parser on bare text, quoted spans and words *)

Section ParserText.
Import Main.
Local Open Scope list_scope.

Lemma string_app_assoc (a b c : string) : ((a ++ b) ++ c = a ++ (b ++ c))%string.
Proof. induction a as [|x a IH]; simpl; [reflexivity|]. now rewrite IH. Qed.

Lemma string_app_nil_r (a : string) : (a ++ "" = a)%string.
Proof. induction a as [|x a IH]; simpl; [reflexivity|]. now rewrite IH. Qed.

Lemma string_length_app (a b : string) :
  String.length (a ++ b) = (String.length a + String.length b)%nat.
Proof. induction a as [|x a IH]; simpl; [reflexivity|]. now rewrite IH. Qed.

Lemma runeString_ascii c : byteZ c < 128 -> runeString (byteZ c) = String c "".
Proof.
  intros H. unfold runeString. pose proof (byteZ_range c).
  rewrite runeBytes_ascii by lia. simpl. now rewrite Zbyte_byteZ.
Qed.

Lemma plainByte_spec c :
  plainByte c = true ->
  byteZ c < 128 /\ byteZ c <> space /\ byteZ c <> dquote /\ byteZ c <> squote.
Proof.
  unfold plainByte, isSpace, isQuote. intros H.
  apply andb_true_iff in H as [H H3]. apply andb_true_iff in H as [H1 H2].
  apply Z.ltb_lt in H1. apply negb_true_iff in H2, H3.
  apply Z.eqb_neq in H2. apply orb_false_iff in H3 as [H3 H4].
  apply Z.eqb_neq in H3, H4. auto.
Qed.

Lemma quotableByte_spec c :
  quotableByte c = true ->
  byteZ c < 128 /\ byteZ c <> dquote /\ byteZ c <> squote.
Proof.
  unfold quotableByte, isQuote. intros H.
  apply andb_true_iff in H as [H1 H3].
  apply Z.ltb_lt in H1. apply negb_true_iff in H3.
  apply orb_false_iff in H3 as [H3 H4].
  apply Z.eqb_neq in H3, H4. auto.
Qed.

Lemma pstep_plain st c :
  plainByte c = true ->
  pstep st (byteZ c)
  = {| parts := parts st; current := (current st ++ String c "")%string;
       inQuotes := inQuotes st |}.
Proof.
  intros (H1 & H2 & H3 & H4)%plainByte_spec. unfold pstep.
  apply Z.eqb_neq in H2, H3, H4. rewrite H2, H3, H4. simpl.
  now rewrite runeString_ascii.
Qed.

Lemma pstep_quoted st c :
  quotableByte c = true ->
  inQuotes st = true ->
  pstep st (byteZ c)
  = {| parts := parts st; current := (current st ++ String c "")%string;
       inQuotes := true |}.
Proof.
  intros (H1 & H3 & H4)%quotableByte_spec Hq. unfold pstep.
  apply Z.eqb_neq in H3, H4. rewrite H3, H4, Hq. simpl.
  rewrite andb_false_r. now rewrite runeString_ascii.
Qed.

(** Bare text outside quotes, and any quotable text inside quotes, is
    appended to the token under construction. *)
Lemma fold_pstep_text (p : ascii -> bool) t : forall st,
  allBytes p t = true ->
  (forall c st', inQuotes st' = inQuotes st -> p c = true ->
     pstep st' (byteZ c)
     = {| parts := parts st'; current := (current st' ++ String c "")%string;
          inQuotes := inQuotes st' |}) ->
  fold_left pstep (bytesOf t) st
  = {| parts := parts st; current := (current st ++ t)%string;
       inQuotes := inQuotes st |}.
Proof.
  unfold allBytes, bytesOf.
  induction t as [|c t IH]; intros st Hall Hstep; simpl.
  - rewrite string_app_nil_r. now destruct st.
  - simpl in Hall. apply andb_true_iff in Hall as [Hc Hall].
    rewrite (Hstep c st eq_refl Hc). rewrite IH; [|exact Hall|].
    + simpl. now rewrite string_app_assoc.
    + intros c' st' Hq Hc'. apply Hstep; [exact Hq | exact Hc'].
Qed.

Lemma fold_pstep_plain t st :
  allBytes plainByte t = true ->
  fold_left pstep (bytesOf t) st
  = {| parts := parts st; current := (current st ++ t)%string;
       inQuotes := inQuotes st |}.
Proof.
  intros H. apply (fold_pstep_text plainByte); [exact H|].
  intros c st' _ Hc. now apply pstep_plain.
Qed.

Lemma fold_pstep_quoted t st :
  allBytes quotableByte t = true ->
  inQuotes st = true ->
  fold_left pstep (bytesOf t) st
  = {| parts := parts st; current := (current st ++ t)%string;
       inQuotes := inQuotes st |}.
Proof.
  intros H Hq. apply (fold_pstep_text quotableByte); [exact H|].
  intros c st' Hq' Hc. rewrite pstep_quoted; [|exact Hc|congruence].
  f_equal. congruence.
Qed.

Lemma allBytes_impl (p q : ascii -> bool) s :
  (forall c, p c = true -> q c = true) ->
  allBytes p s = true -> allBytes q s = true.
Proof.
  intros Hpq. unfold allBytes.
  induction (list_ascii_of_string s) as [|c l IH]; simpl; [reflexivity|].
  intros [Hc Hl]%andb_true_iff. rewrite (Hpq c Hc). now apply IH.
Qed.

Lemma rangeString_asciiByte s :
  allBytes asciiByte s = true -> rangeString s = bytesOf s.
Proof.
  apply rangeString_ascii. unfold asciiByte. now intros c ?%Z.ltb_lt.
Qed.

Lemma plainByte_ascii c : plainByte c = true -> asciiByte c = true.
Proof. intros (H & _)%plainByte_spec. now apply Z.ltb_lt. Qed.

Lemma quotableByte_ascii c : quotableByte c = true -> asciiByte c = true.
Proof. intros (H & _)%quotableByte_spec. now apply Z.ltb_lt. Qed.

Lemma plainToken_spec t :
  plainToken t = true -> t <> "" /\ allBytes plainByte t = true.
Proof.
  unfold plainToken. intros [H1 H2]%andb_true_iff. split; [|exact H2].
  apply negb_true_iff in H1. now apply String.eqb_neq.
Qed.

Lemma concat_ascii toks :
  Forall (fun t => plainToken t = true) toks ->
  allBytes asciiByte (String.concat " " toks) = true.
Proof.
  induction 1 as [|t rest Ht Hrest IH]; [reflexivity|].
  apply plainToken_spec in Ht as [_ Ht].
  apply (allBytes_impl _ _ _ plainByte_ascii) in Ht.
  destruct rest as [|t' rest]; [exact Ht|].
  change (String.concat " " (t :: t' :: rest))
    with (t ++ " " ++ String.concat " " (t' :: rest))%string.
  rewrite !allBytes_app, Ht, IH. reflexivity.
Qed.

Lemma fold_pstep_join toks : forall st,
  Forall (fun t => plainToken t = true) toks ->
  current st = "" -> inQuotes st = false ->
  pflush (fold_left pstep (bytesOf (String.concat " " toks)) st)
  = parts st ++ toks.
Proof.
  induction toks as [|t rest IH]; intros st Hall Hc Hq.
  - simpl. unfold pflush. rewrite Hc. simpl. now rewrite app_nil_r.
  - inversion Hall as [|? ? Ht Hrest]; subst.
    apply plainToken_spec in Ht as [Hne Ht].
    destruct rest as [|t' rest].
    + simpl. rewrite fold_pstep_plain by exact Ht. unfold pflush. simpl.
      rewrite Hc. simpl. apply String.eqb_neq in Hne. now rewrite Hne.
    + change (String.concat " " (t :: t' :: rest))
        with (t ++ " " ++ String.concat " " (t' :: rest))%string.
      rewrite bytesOf_app, fold_left_app.
      rewrite (fold_pstep_plain t) by exact Ht.
      change (bytesOf (" " ++ String.concat " " (t' :: rest)))
        with (space :: bytesOf (String.concat " " (t' :: rest))).
      cbn [fold_left]. unfold pstep at 2.
      change ((space =? dquote) || (space =? squote)) with false.
      change (space =? space) with true. cbn [parts current inQuotes].
      rewrite Hq, Hc. cbn [andb negb]. simpl append.
      apply String.eqb_neq in Hne. rewrite Hne. cbn [negb].
      rewrite IH; [|exact Hrest|reflexivity|reflexivity].
      cbn [parts]. now rewrite <- app_assoc.
Qed.

Lemma bytesOf_quote q :
  isQuoteString q -> bytesOf q = [dquote] \/ bytesOf q = [squote].
Proof. intros [-> | ->]; [left | right]; reflexivity. Qed.

Lemma quote_ascii q : isQuoteString q -> allBytes asciiByte q = true.
Proof. intros [-> | ->]; reflexivity. Qed.

Lemma fold_pstep_quote q st :
  isQuoteString q ->
  fold_left pstep (bytesOf q) st
  = {| parts := parts st; current := current st;
       inQuotes := negb (inQuotes st) |}.
Proof.
  intros [H|H]%bytesOf_quote; rewrite H; simpl;
    apply pstep_quote; auto.
Qed.

Lemma isSpace_spec c : isSpace c = true -> c = " "%char.
Proof.
  unfold isSpace. intros H%Z.eqb_eq.
  rewrite <- (Zbyte_byteZ c), H. reflexivity.
Qed.

Lemma isSpace_quotable c : isSpace c = true -> quotableByte c = true.
Proof. intros ->%isSpace_spec. reflexivity. Qed.

Lemma isSpace_ascii c : isSpace c = true -> asciiByte c = true.
Proof. intros ->%isSpace_spec. reflexivity. Qed.

(** A run of spaces outside quotes ends the token under construction,
    if there is one, and leaves no token of its own. *)
Lemma fold_pstep_spaces sp : forall st,
  allBytes isSpace sp = true ->
  inQuotes st = false ->
  fold_left pstep (bytesOf sp) st
  = if String.eqb sp "" then st
    else {| parts := parts st ++ nonEmptyTokens [current st];
            current := ""; inQuotes := false |}.
Proof.
  unfold allBytes, bytesOf.
  induction sp as [|c sp IH]; intros st Hall Hq; [reflexivity|].
  simpl in Hall. apply andb_true_iff in Hall as [Hc Hall].
  apply isSpace_spec in Hc. subst c.
  change (String.eqb (String " " sp) "") with false. cbv iota.
  change (map byteZ (list_ascii_of_string (String " " sp)))
    with (space :: map byteZ (list_ascii_of_string sp)).
  cbn [fold_left].
  assert (Hs : pstep st space
               = {| parts := parts st ++ nonEmptyTokens [current st];
                    current := ""; inQuotes := false |}).
  { unfold pstep.
    change ((space =? dquote) || (space =? squote)) with false.
    change (space =? space) with true. rewrite Hq. cbn [andb negb].
    unfold nonEmptyTokens. cbn [List.filter].
    destruct (String.eqb_spec (current st) "") as [He|He]; cbn [negb].
    - rewrite app_nil_r. destruct st; simpl in *. now subst.
    - reflexivity. }
  rewrite Hs, IH; [|exact Hall|reflexivity].
  destruct (String.eqb sp ""); [reflexivity|].
  cbn [parts current inQuotes]. unfold nonEmptyTokens at 2.
  cbn [List.filter]. change (negb (String.eqb "" "")) with false.
  cbv iota. now rewrite app_nil_r.
Qed.

Lemma fold_pstep_piece p st :
  pieceOK p ->
  inQuotes st = false ->
  fold_left pstep (bytesOf (pieceText p)) st
  = {| parts := parts st; current := (current st ++ pieceContent p)%string;
       inQuotes := false |}.
Proof.
  destruct p as [a|q s q']; simpl; intros Hok Hq.
  - rewrite (fold_pstep_plain a) by exact Hok. now rewrite Hq.
  - destruct Hok as (H1 & H2 & H3).
    rewrite !bytesOf_app, !fold_left_app.
    rewrite (fold_pstep_quote q) by exact H1.
    rewrite (fold_pstep_quoted s); [|exact H3|cbn [inQuotes]; now rewrite Hq].
    rewrite (fold_pstep_quote q') by exact H2.
    cbn [parts current inQuotes]. now rewrite Hq.
Qed.

Lemma fold_pstep_word w : forall st,
  Forall pieceOK w ->
  inQuotes st = false ->
  fold_left pstep (bytesOf (wordText w)) st
  = {| parts := parts st; current := (current st ++ wordContent w)%string;
       inQuotes := false |}.
Proof.
  induction w as [|p w IH]; intros st Hok Hq; simpl.
  - rewrite string_app_nil_r. destruct st; simpl in *. now subst.
  - inversion Hok as [|? ? Hp Hw]; subst.
    rewrite bytesOf_app, fold_left_app.
    rewrite (fold_pstep_piece p) by assumption.
    rewrite IH; [|exact Hw|reflexivity].
    cbn [parts current]. now rewrite string_app_assoc.
Qed.

Lemma nonEmptyTokens_app l l' :
  nonEmptyTokens (l ++ l') = nonEmptyTokens l ++ nonEmptyTokens l'.
Proof. apply List.filter_app. Qed.

Lemma fold_pstep_render ws final : forall st,
  wordsOK pieceOK ws ->
  Forall pieceOK final ->
  current st = "" -> inQuotes st = false ->
  pflush (fold_left pstep (bytesOf (renderWords ws final)) st)
  = parts st ++ nonEmptyTokens (map wordContent (map fst ws ++ [final])).
Proof.
  induction ws as [|[w sp] ws IH]; intros st Hws Hf Hc Hq.
  - simpl. rewrite (fold_pstep_word final) by assumption.
    unfold pflush, nonEmptyTokens. cbn [parts current List.filter].
    rewrite Hc. change ("" ++ wordContent final)%string with (wordContent final).
    now destruct (String.eqb (wordContent final) "");
      cbn [negb]; rewrite ?app_nil_r.
  - inversion Hws as [|? ? (Hw & Hsp & Hne) Hrest]; subst. simpl in Hw, Hsp, Hne.
    change (renderWords ((w, sp) :: ws) final)
      with (wordText w ++ sp ++ renderWords ws final)%string.
    rewrite !bytesOf_app, !fold_left_app.
    rewrite (fold_pstep_word w) by assumption.
    rewrite (fold_pstep_spaces sp); [|exact Hsp|reflexivity].
    apply String.eqb_neq in Hne. rewrite Hne.
    rewrite IH; [|exact Hrest|exact Hf|reflexivity|reflexivity].
    cbn [parts current]. rewrite Hc.
    change ("" ++ wordContent w)%string with (wordContent w).
    change (map wordContent (map fst ((w, sp) :: ws) ++ [final]))
      with (wordContent w :: map wordContent (map fst ws ++ [final])).
    change (wordContent w :: map wordContent (map fst ws ++ [final]))
      with ([wordContent w] ++ map wordContent (map fst ws ++ [final])).
    now rewrite nonEmptyTokens_app, app_assoc.
Qed.

Lemma wordText_ascii w : Forall pieceOK w -> allBytes asciiByte (wordText w) = true.
Proof.
  induction 1 as [|p w Hp _ IH]; [reflexivity|]. simpl.
  rewrite allBytes_app, IH, andb_true_r.
  destruct p as [a|q s q']; simpl in *.
  - now apply (allBytes_impl _ _ _ plainByte_ascii).
  - destruct Hp as (H1 & H2 & H3).
    rewrite !allBytes_app, (quote_ascii q H1), (quote_ascii q' H2).
    now rewrite (allBytes_impl _ _ _ quotableByte_ascii H3).
Qed.

Lemma renderWords_ascii ws final :
  wordsOK pieceOK ws -> Forall pieceOK final ->
  allBytes asciiByte (renderWords ws final) = true.
Proof.
  intros Hws Hf. induction Hws as [|[w sp] ws (Hw & Hsp & _) _ IH].
  - now apply wordText_ascii.
  - simpl in *. rewrite !allBytes_app, IH, (wordText_ascii w Hw).
    now rewrite (allBytes_impl _ _ _ isSpace_ascii Hsp).
Qed.

(** The parse of a command written as words: one token for each word
    that stands for a non-empty text, in order; the token is the text of
    the word without its quote characters.  Spaces before the first word
    are skipped. *)
Lemma parseCommand_render lead ws final :
  allBytes isSpace lead = true ->
  wordsOK pieceOK ws ->
  Forall pieceOK final ->
  parseCommand (lead ++ renderWords ws final)
  = nonEmptyTokens (map wordContent (map fst ws ++ [final])).
Proof.
  intros Hl Hws Hf. unfold parseCommand.
  rewrite rangeString_asciiByte.
  - rewrite bytesOf_app, fold_left_app.
    rewrite (fold_pstep_spaces lead); [|exact Hl|reflexivity].
    destruct (String.eqb lead "").
    + now rewrite fold_pstep_render.
    + rewrite fold_pstep_render; try assumption; reflexivity.
  - rewrite allBytes_app, (allBytes_impl _ _ _ isSpace_ascii Hl).
    now rewrite renderWords_ascii.
Qed.

(** A word with one quoted span, a run of spaces and a bare word. *)
Lemma parseCommand_span_word a q s q' b sp c :
  isQuoteString q -> isQuoteString q' ->
  allBytes plainByte a = true -> allBytes quotableByte s = true ->
  allBytes plainByte b = true ->
  allBytes isSpace sp = true -> sp <> "" ->
  allBytes plainByte c = true ->
  parseCommand (a ++ q ++ s ++ q' ++ b ++ sp ++ c)
  = nonEmptyTokens [(a ++ s ++ b)%string; c].
Proof.
  intros Hq Hq' Ha Hs Hb Hsp Hne Hc.
  pose proof (parseCommand_render ""
                [([Bare a; Quoted q s q'; Bare b], sp)] [Bare c]) as H.
  cbn [renderWords wordText wordContent pieceText pieceContent fold_right
       map fst app] in H.
  change ("" ++ ?x)%string with x in H.
  rewrite !string_app_nil_r, !string_app_assoc in H.
  apply H; [reflexivity| |].
  - constructor; [|constructor]. simpl. repeat split; try assumption.
    constructor; [exact Ha|]. constructor; [now repeat split|].
    constructor; [exact Hb|]. constructor.
  - repeat constructor. exact Hc.
Qed.


Lemma spacePiece_ok p : spacePiece p -> pieceOK p.
Proof.
  destruct p as [a|q s q']; simpl; [tauto|].
  intros (H1 & H2 & H3). repeat split; try assumption.
  now apply (allBytes_impl _ _ _ isSpace_quotable).
Qed.

Lemma wordText_spaces_quotes w :
  Forall spacePiece w -> allBytes isSpaceOrQuote (wordText w) = true.
Proof.
  assert (Hq : forall q, isQuoteString q -> allBytes isSpaceOrQuote q = true).
  { intros q [-> | ->]; reflexivity. }
  assert (Hs : forall c, isSpace c = true -> isSpaceOrQuote c = true).
  { intros c H. unfold isSpaceOrQuote. now rewrite H. }
  induction 1 as [|p w Hp _ IH]; [reflexivity|]. simpl.
  rewrite allBytes_app, IH, andb_true_r.
  destruct p as [a|q s q']; simpl in *; [contradiction|].
  destruct Hp as (H1 & H2 & H3).
  rewrite !allBytes_app, (Hq q H1), (Hq q' H2).
  now rewrite (allBytes_impl _ _ _ Hs H3).
Qed.

Lemma renderWords_spaces_quotes lead ws final :
  allBytes isSpace lead = true ->
  wordsOK spacePiece ws -> Forall spacePiece final ->
  allBytes isSpaceOrQuote (lead ++ renderWords ws final) = true.
Proof.
  assert (Hs : forall c, isSpace c = true -> isSpaceOrQuote c = true).
  { intros c H. unfold isSpaceOrQuote. now rewrite H. }
  intros Hl Hws Hf.
  rewrite allBytes_app, (allBytes_impl _ _ _ Hs Hl). cbn [andb].
  induction Hws as [|[w sp] ws (Hw & Hsp & _) _ IH].
  - now apply wordText_spaces_quotes.
  - simpl in *. rewrite !allBytes_app, IH, (wordText_spaces_quotes w Hw).
    now rewrite (allBytes_impl _ _ _ Hs Hsp).
Qed.

Lemma wordsOK_impl (P Q : piece -> Prop) ws :
  (forall p, P p -> Q p) -> wordsOK P ws -> wordsOK Q ws.
Proof.
  intros HPQ H. unfold wordsOK in *.
  eapply Forall_impl; [exact H|].
  intros x (H1 & H2 & H3). repeat split; try assumption.
  eapply Forall_impl; [exact H1 | exact HPQ].
Qed.

End ParserText.

(** C9 counterexample: the input made of a single quote, a space and a
    single quote holds only spaces and quote characters, and its parse is
    the one token made of a space, not the empty list. *)
Lemma parseCommand_quoted_space_not_empty :
  ~ (forall command,
       allBytes isSpaceOrQuote command = true -> Main.parseCommand command = []).
Proof.
  intros H. specialize (H "' '" eq_refl). vm_compute in H. discriminate H.
Qed.

(** C9 (as amended): every token returned by [parseCommand] is a
    non-empty string; an input of only spaces, or of only quote
    characters, gives the empty list; an input of spaces and quote
    characters together gives only tokens made of spaces.  When every
    quote of such an input is closed, the input is a sequence of words
    separated by spaces outside quotes, each word being quoted spans of
    spaces written one after the other: there is one token for each word
    whose spans hold a space, made of the spaces of all the spans of the
    word (two spans that touch give one token, not two). *)
Theorem parseCommand_tokens_nonempty :
  (forall command tok, In tok (Main.parseCommand command) -> tok <> "")
  /\ (forall command,
        allBytes isSpace command = true -> Main.parseCommand command = [])
  /\ (forall command,
        allBytes isQuote command = true -> Main.parseCommand command = [])
  /\ (forall command tok,
        allBytes isSpaceOrQuote command = true ->
        In tok (Main.parseCommand command) -> allBytes isSpace tok = true)
  /\ (forall lead ws final,
        allBytes isSpace lead = true ->
        wordsOK spacePiece ws ->
        Forall spacePiece final ->
        allBytes isSpaceOrQuote (lead ++ renderWords ws final) = true
        /\ Main.parseCommand (lead ++ renderWords ws final)
           = nonEmptyTokens (map wordContent (map fst ws ++ [final])%list)).
Proof.
  split; [|split; [|split; [|split]]].
  - apply parseCommand_nonempty.
  - apply parseCommand_spaces.
  - apply parseCommand_quotes.
  - apply parseCommand_spaces_quotes.
  - intros lead ws final Hl Hws Hf. split.
    + now apply renderWords_spaces_quotes.
    + apply parseCommand_render; [exact Hl | |].
      * exact (wordsOK_impl _ _ ws spacePiece_ok Hws).
      * eapply Forall_impl; [exact Hf | exact spacePiece_ok].
Qed.

Lemma parseCommand_tokens_nonempty_witness :
  "b" <> ""
  /\ Main.parseCommand "   " = []
  /\ Main.parseCommand ("'" ++ dq ++ "'") = []
  /\ allBytes isSpace " " = true
  /\ Main.parseCommand ("  ' '" ++ dq ++ " " ++ dq ++ "   ''  " ++ dq ++ "  '")
     = ["  "; "  "].
Proof.
  destruct parseCommand_tokens_nonempty as (H1 & H2 & H3 & H4 & H5).
  split; [|split; [|split; [|split]]].
  - apply (H1 "a  b"). vm_compute. right. left. reflexivity.
  - apply H2. reflexivity.
  - apply H3. reflexivity.
  - apply (H4 "' '"); [reflexivity|]. vm_compute. left. reflexivity.
  - apply (H5 "  "
             [([Quoted "'" " " "'"; Quoted dq " " dq], "   ");
              ([Quoted "'" "" "'"], "  ")]
             [Quoted dq "  " "'"]); [reflexivity| |];
      unfold wordsOK;
      repeat first [ match goal with |- Forall _ _ => constructor end
                   | split | reflexivity | discriminate
                   | left; reflexivity | right; reflexivity ].
Defined.

(** C10: the parser keeps one in-quotes flag, toggled by the single and
    by the double quote alike; inside a span a space is kept in the
    token; hence the kind of each quote character is immaterial (two
    commands that differ only in the kind of their quotes parse alike),
    and no quote character is left in any token.  A span opened by a
    quote of one kind is closed by the next quote of either kind: bare
    text, a span between two quotes of any kinds and bare text, written
    without a space, followed by spaces and a bare word, parse to the
    text with the span and without its quotes, spaces of the span
    included, and to the word after it as a token of its own. *)
Theorem parseCommand_shared_quote_flag :
  (forall st q, q = dquote \/ q = squote ->
     Main.pstep st q
     = {| Main.parts := Main.parts st; Main.current := Main.current st;
          Main.inQuotes := negb (Main.inQuotes st) |})
  /\ (forall st, Main.inQuotes st = true ->
        Main.pstep st space
        = {| Main.parts := Main.parts st;
             Main.current := Main.current st ++ " ";
             Main.inQuotes := true |})
  /\ (forall s t, sameUpToQuoteKind s t ->
        Main.parseCommand s = Main.parseCommand t)
  /\ (forall command tok,
        In tok (Main.parseCommand command) -> allBytes notQuote tok = true)
  /\ (forall a q s q' b sp c,
        isQuoteString q -> isQuoteString q' ->
        allBytes plainByte a = true ->
        allBytes quotableByte s = true ->
        allBytes plainByte b = true ->
        allBytes isSpace sp = true -> sp <> "" ->
        allBytes plainByte c = true ->
        Main.parseCommand (a ++ q ++ s ++ q' ++ b ++ sp ++ c)
        = nonEmptyTokens [a ++ s ++ b; c]).
Proof.
  split; [|split; [|split; [|split]]].
  - apply pstep_quote.
  - intros st H. unfold Main.pstep.
    change ((space =? dquote) || (space =? squote)) with false.
    rewrite H. reflexivity.
  - apply parseCommand_quote_kind.
  - apply parseCommand_quoteFree.
  - apply parseCommand_span_word.
Qed.

Lemma parseCommand_shared_quote_flag_witness :
  Main.pstep Main.pinit squote
  = {| Main.parts := []; Main.current := ""; Main.inQuotes := true |}
  /\ Main.pstep {| Main.parts := []; Main.current := "a"; Main.inQuotes := true |} space
     = {| Main.parts := []; Main.current := "a "; Main.inQuotes := true |}
  /\ Main.parseCommand ("echo " ++ dq ++ "a b' c")
     = Main.parseCommand ("echo 'a b" ++ dq ++ " c")
  /\ allBytes notQuote "a b" = true
  /\ Main.parseCommand ("--name=" ++ dq ++ "my app" ++ "'" ++ ".v2" ++ "  " ++ "up")
     = ["--name=my app.v2"; "up"].
Proof.
  destruct parseCommand_shared_quote_flag as (H1 & H2 & H3 & H4 & H5).
  split; [|split; [|split; [|split]]].
  - apply (H1 Main.pinit squote). right. reflexivity.
  - apply (H2 {| Main.parts := []; Main.current := "a"; Main.inQuotes := true |}).
    reflexivity.
  - apply H3. unfold sameUpToQuoteKind. vm_compute.
    repeat constructor.
  - apply (H4 ("echo " ++ dq ++ "a b' c")). vm_compute. right. left. reflexivity.
  - apply (H5 "--name=" dq "my app" "'" ".v2" "  " "up");
      try reflexivity; [left | right | discriminate]; reflexivity.
Defined.

(** ** The liveness probe *)

Local Open Scope list_scope.

Section LivenessFacts.
Context (os : OS).

Lemma isProcessRunning_eq pid w :
  Main.isProcessRunning os pid w
  = if os_FindProcess os w pid
    then (os_Signal os (w ++ [EFindProcess pid]) pid Signal0, w ++ probe pid)
    else (false, w ++ [EFindProcess pid]).
Proof.
  unfold Main.isProcessRunning, bind, FindProcess, SignalProcess, call, ret, probe.
  simpl. destruct (os_FindProcess os w pid); simpl; [|reflexivity].
  now rewrite <- app_assoc.
Qed.

Lemma IsProcessRunning_nonpos pid w :
  pid <= 0 -> Apps.IsProcessRunning os pid w = (false, w).
Proof.
  intros H. unfold Apps.IsProcessRunning.
  now replace (pid <=? 0) with true by (symmetry; apply Z.leb_le; exact H).
Qed.

Lemma IsProcessRunning_pos pid w :
  0 < pid -> Apps.IsProcessRunning os pid w = Main.isProcessRunning os pid w.
Proof.
  intros H. unfold Apps.IsProcessRunning.
  now replace (pid <=? 0) with false by (symmetry; apply Z.leb_gt; exact H).
Qed.

End LivenessFacts.

(** C5: [IsProcessRunning] of package apps answers false for every
    pid <= 0 without any call, and for pid > 0 answers true exactly when
    the process is found and signal 0 is delivered.  [isProcessRunning]
    of package main has no guard on the pid: for pid -5 it sends signal 0
    (to process group 5, where kill(2) is concerned) and answers true
    when that is delivered. *)
Theorem isProcessRunning_signals_nonpositive_pid :
  Main.isProcessRunning (simOS (fun p => p =? -5) never []) (-5) []
  = (true, probe (-5))
  /\ (forall os pid w, pid <= 0 -> Apps.IsProcessRunning os pid w = (false, w))
  /\ (forall os pid w, 0 < pid ->
        fst (Apps.IsProcessRunning os pid w)
        = os_FindProcess os w pid
          && os_Signal os (w ++ [EFindProcess pid]) pid Signal0).
Proof.
  split; [reflexivity|]. split.
  - apply IsProcessRunning_nonpos.
  - intros os pid w H. rewrite IsProcessRunning_pos, isProcessRunning_eq by exact H.
    now destruct (os_FindProcess os w pid).
Qed.

Lemma isProcessRunning_signals_nonpositive_pid_witness :
  Apps.IsProcessRunning (simOS (fun p => p =? -5) never []) (-5) [] = (false, [])
  /\ fst (Apps.IsProcessRunning (simOS (fun p => p =? 7) never []) 7 []) = true.
Proof.
  destruct isProcessRunning_signals_nonpositive_pid as (_ & H1 & H2).
  split.
  - apply H1. lia.
  - rewrite H2 by lia. reflexivity.
Defined.

(** ** Stop *)

(** Running monadic code in proofs: [run] exposes the sequence of calls,
    [step H] uses the known result [H] of the next call. *)
Ltac run := unfold bind, ret, when; cbv beta.
Ltac step H := rewrite H; cbn [fst snd negb]; cbv beta iota.
Ltac known b v := replace b with v; [cbv beta iota|symmetry].

Lemma Sleep_eq n w : Sleep n w = (tt, w ++ [ESleep n]).
Proof. reflexivity. Qed.

Section StopFacts.
Context (os : OS).

Lemma StopApp_result app w :
  fst (Apps.StopApp os app w) = (setPID app 0, None).
Proof.
  unfold Apps.StopApp. run.
  repeat match goal with
         | |- context [if ?c then _ else _] => destruct c; cbn [fst snd]
         end; reflexivity.
Qed.

Lemma StopApp_nonpos app w :
  PID app <= 0 -> Apps.StopApp os app w = ((setPID app 0, None), w).
Proof.
  intros H. unfold Apps.StopApp. run.
  known (PID app <=? 0) true; [reflexivity | now apply Z.leb_le].
Qed.

Lemma StopApp_dead app w w1 :
  0 < PID app ->
  Apps.IsProcessRunning os (PID app) w = (false, w1) ->
  Apps.StopApp os app w = ((setPID app 0, None), w1).
Proof.
  intros H Hdead. unfold Apps.StopApp. run.
  known (PID app <=? 0) false; [|now apply Z.leb_gt].
  step Hdead. reflexivity.
Qed.

Lemma StopApp_live app w w1 w2 w3 w4 (running : bool) :
  0 < PID app ->
  Apps.IsProcessRunning os (PID app) w = (true, w1) ->
  FindProcess os (PID app) w1 = (true, w2) ->
  SignalProcess os (PID app) SIGTERM w2 = (true, w3) ->
  Apps.IsProcessRunning os (PID app) (w3 ++ [ESleep 2]) = (running, w4) ->
  Apps.StopApp os app w
  = ((setPID app 0, None),
     if running then w4 ++ [ESignal (PID app) SIGKILL; ESleep 1] else w4).
Proof.
  intros H H1 H2 H3 H4. unfold Apps.StopApp. run.
  known (PID app <=? 0) false; [|now apply Z.leb_gt].
  step H1. step H2. step H3.
  rewrite !Sleep_eq. cbn [fst snd]. step H4.
  destruct running; [|reflexivity].
  unfold SignalProcess, call. cbn [fst snd].
  rewrite Sleep_eq. cbn [snd]. now rewrite <- app_assoc.
Qed.

Lemma StopApp_term_fails app w w1 w2 w3 :
  0 < PID app ->
  Apps.IsProcessRunning os (PID app) w = (true, w1) ->
  FindProcess os (PID app) w1 = (true, w2) ->
  SignalProcess os (PID app) SIGTERM w2 = (false, w3) ->
  Apps.StopApp os app w = ((setPID app 0, None), w3).
Proof.
  intros H H1 H2 H3. unfold Apps.StopApp. run.
  known (PID app <=? 0) false; [|now apply Z.leb_gt].
  step H1. step H2. step H3. reflexivity.
Qed.

Lemma findFrom_lookup apps name : forall k i app,
  findFrom k apps name = Some (i, app) ->
  exists j, i = (k + j)%nat /\ apps !! j = Some app /\ Name app = name.
Proof.
  induction apps as [|a rest IH]; intros k i app H; simpl in H; [discriminate|].
  destruct (String.eqb (Name a) name) eqn:E.
  - injection H as <- <-. exists 0%nat. apply String.eqb_eq in E.
    repeat split; [lia | exact E].
  - apply IH in H as (j & -> & Hj & Hn). exists (S j). repeat split; auto; lia.
Qed.

Lemma findByName_lookup apps name i app :
  findByName apps name = Some (i, app) ->
  apps !! i = Some app /\ Name app = name.
Proof.
  intros H. apply findFrom_lookup in H as (j & -> & Hj & Hn). now split.
Qed.

Lemma findFrom_None apps name : forall k,
  findFrom k apps name = None <-> Forall (fun a => Name a <> name) apps.
Proof.
  induction apps as [|a rest IH]; intros k; simpl.
  - split; [constructor | reflexivity].
  - destruct (String.eqb (Name a) name) eqn:E.
    + split; [discriminate|]. intros H. inversion H; subst.
      apply String.eqb_eq in E. contradiction.
    + rewrite IH. apply String.eqb_neq in E. split.
      * now constructor.
      * intros H. now inversion H.
Qed.

Lemma Handlers_StopApp_named name c w :
  name <> "" ->
  fst (Handlers.StopApp os "POST" name c w)
  = match Apps.GetApp c name with
    | None => (c, Handlers.JSONError NotFound)
    | Some (i, app) =>
      ({| Apps := <[i := setPID app 0]> (Apps c) |}, Handlers.JSONSuccess)
    end.
Proof.
  intros Hn. unfold Handlers.StopApp.
  change (String.eqb "POST" "POST") with true. cbn [negb].
  apply String.eqb_neq in Hn. rewrite Hn. cbn [negb].
  destruct (Apps.GetApp c name) as [[i app]|]; [|reflexivity].
  run. rewrite StopApp_result. reflexivity.
Qed.

Lemma stopIndividualApp_stopped appName w config w1 i targetApp :
  Main.loadAppsConfig os w = (inr config, w1) ->
  findByName (Apps config) appName = Some (i, targetApp) ->
  PID targetApp = 0 ->
  WebUI.stopIndividualApp os appName w = (Some NotRunning, w1).
Proof.
  intros Hl Hf Hp. unfold WebUI.stopIndividualApp. run.
  step Hl. rewrite Hf, Hp. reflexivity.
Qed.

Lemma stopIndividualApp_dead appName w config w1 w2 w3 i targetApp :
  Main.loadAppsConfig os w = (inr config, w1) ->
  findByName (Apps config) appName = Some (i, targetApp) ->
  PID targetApp <> 0 ->
  Main.isProcessRunning os (PID targetApp) w1 = (false, w2) ->
  WebUI.truncateLog os (LogFile targetApp)
    (fun now => "=== App '" ++ Name targetApp
                ++ "' stopped (process not found) at " ++ now
                ++ " ===" ++ nl)%string w2 = (tt, w3) ->
  WebUI.stopIndividualApp os appName w
  = (Some (if os_WriteFile os w3 Main.appsFile then NotRunning else WriteFailed),
     w3 ++ [EWriteFile Main.appsFile
              {| Apps := <[i := setPID targetApp 0]> (Apps config) |}]).
Proof.
  intros Hl Hf Hp Hr Ht. unfold WebUI.stopIndividualApp. run.
  step Hl. rewrite Hf.
  known (PID targetApp =? 0) false; [|now apply Z.eqb_neq].
  step Hr. step Ht.
  unfold Main.saveAppsConfig, WriteFile, call. run. cbn [fst snd].
  now destruct (os_WriteFile os w3 Main.appsFile).
Qed.

Lemma stopApps_one_live app w w1 w2 w3 (ok : bool) :
  PID app <> 0 ->
  Main.isProcessRunning os (PID app) w = (true, w1) ->
  FindProcess os (PID app) w1 = (true, w2) ->
  SignalProcess os (PID app) Interrupt w2 = (ok, w3) ->
  Cli.stopApps_one os app w = (if ok then setPID app 0 else app, w3).
Proof.
  intros Hp H1 H2 H3. unfold Cli.stopApps_one. run.
  known (PID app =? 0) false; [|now apply Z.eqb_neq].
  step H1. step H2. step H3. now destruct ok.
Qed.

End StopFacts.

Lemma signalsOf_app w w' : signalsOf (w ++ w') = signalsOf w ++ signalsOf w'.
Proof.
  induction w as [|e w IH]; [reflexivity|].
  destruct e; simpl; try exact IH.
  destruct sig; simpl; now rewrite IH.
Qed.

Lemma IsProcessRunning_signalsOf os pid w :
  signalsOf (snd (Apps.IsProcessRunning os pid w)) = signalsOf w.
Proof.
  destruct (Z_le_gt_dec pid 0) as [H|H].
  - now rewrite IsProcessRunning_nonpos.
  - rewrite IsProcessRunning_pos, isProcessRunning_eq by lia.
    destruct (os_FindProcess os w pid); cbn [snd]; rewrite signalsOf_app;
      simpl; apply app_nil_r.
Qed.

(** C1 counterexample: apps.json holds the record web with pid 0; the
    record exists, and [stopIndividualApp] returns the error
    [NotRunning], which is neither success nor [NotFound]. *)
Lemma stopIndividualApp_fails_on_stopped_record :
  ~ (forall os appName w config i app,
       fst (Main.loadAppsConfig os w) = inr config ->
       findByName (Apps config) appName = Some (i, app) ->
       fst (WebUI.stopIndividualApp os appName w) = None
       \/ fst (WebUI.stopIndividualApp os appName w) = Some NotFound).
Proof.
  intros H.
  destruct (H (sim42 never [web 0]) "web" [] {| Apps := [web 0] |}
              0%nat (web 0) eq_refl eq_refl) as [E|E];
    vm_compute in E; discriminate E.
Qed.

(** C1 (as amended): in package apps stop cannot fail.  [StopApp]
    returns nil for every record and leaves it with pid 0 and its other
    fields as they were; when pid <= 0 it makes no call at all, and when
    the probe reports not-running it sends no signal; the handler that
    stops a record by name answers with an error only for a missing name
    ([NotFound]).  The web copy differs by design: [stopIndividualApp]
    reports a record whose pid is 0 as the error [NotRunning] and leaves
    everything as it was, and reports a record whose probe says
    not-running as [NotRunning] as well, after it has reset the pid to 0
    and saved the records. *)
Theorem stop_cannot_fail_in_apps (os : OS) :
  (forall app w, fst (Apps.StopApp os app w) = (setPID app 0, None))
  /\ (forall app w,
        PID app <= 0 -> Apps.StopApp os app w = ((setPID app 0, None), w))
  /\ (forall app w w1,
        0 < PID app ->
        Apps.IsProcessRunning os (PID app) w = (false, w1) ->
        Apps.StopApp os app w = ((setPID app 0, None), w1)
        /\ signalsOf w1 = signalsOf w)
  /\ (forall name c w,
        name <> "" ->
        fst (Handlers.StopApp os "POST" name c w)
        = match Apps.GetApp c name with
          | None => (c, Handlers.JSONError NotFound)
          | Some (i, app) =>
            ({| Apps := <[i := setPID app 0]> (Apps c) |}, Handlers.JSONSuccess)
          end)
  /\ (forall appName w config w1 i targetApp,
        Main.loadAppsConfig os w = (inr config, w1) ->
        findByName (Apps config) appName = Some (i, targetApp) ->
        PID targetApp = 0 ->
        WebUI.stopIndividualApp os appName w = (Some NotRunning, w1))
  /\ (forall appName w config w1 w2 w3 i targetApp,
        Main.loadAppsConfig os w = (inr config, w1) ->
        findByName (Apps config) appName = Some (i, targetApp) ->
        PID targetApp <> 0 ->
        Main.isProcessRunning os (PID targetApp) w1 = (false, w2) ->
        WebUI.truncateLog os (LogFile targetApp)
          (fun now => "=== App '" ++ Name targetApp
                      ++ "' stopped (process not found) at " ++ now
                      ++ " ===" ++ nl)%string w2 = (tt, w3) ->
        WebUI.stopIndividualApp os appName w
        = (Some (if os_WriteFile os w3 Main.appsFile
                 then NotRunning else WriteFailed),
           w3 ++ [EWriteFile Main.appsFile
                    {| Apps := <[i := setPID targetApp 0]> (Apps config) |}])).
Proof.
  repeat split.
  - apply StopApp_result.
  - apply StopApp_nonpos.
  - now apply StopApp_dead.
  - rewrite <- (IsProcessRunning_signalsOf os (PID app) w). now rewrite H0.
  - apply Handlers_StopApp_named.
  - apply stopIndividualApp_stopped.
  - apply stopIndividualApp_dead.
Qed.

Lemma stop_cannot_fail_in_apps_witness :
  Apps.StopApp (sim42 never []) (web (-3)) [] = ((web 0, None), [])
  /\ (Apps.StopApp (sim42 never []) (web 7) [] = ((web 0, None), probe 7)
      /\ signalsOf (probe 7) = signalsOf [])
  /\ fst (Handlers.StopApp (sim42 never []) "POST" "api" {| Apps := [web 7] |} [])
     = ({| Apps := [web 7] |}, Handlers.JSONError NotFound)
  /\ WebUI.stopIndividualApp (sim42 never [web 0]) "web" []
     = (Some NotRunning, [EStat "apps.json"; EReadFile "apps.json"])
  /\ WebUI.stopIndividualApp (sim42 never [web 7]) "web" []
     = (Some NotRunning,
        [EStat "apps.json"; EReadFile "apps.json"] ++ probe 7
        ++ [EWriteFile "apps.json" {| Apps := [web 0] |}]).
Proof.
  destruct (stop_cannot_fail_in_apps (sim42 never []))
    as (_ & H2 & H3 & H4 & _).
  destruct (stop_cannot_fail_in_apps (sim42 never [web 0]))
    as (_ & _ & _ & _ & H5 & _).
  destruct (stop_cannot_fail_in_apps (sim42 never [web 7]))
    as (_ & _ & _ & _ & _ & H6).
  split; [|split; [|split; [|split]]].
  - apply (H2 (web (-3)) []). simpl. lia.
  - apply (H3 (web 7) [] (probe 7)); [simpl; lia | reflexivity].
  - apply (H4 "api" {| Apps := [web 7] |} []). discriminate.
  - apply (H5 "web" [] {| Apps := [web 0] |} _ 0%nat (web 0));
      reflexivity.
  - apply (H6 "web" [] {| Apps := [web 7] |}
              [EStat "apps.json"; EReadFile "apps.json"]
              ([EStat "apps.json"; EReadFile "apps.json"] ++ probe 7)
              ([EStat "apps.json"; EReadFile "apps.json"] ++ probe 7)
              0%nat (web 7)); try reflexivity.
    simpl. lia.
Defined.

(** C4 counterexample: process 42 ignores the interrupt and stays alive.
    [stopApps] of the command line copy sends it the one interrupt and
    nothing else (no wait, no second probe, no forceful signal), and the
    process is still there afterwards; and when the process is gone
    between the probe and the interrupt, so that the delivery fails, the
    pid of the record stays 42. *)
Lemma stopApps_one_no_escalation :
  signalsOf (snd (Cli.stopApps_one (sim42 never []) (web 42) []))
  = [(42, Interrupt)]
  /\ fst (Main.isProcessRunning (sim42 never []) 42
            (snd (Cli.stopApps_one (sim42 never []) (web 42) []))) = true
  /\ ~ In (ESignal 42 SIGKILL)
         (snd (Cli.stopApps_one (sim42 never []) (web 42) []))
  /\ PID (fst (Cli.stopApps_one (sim42 afterProbe []) (web 42) [])) = 42.
Proof.
  repeat split; try reflexivity.
  vm_compute. intros [H|[H|[H|[H|[]]]]]; discriminate H.
Qed.

(** C4 (as amended): in package apps, for a record whose process is
    found and takes the graceful signal, [StopApp] waits 2 seconds and
    probes again; when the process is still alive it sends the forceful
    signal and waits 1 second, otherwise it sends nothing more; in every
    case the record ends with pid 0.  [stopApps] of the command line copy
    does not escalate: it sends one interrupt, and resets the pid to 0
    exactly when the interrupt was delivered. *)
Theorem stop_escalates_in_apps (os : OS) (app : App) :
  (forall w w1 w2 w3 w4 running,
     0 < PID app ->
     Apps.IsProcessRunning os (PID app) w = (true, w1) ->
     FindProcess os (PID app) w1 = (true, w2) ->
     SignalProcess os (PID app) SIGTERM w2 = (true, w3) ->
     Apps.IsProcessRunning os (PID app) (w3 ++ [ESleep 2]) = (running, w4) ->
     Apps.StopApp os app w
     = ((setPID app 0, None),
        if running then w4 ++ [ESignal (PID app) SIGKILL; ESleep 1] else w4))
  /\ (forall w, PID (fst (fst (Apps.StopApp os app w))) = 0)
  /\ (forall w w1 w2 w3 ok,
        PID app <> 0 ->
        Main.isProcessRunning os (PID app) w = (true, w1) ->
        FindProcess os (PID app) w1 = (true, w2) ->
        SignalProcess os (PID app) Interrupt w2 = (ok, w3) ->
        Cli.stopApps_one os app w = (if ok then setPID app 0 else app, w3)).
Proof.
  split; [|split].
  - intros. now apply (StopApp_live os app w w1 w2 w3 w4).
  - intros w. now rewrite StopApp_result.
  - intros. now apply (stopApps_one_live os app w w1 w2 w3).
Qed.

Lemma stop_escalates_in_apps_witness :
  Apps.StopApp (sim42 onlyKill []) (web 42) []
  = ((web 0, None),
     probe 42 ++ [EFindProcess 42; ESignal 42 SIGTERM; ESleep 2]
     ++ probe 42 ++ [ESignal 42 SIGKILL; ESleep 1])
  /\ Cli.stopApps_one (sim42 never []) (web 42) []
     = (web 0, probe 42 ++ [EFindProcess 42; ESignal 42 Interrupt]).
Proof.
  destruct (stop_escalates_in_apps (sim42 onlyKill []) (web 42)) as (H1 & _ & _).
  destruct (stop_escalates_in_apps (sim42 never []) (web 42)) as (_ & _ & H3).
  split.
  - apply (H1 [] (probe 42) (probe 42 ++ [EFindProcess 42])
              (probe 42 ++ [EFindProcess 42; ESignal 42 SIGTERM])
              (probe 42 ++ [EFindProcess 42; ESignal 42 SIGTERM; ESleep 2]
               ++ probe 42) true); try reflexivity; simpl; lia.
  - apply (H3 [] (probe 42) (probe 42 ++ [EFindProcess 42])
              (probe 42 ++ [EFindProcess 42; ESignal 42 Interrupt]) true);
      try reflexivity; simpl; lia.
Defined.

(** ** Start *)

Lemma startsOf_app w w' : startsOf (w ++ w') = startsOf w ++ startsOf w'.
Proof.
  induction w as [|e w IH]; [reflexivity|].
  destruct e; simpl; try exact IH. now rewrite IH.
Qed.

Lemma writesOf_app w w' : writesOf (w ++ w') = writesOf w ++ writesOf w'.
Proof.
  induction w as [|e w IH]; [reflexivity|].
  destruct e; simpl; try exact IH. now rewrite IH.
Qed.

Ltac calls_in H :=
  unfold bind, ret, when, Stat, ReadFile, WriteFile, MkdirAll, Create,
    OpenAppend, WriteString, Close, Now, LookPath, Start, FindProcess,
    SignalProcess, Sleep, call in H;
  cbv beta in H; cbn [fst snd] in H.

Ltac branch H :=
  repeat (match type of H with
          | context [if negb ?c then _ else _] => destruct c eqn:?
          | context [if ?c then _ else _] => destruct c eqn:?
          | context [match ?c with _ => _ end] => destruct c eqn:?
          end; cbn [negb fst snd] in H; cbv beta iota in H);
  try discriminate H.

Ltac calls :=
  unfold bind, ret, when, Stat, ReadFile, WriteFile, MkdirAll, Create,
    OpenAppend, WriteString, Close, Now, LookPath, Start, FindProcess,
    SignalProcess, Sleep, call;
  cbv beta; cbn [fst snd].

Ltac branches :=
  repeat (match goal with
          | |- context [if negb ?c then _ else _] => destruct c eqn:?
          | |- context [if ?c then _ else _] => destruct c eqn:?
          | |- context [match ?c with _ => _ end] => destruct c eqn:?
          end; cbn [negb fst snd]; cbv beta iota).

Ltac started H :=
  injection H as <- <-; eexists; rewrite !startsOf_app; cbn [startsOf];
  rewrite !app_nil_r; repeat split; eauto.

Section StartFacts.
Context (os : OS).

Lemma Cli_startApp_success app w app' w' :
  Cli.startApp os app w = ((app', None), w') ->
  exists cmd,
    startsOf w' = startsOf w ++ [cmd]
    /\ Args cmd = Main.parseCommand (Command app)
    /\ Env cmd = Some (os_Environ os ++ [("PORT=" ++ itoa (Port app))%string])
    /\ exists pid,
         app' = setPID (setLogFile app
                  (filepath_Join os Main.logsDir (Name app ++ ".log")%string)) pid.
Proof.
  intros H. unfold Cli.startApp in H. calls_in H.
  branch H; started H.
Qed.

Lemma WebUI_startApp_success app w app' w' :
  WebUI.startApp os app w = ((app', None), w') ->
  exists cmd,
    startsOf w' = startsOf w ++ [cmd]
    /\ Args cmd = Main.parseCommand (Command app)
    /\ Env cmd = Some (os_Environ os ++ [("PORT=" ++ itoa (Port app))%string])
    /\ exists pid,
         app' = setPID (setLogFile app
                  (filepath_Join os Main.logsDir (Name app ++ ".log")%string)) pid.
Proof.
  intros H. unfold WebUI.startApp in H. calls_in H.
  branch H; started H.
Qed.

Lemma Apps_StartApp_success app w app' w' :
  Apps.StartApp os app w = ((app', None), w') ->
  exists cmd,
    startsOf w' = startsOf w ++ [cmd]
    /\ Args cmd = ["sh"; "-c"; Command app]
    /\ Env cmd = None
    /\ exists pid,
         app' = setPID (setLogFile app
                  (filepath_Join os Apps.LogsDir (Name app ++ ".log")%string)) pid.
Proof.
  intros H. unfold Apps.StartApp in H. calls_in H.
  destruct (PID app >? 0) eqn:Hp; cbv beta iota in H.
  - rewrite IsProcessRunning_pos, (isProcessRunning_eq os) in H
      by (now apply Z.gtb_lt).
    branch H; started H.
  - cbn [fst snd] in H. branch H; started H.
Qed.




Lemma StartApp_running app w w1 :
  PID app <> 0 ->
  Apps.IsProcessRunning os (PID app) w = (true, w1) ->
  Apps.StartApp os app w = ((app, Some AlreadyRunning), w1)
  /\ w1 = w ++ probe (PID app).
Proof.
  intros Hp H.
  assert (Hpos : 0 < PID app).
  { destruct (Z_le_gt_dec (PID app) 0) as [Hle|Hgt]; [|lia].
    rewrite IsProcessRunning_nonpos in H by exact Hle. discriminate H. }
  split.
  - unfold Apps.StartApp. run.
    known (PID app >? 0) true; [|now apply Z.gtb_lt].
    step H. reflexivity.
  - rewrite IsProcessRunning_pos, isProcessRunning_eq in H by exact Hpos.
    destruct (os_FindProcess os w (PID app)); now injection H.
Qed.

Lemma isProcessRunning_true pid w w1 :
  Main.isProcessRunning os pid w = (true, w1) -> w1 = w ++ probe pid.
Proof.
  rewrite isProcessRunning_eq.
  destruct (os_FindProcess os w pid); intros H; now injection H.
Qed.

Lemma Handlers_StartApp_running name c w i app w1 :
  name <> "" ->
  Apps.GetApp c name = Some (i, app) ->
  PID app <> 0 ->
  Apps.IsProcessRunning os (PID app) w = (true, w1) ->
  Handlers.StartApp os "POST" name c w
  = ((c, Handlers.JSONError AlreadyRunning), w1).
Proof.
  intros Hn Hg Hp H. unfold Handlers.StartApp.
  change (String.eqb "POST" "POST") with true. cbn [negb].
  apply String.eqb_neq in Hn. rewrite Hn. cbn [negb]. rewrite Hg.
  run. destruct (StartApp_running app w w1 Hp H) as [-> _]. cbn [fst snd].
  apply findByName_lookup in Hg as [Hi _].
  rewrite list_insert_id by exact Hi. now destruct c.
Qed.

Lemma startIndividualApp_running appName w config w1 w2 w3 i targetApp :
  Main.loadAppsConfig os w = (inr config, w1) ->
  Main.ensureLogsDir os w1 = (None, w2) ->
  findByName (Apps config) appName = Some (i, targetApp) ->
  PID targetApp <> 0 ->
  Main.isProcessRunning os (PID targetApp) w2 = (true, w3) ->
  WebUI.startIndividualApp os appName w = (Some AlreadyRunning, w3)
  /\ w3 = w2 ++ probe (PID targetApp).
Proof.
  intros Hl He Hf Hp H. split; [|now apply isProcessRunning_true].
  unfold WebUI.startIndividualApp. run.
  step Hl. step He. rewrite Hf.
  known (PID targetApp =? 0) false; [|now apply Z.eqb_neq].
  cbn [negb]. step H. reflexivity.
Qed.

Lemma startIndividualApp_no_logs_dir appName w config w1 w2 e :
  Main.loadAppsConfig os w = (inr config, w1) ->
  Main.ensureLogsDir os w1 = (Some e, w2) ->
  WebUI.startIndividualApp os appName w = (Some e, w2)
  /\ e = LogDirUnavailable
  /\ w2 = w1 ++ [EStat Main.logsDir; EMkdirAll Main.logsDir].
Proof.
  intros Hl He. split.
  - unfold WebUI.startIndividualApp. run. step Hl. step He. reflexivity.
  - revert He. unfold Main.ensureLogsDir. calls. unfold ret.
    destruct (os_Stat os w1 Main.logsDir); cbn [negb]; [discriminate|].
    destruct (os_MkdirAll os (w1 ++ [EStat Main.logsDir]) Main.logsDir);
      cbn [negb]; [discriminate|].
    intros [= <- <-]. split; [reflexivity|]. now rewrite <- app_assoc.
Qed.

End StartFacts.

Lemma sentFatal_never pid w : sentFatal never pid w = false.
Proof.
  unfold sentFatal. induction w as [|e w IH]; [reflexivity|].
  simpl. rewrite IH. destruct e; try reflexivity.
  unfold never. now rewrite andb_false_r.
Qed.

(** C6 counterexample: apps.json holds the record web with pid 42, the
    process 42 answers every probe, and the log directory is missing and
    cannot be made.  [startIndividualApp] of the web copy ensures the
    directory before it looks for the record: the start of web fails with
    [LogDirUnavailable], not with [AlreadyRunning]. *)
Lemma startIndividualApp_reports_log_directory_first :
  ~ (forall os appName w config w1 i targetApp,
       Main.loadAppsConfig os w = (inr config, w1) ->
       findByName (Apps config) appName = Some (i, targetApp) ->
       PID targetApp <> 0 ->
       (forall w', fst (Main.isProcessRunning os (PID targetApp) w') = true) ->
       fst (WebUI.startIndividualApp os appName w) = Some AlreadyRunning).
Proof.
  intros H.
  specialize (H (noLogsDir [web 42]) "web" [] {| Apps := [web 42] |}
                [EStat "apps.json"; EReadFile "apps.json"] 0%nat (web 42)
                eq_refl eq_refl).
  assert (Hp : PID (web 42) <> 0) by (simpl; lia).
  assert (Hr : forall w',
             fst (Main.isProcessRunning (noLogsDir [web 42]) (PID (web 42)) w')
             = true).
  { intros w'. unfold Main.isProcessRunning. calls. cbn. unfold ret. cbn.
    now rewrite sentFatal_never. }
  specialize (H Hp Hr). vm_compute in H. discriminate H.
Qed.

(** C6 (as amended): a record with pid != 0 whose probe reports running
    is refused by [StartApp] of package apps with [AlreadyRunning]: the
    record is returned unchanged after the two calls of the probe alone;
    the handler that starts a record by name answers with that error and
    leaves its configuration as it was.  In the web copy
    [startIndividualApp] loads the records and ensures the log directory
    before it looks at the record: when the directory cannot be made it
    returns [LogDirUnavailable] for every name, a running record
    included, after the two calls on the directory; once the directory is
    there it returns [AlreadyRunning] after the probe.  Neither way is
    anything started or saved. *)
Theorem start_rejects_running_record (os : OS) :
  (forall app w w1,
     PID app <> 0 ->
     Apps.IsProcessRunning os (PID app) w = (true, w1) ->
     Apps.StartApp os app w = ((app, Some AlreadyRunning), w1)
     /\ w1 = w ++ probe (PID app))
  /\ (forall name c w i app w1,
        name <> "" ->
        Apps.GetApp c name = Some (i, app) ->
        PID app <> 0 ->
        Apps.IsProcessRunning os (PID app) w = (true, w1) ->
        Handlers.StartApp os "POST" name c w
        = ((c, Handlers.JSONError AlreadyRunning), w1))
  /\ (forall appName w config w1 w2 w3 i targetApp,
        Main.loadAppsConfig os w = (inr config, w1) ->
        Main.ensureLogsDir os w1 = (None, w2) ->
        findByName (Apps config) appName = Some (i, targetApp) ->
        PID targetApp <> 0 ->
        Main.isProcessRunning os (PID targetApp) w2 = (true, w3) ->
        WebUI.startIndividualApp os appName w = (Some AlreadyRunning, w3)
        /\ w3 = w2 ++ probe (PID targetApp))
  /\ (forall appName w config w1 w2 e,
        Main.loadAppsConfig os w = (inr config, w1) ->
        Main.ensureLogsDir os w1 = (Some e, w2) ->
        WebUI.startIndividualApp os appName w = (Some e, w2)
        /\ e = LogDirUnavailable
        /\ w2 = w1 ++ [EStat Main.logsDir; EMkdirAll Main.logsDir]).
Proof.
  split; [|split; [|split]].
  - apply StartApp_running.
  - apply Handlers_StartApp_running.
  - apply startIndividualApp_running.
  - apply startIndividualApp_no_logs_dir.
Qed.

Lemma start_rejects_running_record_witness :
  (Apps.StartApp (sim42 never []) (web 42) []
   = ((web 42, Some AlreadyRunning), probe 42)
   /\ probe 42 = [] ++ probe 42)
  /\ Handlers.StartApp (sim42 never []) "POST" "web"
       {| Apps := [api 0; web 42] |} []
     = (({| Apps := [api 0; web 42] |}, Handlers.JSONError AlreadyRunning),
        probe 42)
  /\ (WebUI.startIndividualApp (sim42 never [api 0; web 42]) "web" []
      = (Some AlreadyRunning,
         [EStat "apps.json"; EReadFile "apps.json"; EStat "logs"] ++ probe 42)
      /\ [EStat "apps.json"; EReadFile "apps.json"; EStat "logs"] ++ probe 42
         = [EStat "apps.json"; EReadFile "apps.json"; EStat "logs"] ++ probe 42)
  /\ (WebUI.startIndividualApp (noLogsDir [api 0; web 42]) "web" []
      = (Some LogDirUnavailable,
         [EStat "apps.json"; EReadFile "apps.json"; EStat "logs";
          EMkdirAll "logs"])
      /\ LogDirUnavailable = LogDirUnavailable
      /\ [EStat "apps.json"; EReadFile "apps.json"; EStat "logs";
          EMkdirAll "logs"]
         = [EStat "apps.json"; EReadFile "apps.json"]
           ++ [EStat Main.logsDir; EMkdirAll Main.logsDir]).
Proof.
  destruct (start_rejects_running_record (sim42 never [])) as (H1 & H2 & _).
  destruct (start_rejects_running_record (sim42 never [api 0; web 42]))
    as (_ & _ & H3 & _).
  destruct (start_rejects_running_record (noLogsDir [api 0; web 42]))
    as (_ & _ & _ & H4).
  split; [|split; [|split]].
  - apply (H1 (web 42) [] (probe 42)); [simpl; lia | reflexivity].
  - apply (H2 "web" {| Apps := [api 0; web 42] |} [] 1%nat (web 42) (probe 42));
      try reflexivity; [discriminate | simpl; lia].
  - apply (H3 "web" [] {| Apps := [api 0; web 42] |}
              [EStat "apps.json"; EReadFile "apps.json"]
              [EStat "apps.json"; EReadFile "apps.json"; EStat "logs"]
              _ 1%nat (web 42)); try reflexivity.
    simpl. lia.
  - apply (H4 "web" [] {| Apps := [api 0; web 42] |}
              [EStat "apps.json"; EReadFile "apps.json"]); reflexivity.
Defined.




(** C3: at the record web (port 3000, command sleep 100) [StartApp] of
    package apps succeeds and the one child it starts runs with the
    environment of the supervisor as it is, without PORT=3000: [cmd.Env]
    is left nil on every successful start of that package.  The copies of
    [startApp] in package main give the child the environment of the
    supervisor with PORT=<port> appended. *)
Theorem StartApp_child_environment :
  (snd (fst (Apps.StartApp (sim42 never []) (web 0) [])) = None
   /\ map (childEnv (sim42 never []))
          (startsOf (snd (Apps.StartApp (sim42 never []) (web 0) [])))
      = [["PATH=/usr/bin"; "HOME=/root"]])
  /\ (forall os app w app' w',
        Apps.StartApp os app w = ((app', None), w') ->
        exists cmd, startsOf w' = startsOf w ++ [cmd]
                    /\ childEnv os cmd = os_Environ os)
  /\ (forall os app w app' w',
        Cli.startApp os app w = ((app', None), w') ->
        exists cmd, startsOf w' = startsOf w ++ [cmd]
                    /\ childEnv os cmd
                       = os_Environ os ++ [("PORT=" ++ itoa (Port app))%string])
  /\ (forall os app w app' w',
        WebUI.startApp os app w = ((app', None), w') ->
        exists cmd, startsOf w' = startsOf w ++ [cmd]
                    /\ childEnv os cmd
                       = os_Environ os ++ [("PORT=" ++ itoa (Port app))%string]).
Proof.
  split; [split; reflexivity|]. split; [|split].
  - intros os app w app' w' H.
    apply Apps_StartApp_success in H as (cmd & H1 & _ & H3 & _).
    exists cmd. split; [exact H1|]. unfold childEnv. now rewrite H3.
  - intros os app w app' w' H.
    apply Cli_startApp_success in H as (cmd & H1 & _ & H3 & _).
    exists cmd. split; [exact H1|]. unfold childEnv. now rewrite H3.
  - intros os app w app' w' H.
    apply WebUI_startApp_success in H as (cmd & H1 & _ & H3 & _).
    exists cmd. split; [exact H1|]. unfold childEnv. now rewrite H3.
Qed.

Lemma StartApp_child_environment_witness :
  (exists cmd,
     startsOf (snd (Apps.StartApp (sim42 never []) (web 0) [])) = [] ++ [cmd]
     /\ childEnv (sim42 never []) cmd = ["PATH=/usr/bin"; "HOME=/root"])
  /\ (exists cmd,
        startsOf (snd (Cli.startApp (sim42 never []) (web 0) [])) = [] ++ [cmd]
        /\ childEnv (sim42 never []) cmd
           = ["PATH=/usr/bin"; "HOME=/root"] ++ ["PORT=3000"])
  /\ (exists cmd,
        startsOf (snd (WebUI.startApp (sim42 never []) (web 0) [])) = [] ++ [cmd]
        /\ childEnv (sim42 never []) cmd
           = ["PATH=/usr/bin"; "HOME=/root"] ++ ["PORT=3000"]).
Proof.
  destruct StartApp_child_environment as (_ & H1 & H2 & H3).
  split; [|split].
  - apply (H1 (sim42 never []) (web 0) []
              (fst (fst (Apps.StartApp (sim42 never []) (web 0) [])))).
    reflexivity.
  - apply (H2 (sim42 never []) (web 0) []
              (fst (fst (Cli.startApp (sim42 never []) (web 0) [])))).
    reflexivity.
  - apply (H3 (sim42 never []) (web 0) []
              (fst (fst (WebUI.startApp (sim42 never []) (web 0) [])))).
    reflexivity.
Defined.

(** ** Add *)

Lemma AddApp_check_None existing app :
  Apps.AddApp_check existing app = None <-> Forall (apart app) existing.
Proof.
  unfold apart. induction existing as [|e rest IH]; simpl.
  - split; [constructor | reflexivity].
  - destruct (String.eqb (Name e) (Name app)) eqn:En.
    { apply String.eqb_eq in En. split; [discriminate|].
      intros H. inversion H; subst. tauto. }
    destruct (Port e =? Port app) eqn:Ep.
    { apply Z.eqb_eq in Ep. split; [discriminate|].
      intros H. inversion H; subst. tauto. }
    apply String.eqb_neq in En. apply Z.eqb_neq in Ep.
    rewrite IH. split.
    + intros H. constructor; [split|]; assumption.
    + intros H. now inversion H.
Qed.

(** The error is decided by the first record that shares the name or the
    port, and by its name before its port. *)
Lemma AddApp_check_Some existing app err :
  Apps.AddApp_check existing app = Some err ->
  exists pre e post,
    existing = pre ++ e :: post
    /\ Forall (apart app) pre
    /\ ((Name e = Name app /\ err = DuplicateName)
        \/ (Name e <> Name app /\ Port e = Port app /\ err = DuplicatePort)).
Proof.
  unfold apart. induction existing as [|e rest IH]; simpl; [discriminate|].
  destruct (String.eqb (Name e) (Name app)) eqn:En.
  { apply String.eqb_eq in En. intros [= <-].
    exists [], e, rest. repeat split; [constructor | now left]. }
  apply String.eqb_neq in En.
  destruct (Port e =? Port app) eqn:Ep.
  { apply Z.eqb_eq in Ep. intros [= <-].
    exists [], e, rest. repeat split; [constructor | right; tauto]. }
  apply Z.eqb_neq in Ep. intros H.
  destruct (IH H) as (pre & x & post & -> & Hpre & Hx).
  exists (e :: pre), x, post. repeat split; [|exact Hx].
  constructor; [split|]; assumption.
Qed.

Lemma AddApp_check_collision existing app :
  (exists e, In e existing /\ (Name e = Name app \/ Port e = Port app)) ->
  Apps.AddApp_check existing app = Some DuplicateName
  \/ Apps.AddApp_check existing app = Some DuplicatePort.
Proof.
  intros (e & Hin & He).
  destruct (Apps.AddApp_check existing app) as [err|] eqn:E.
  - apply AddApp_check_Some in E as (_ & _ & _ & _ & _ & [[_ ->] | (_ & _ & ->)]);
      auto.
  - apply AddApp_check_None in E. rewrite Forall_forall in E.
    apply list_elem_of_In, E in Hin. unfold apart in Hin. tauto.
Qed.

Lemma AddApp_check_name existing app :
  (exists e, In e existing /\ Name e = Name app) ->
  Forall (fun e => Port e <> Port app) existing ->
  Apps.AddApp_check existing app = Some DuplicateName.
Proof.
  intros (e & Hin & He) Hport.
  destruct (AddApp_check_collision existing app) as [H|H]; [eauto | exact H |].
  apply AddApp_check_Some in H as (pre & x & post & -> & _ & [[_ [=]] | (_ & Hx & _)]).
  apply Forall_app in Hport as [_ Hport]. inversion Hport; subst. contradiction.
Qed.

Lemma AddApp_check_port existing app :
  (exists e, In e existing /\ Port e = Port app) ->
  Forall (fun e => Name e <> Name app) existing ->
  Apps.AddApp_check existing app = Some DuplicatePort.
Proof.
  intros (e & Hin & He) Hname.
  destruct (AddApp_check_collision existing app) as [H|H]; [eauto | | exact H].
  apply AddApp_check_Some in H as (pre & x & post & -> & _ & [[Hx _] | (_ & _ & [=])]).
  apply Forall_app in Hname as [_ Hname]. inversion Hname; subst. contradiction.
Qed.

Lemma addApp_check_eq apps name port command :
  Cli.addApp_check apps name port
  = Apps.AddApp_check apps {| Name := name; Port := port; Command := command;
                              PID := 0; LogFile := "" |}.
Proof.
  induction apps as [|a rest IH]; simpl; [reflexivity|]. now rewrite IH.
Qed.

Section AddFacts.
Context (os : OS).

Lemma AddApp_rejected c app w err :
  Apps.AddApp_check (Apps c) app = Some err ->
  Apps.AddApp os c app w = ((c, Some err), w).
Proof. intros H. unfold Apps.AddApp. now rewrite H. Qed.

Lemma AddApp_accepted c app w :
  Apps.AddApp_check (Apps c) app = None ->
  Apps.AddApp os c app w
  = (({| Apps := Apps c ++ [app] |},
      if os_WriteFile os w Apps.AppsFile then None else Some WriteFailed),
     w ++ [EWriteFile Apps.AppsFile {| Apps := Apps c ++ [app] |}]).
Proof.
  intros H. unfold Apps.AddApp. rewrite H.
  unfold Apps.SaveConfig. calls.
  now destruct (os_WriteFile os w Apps.AppsFile).
Qed.

Lemma addApp_rejected name portArg command w port config w1 err :
  strconv_Atoi os portArg = Some port ->
  Main.loadAppsConfig os w = (inr config, w1) ->
  Cli.addApp_check (Apps config) name port = Some err ->
  Cli.addApp os name portArg command w = (Cli.Fatal err, w1).
Proof.
  intros Ha Hl Hc. unfold Cli.addApp. rewrite Ha. run. step Hl.
  now rewrite Hc.
Qed.

Lemma addApp_accepted name portArg command w port config w1 :
  strconv_Atoi os portArg = Some port ->
  Main.loadAppsConfig os w = (inr config, w1) ->
  Cli.addApp_check (Apps config) name port = None ->
  Cli.addApp os name portArg command w
  = (if os_WriteFile os w1 Main.appsFile
     then Cli.Returned else Cli.Fatal WriteFailed,
     w1 ++ [EWriteFile Main.appsFile
              {| Apps := Apps config
                         ++ [{| Name := name; Port := port; Command := command;
                                PID := 0; LogFile := "" |}] |}]).
Proof.
  intros Ha Hl Hc. unfold Cli.addApp. rewrite Ha. run. step Hl.
  rewrite Hc. unfold Main.saveAppsConfig. calls.
  now destruct (os_WriteFile os w1 Main.appsFile).
Qed.

Lemma AddApp_duplicate_iff c app w :
  (exists e, In e (Apps c) /\ (Name e = Name app \/ Port e = Port app))
  <-> (snd (fst (Apps.AddApp os c app w)) = Some DuplicateName
       \/ snd (fst (Apps.AddApp os c app w)) = Some DuplicatePort).
Proof.
  split.
  - intros H. apply AddApp_check_collision in H as [H|H];
      rewrite (AddApp_rejected c app w _ H); auto.
  - destruct (Apps.AddApp_check (Apps c) app) as [err|] eqn:E.
    + intros _.
      apply AddApp_check_Some in E as (pre & e & post & -> & _ & He).
      exists e. split; [apply in_or_app; right; now left|].
      destruct He as [[He _] | (_ & He & _)]; auto.
    + rewrite (AddApp_accepted c app w E). cbn [fst snd].
      destruct (os_WriteFile os w Apps.AppsFile); intros [H|H]; discriminate H.
Qed.

End AddFacts.

(** C7 counterexample: the records are web (port 3000) and api (port
    4000); the new record has the name api and the port 3000.  An
    existing record has its name, and add fails with [DuplicatePort]:
    the first record, web, shares the port and is looked at first. *)
Lemma AddApp_reports_port_before_name :
  ~ (forall os c app w,
       (exists e, In e (Apps c) /\ Name e = Name app) ->
       snd (fst (Apps.AddApp os c app w)) = Some DuplicateName).
Proof.
  intros H.
  specialize (H (sim42 never []) {| Apps := [web 0; api 0] |} clash []).
  assert (E : exists e, In e [web 0; api 0] /\ Name e = Name clash).
  { exists (api 0). split; [right; left|]; reflexivity. }
  apply H in E. vm_compute in E. discriminate E.
Qed.

(** C7 (as amended): add fails with [DuplicateName] or [DuplicatePort]
    exactly when some existing record shares the name or the port of the
    new one; the error is that of the first such record in the order of
    the records, [DuplicateName] when it shares the name and
    [DuplicatePort] when it shares the port alone (so [DuplicateName]
    when a record has the name and none has the port, and
    [DuplicatePort] when a record has the port and none has the name); in
    these failures nothing is written and the records are as before.
    Otherwise the new record is appended and the records are written:
    the result is nil, or [WriteFailed] when the write fails, the new
    record being then appended in memory all the same ([AddApp]) or the
    command exiting with that error ([addApp]). *)
Theorem add_rejects_first_collision (os : OS) (c : Config) (app : App) (w : Trace) :
  (forall err,
     Apps.AddApp_check (Apps c) app = Some err ->
     Apps.AddApp os c app w = ((c, Some err), w)
     /\ exists pre e post,
          Apps c = pre ++ e :: post
          /\ Forall (apart app) pre
          /\ ((Name e = Name app /\ err = DuplicateName)
              \/ (Name e <> Name app /\ Port e = Port app
                  /\ err = DuplicatePort)))
  /\ ((exists e, In e (Apps c) /\ (Name e = Name app \/ Port e = Port app))
      <-> (snd (fst (Apps.AddApp os c app w)) = Some DuplicateName
           \/ snd (fst (Apps.AddApp os c app w)) = Some DuplicatePort))
  /\ ((exists e, In e (Apps c) /\ Name e = Name app) ->
      Forall (fun e => Port e <> Port app) (Apps c) ->
      Apps.AddApp_check (Apps c) app = Some DuplicateName)
  /\ ((exists e, In e (Apps c) /\ Port e = Port app) ->
      Forall (fun e => Name e <> Name app) (Apps c) ->
      Apps.AddApp_check (Apps c) app = Some DuplicatePort)
  /\ (Forall (apart app) (Apps c) ->
      Apps.AddApp os c app w
      = (({| Apps := Apps c ++ [app] |},
          if os_WriteFile os w Apps.AppsFile then None else Some WriteFailed),
         w ++ [EWriteFile Apps.AppsFile {| Apps := Apps c ++ [app] |}]))
  /\ (forall portArg w1 err,
        strconv_Atoi os portArg = Some (Port app) ->
        Main.loadAppsConfig os w = (inr c, w1) ->
        Apps.AddApp_check (Apps c)
          {| Name := Name app; Port := Port app; Command := Command app;
             PID := 0; LogFile := "" |} = Some err ->
        Cli.addApp os (Name app) portArg (Command app) w = (Cli.Fatal err, w1))
  /\ (forall portArg w1,
        strconv_Atoi os portArg = Some (Port app) ->
        Main.loadAppsConfig os w = (inr c, w1) ->
        Forall (apart app) (Apps c) ->
        Cli.addApp os (Name app) portArg (Command app) w
        = (if os_WriteFile os w1 Main.appsFile
           then Cli.Returned else Cli.Fatal WriteFailed,
           w1 ++ [EWriteFile Main.appsFile
                    {| Apps := Apps c
                               ++ [{| Name := Name app; Port := Port app;
                                      Command := Command app;
                                      PID := 0; LogFile := "" |}] |}])).
Proof.
  split; [|split; [|split; [|split; [|split; [|split]]]]].
  - intros err H. split; [now apply AddApp_rejected|].
    now apply AddApp_check_Some.
  - apply AddApp_duplicate_iff.
  - apply AddApp_check_name.
  - apply AddApp_check_port.
  - intros H. apply AddApp_accepted. now apply AddApp_check_None.
  - intros portArg w1 err Ha Hl Hc.
    apply (addApp_rejected os _ _ _ _ (Port app) c); auto.
    now rewrite (addApp_check_eq _ _ _ (Command app)).
  - intros portArg w1 Ha Hl Hc.
    apply (addApp_accepted os _ _ _ _ (Port app) c); auto.
    rewrite (addApp_check_eq _ _ _ (Command app)).
    apply AddApp_check_None. exact Hc.
Qed.

Lemma add_rejects_first_collision_witness :
  Apps.AddApp (sim42 never []) {| Apps := [web 0; api 0] |} clash []
  = (({| Apps := [web 0; api 0] |}, Some DuplicatePort), [])
  /\ (snd (fst (Apps.AddApp (sim42 never []) {| Apps := [web 0; api 0] |}
                  clash []))
      = Some DuplicateName
      \/ snd (fst (Apps.AddApp (sim42 never []) {| Apps := [web 0; api 0] |}
                     clash []))
         = Some DuplicatePort)
  /\ Apps.AddApp (sim42 never []) {| Apps := [web 0] |} (api 0) []
     = (({| Apps := [web 0; api 0] |}, None),
        [EWriteFile "apps.json" {| Apps := [web 0; api 0] |}])
  /\ Cli.addApp (sim42 never [web 0; api 0]) "api" "3000" "sleep 300" []
     = (Cli.Fatal DuplicatePort, [EStat "apps.json"; EReadFile "apps.json"]).
Proof.
  destruct (add_rejects_first_collision (sim42 never [])
              {| Apps := [web 0; api 0] |} clash []) as (H1 & H2 & _).
  destruct (add_rejects_first_collision (sim42 never [])
              {| Apps := [web 0] |} (api 0) []) as (_ & _ & _ & _ & H5 & _).
  destruct (add_rejects_first_collision (sim42 never [web 0; api 0])
              {| Apps := [web 0; api 0] |} clash [])
    as (_ & _ & _ & _ & _ & H6 & _).
  split; [|split; [|split]].
  - apply (H1 DuplicatePort). reflexivity.
  - apply H2. exists (api 0). split; [right; left; reflexivity|].
    left. reflexivity.
  - apply H5. repeat constructor; simpl; discriminate.
  - apply (H6 "3000" [EStat "apps.json"; EReadFile "apps.json"] DuplicatePort);
      reflexivity.
Defined.

(** ** Status reconciliation *)

Section ReconcileFacts.
Context (os : OS).

Lemma UpdateAppStatus_one_eq app w :
  fst (Apps.UpdateAppStatus_one os app w)
  = if (0 <? PID app) && negb (fst (Apps.IsProcessRunning os (PID app) w))
    then setPID app 0 else app.
Proof.
  unfold Apps.UpdateAppStatus_one. run. rewrite Z.gtb_ltb.
  destruct (0 <? PID app); cbn [fst snd andb]; [|reflexivity].
  now destruct (fst (Apps.IsProcessRunning os (PID app) w)).
Qed.

Lemma handleApps_one_eq app w :
  fst (WebUI.handleApps_one os app w)
  = if negb (PID app =? 0) && negb (fst (Main.isProcessRunning os (PID app) w))
    then setPID app 0 else app.
Proof.
  unfold WebUI.handleApps_one. run.
  destruct (PID app =? 0); cbn [fst snd andb negb]; [reflexivity|].
  now destruct (fst (Main.isProcessRunning os (PID app) w)).
Qed.

Lemma UpdateAppStatus_loop_cons app rest w :
  Apps.UpdateAppStatus_loop os (app :: rest) w
  = (fst (Apps.UpdateAppStatus_one os app w)
     :: fst (Apps.UpdateAppStatus_loop os rest
               (snd (Apps.UpdateAppStatus_one os app w))),
     snd (Apps.UpdateAppStatus_loop os rest
            (snd (Apps.UpdateAppStatus_one os app w)))).
Proof. reflexivity. Qed.

Lemma handleApps_loop_cons app rest w :
  WebUI.handleApps_loop os (app :: rest) w
  = (fst (WebUI.handleApps_one os app w)
     :: fst (WebUI.handleApps_loop os rest
               (snd (WebUI.handleApps_one os app w))),
     snd (WebUI.handleApps_loop os rest
            (snd (WebUI.handleApps_one os app w)))).
Proof. reflexivity. Qed.

Lemma UpdateAppStatus_loop_length apps : forall w,
  length (fst (Apps.UpdateAppStatus_loop os apps w)) = length apps.
Proof.
  induction apps as [|a rest IH]; intros w; [reflexivity|].
  rewrite UpdateAppStatus_loop_cons. cbn [fst length]. now rewrite IH.
Qed.

Lemma handleApps_loop_length apps : forall w,
  length (fst (WebUI.handleApps_loop os apps w)) = length apps.
Proof.
  induction apps as [|a rest IH]; intros w; [reflexivity|].
  rewrite handleApps_loop_cons. cbn [fst length]. now rewrite IH.
Qed.

(** Record [i] is looked at in the world left by the records before it. *)
Lemma UpdateAppStatus_loop_lookup apps : forall w i app,
  apps !! i = Some app ->
  fst (Apps.UpdateAppStatus_loop os apps w) !! i
  = Some (fst (Apps.UpdateAppStatus_one os app
                 (snd (Apps.UpdateAppStatus_loop os (take i apps) w)))).
Proof.
  induction apps as [|a rest IH]; intros w i app H; [discriminate|].
  rewrite UpdateAppStatus_loop_cons. cbn [fst].
  destruct i as [|i]; simpl in H.
  - injection H as ->. reflexivity.
  - cbn [take]. rewrite UpdateAppStatus_loop_cons. cbn [snd]. simpl.
    now apply IH.
Qed.

Lemma handleApps_loop_lookup apps : forall w i app,
  apps !! i = Some app ->
  fst (WebUI.handleApps_loop os apps w) !! i
  = Some (fst (WebUI.handleApps_one os app
                 (snd (WebUI.handleApps_loop os (take i apps) w)))).
Proof.
  induction apps as [|a rest IH]; intros w i app H; [discriminate|].
  rewrite handleApps_loop_cons. cbn [fst].
  destruct i as [|i]; simpl in H.
  - injection H as ->. reflexivity.
  - cbn [take]. rewrite handleApps_loop_cons. cbn [snd]. simpl.
    now apply IH.
Qed.

Lemma handleApps_GET body w config w1 :
  Main.loadAppsConfig os w = (inr config, w1) ->
  WebUI.handleApps os "GET" body w
  = (WebUI.JSONApps (fst (WebUI.handleApps_loop os (Apps config) w1)),
     snd (WebUI.handleApps_loop os (Apps config) w1)
     ++ [EWriteFile Main.appsFile
           {| Apps := fst (WebUI.handleApps_loop os (Apps config) w1) |}]).
Proof.
  intros Hl. unfold WebUI.handleApps.
  change (String.eqb "GET" "GET") with true. cbv iota. run. step Hl.
  unfold Main.saveAppsConfig. calls.
  now destruct (os_WriteFile os _ Main.appsFile).
Qed.

End ReconcileFacts.

(** C8 counterexample: the one record has pid -1; its pid is not 0 and
    its probe reports not-running, and [UpdateAppStatus] leaves the pid
    at -1. *)
Lemma UpdateAppStatus_keeps_negative_pid :
  ~ (forall os c w i app,
       Apps c !! i = Some app ->
       PID app <> 0 ->
       fst (Apps.IsProcessRunning os (PID app)
              (snd (Apps.UpdateAppStatus os {| Apps := take i (Apps c) |} w)))
       = false ->
       exists app', Apps (fst (Apps.UpdateAppStatus os c w)) !! i = Some app'
                    /\ PID app' = 0).
Proof.
  intros H.
  destruct (H (sim42 never []) {| Apps := [web (-1)] |} [] 0%nat (web (-1)))
    as (app' & H1 & H2); try reflexivity.
  - simpl. lia.
  - vm_compute in H1. injection H1 as <-. simpl in H2. lia.
Qed.

(** C8 (as amended): reconciliation keeps the number and the order of
    the records and changes nothing but pids.  [UpdateAppStatus] of
    package apps clears the pid of exactly the records whose pid is
    greater than 0 and whose probe, made when the loop reaches the
    record, reports not-running; a record whose pid is 0 or negative, or
    whose probe reports running, is left as it is.  The status loop of
    [handleApps] in the web copy clears exactly the records whose pid is
    not 0 and whose probe reports not-running, and the records it answers
    with are the ones it writes. *)
Theorem reconcile_clears_stale_pids (os : OS) (c : Config) (w : Trace) :
  length (Apps (fst (Apps.UpdateAppStatus os c w))) = length (Apps c)
  /\ (forall i app,
        Apps c !! i = Some app ->
        Apps (fst (Apps.UpdateAppStatus os c w)) !! i
        = Some (if (0 <? PID app)
                   && negb (fst (Apps.IsProcessRunning os (PID app)
                                   (snd (Apps.UpdateAppStatus os
                                           {| Apps := take i (Apps c) |} w))))
                then setPID app 0 else app))
  /\ length (fst (WebUI.handleApps_loop os (Apps c) w)) = length (Apps c)
  /\ (forall i app,
        Apps c !! i = Some app ->
        fst (WebUI.handleApps_loop os (Apps c) w) !! i
        = Some (if negb (PID app =? 0)
                   && negb (fst (Main.isProcessRunning os (PID app)
                                   (snd (WebUI.handleApps_loop os
                                           (take i (Apps c)) w))))
                then setPID app 0 else app))
  /\ (forall body w0,
        Main.loadAppsConfig os w0 = (inr c, w) ->
        WebUI.handleApps os "GET" body w0
        = (WebUI.JSONApps (fst (WebUI.handleApps_loop os (Apps c) w)),
           snd (WebUI.handleApps_loop os (Apps c) w)
           ++ [EWriteFile Main.appsFile
                 {| Apps := fst (WebUI.handleApps_loop os (Apps c) w) |}])).
Proof.
  split; [|split; [|split; [|split]]].
  - apply UpdateAppStatus_loop_length.
  - intros i app H. unfold Apps.UpdateAppStatus, bind, ret. cbn [fst snd Apps].
    rewrite (UpdateAppStatus_loop_lookup os _ _ _ _ H).
    now rewrite UpdateAppStatus_one_eq.
  - apply handleApps_loop_length.
  - intros i app H.
    rewrite (handleApps_loop_lookup os _ _ _ _ H).
    now rewrite handleApps_one_eq.
  - intros body w0. apply handleApps_GET.
Qed.

Lemma reconcile_clears_stale_pids_witness :
  Apps (fst (Apps.UpdateAppStatus (sim42 never [])
               {| Apps := [api 7; web 42; web (-1)] |} [])) !! 0%nat
  = Some (api 0)
  /\ Apps (fst (Apps.UpdateAppStatus (sim42 never [])
                  {| Apps := [api 7; web 42; web (-1)] |} [])) !! 2%nat
     = Some (web (-1))
  /\ fst (WebUI.handleApps_loop (sim42 never []) [api 7; web 42; web (-1)] [])
     !! 2%nat = Some (web 0)
  /\ fst (WebUI.handleApps (sim42 never [api 7; web 42]) "GET" None [])
     = WebUI.JSONApps [api 0; web 42].
Proof.
  destruct (reconcile_clears_stale_pids (sim42 never [])
              {| Apps := [api 7; web 42; web (-1)] |} [])
    as (_ & H2 & _ & H4 & _).
  destruct (reconcile_clears_stale_pids (sim42 never [api 7; web 42])
              {| Apps := [api 7; web 42] |}
              [EStat "apps.json"; EReadFile "apps.json"])
    as (_ & _ & _ & _ & H5).
  split; [|split; [|split]].
  - apply (H2 0%nat (api 7)). reflexivity.
  - apply (H2 2%nat (web (-1))). reflexivity.
  - apply (H4 2%nat (web (-1))). reflexivity.
  - rewrite (H5 None []); reflexivity.
Defined.

(** * Further properties of the code *)

(** ** The command parser on bare and quoted text *)


(** X1: bare tokens (not empty, of ASCII bytes other than the space and
    the quotes) joined by single spaces parse back to the same tokens. *)
Theorem parseCommand_join_tokens (toks : list string) :
  Forall (fun t => plainToken t = true) toks ->
  Main.parseCommand (String.concat " " toks) = toks.
Proof.
  intros H. unfold Main.parseCommand.
  rewrite rangeString_asciiByte by now apply concat_ascii.
  now rewrite fold_pstep_join.
Qed.

Lemma parseCommand_join_tokens_witness :
  Main.parseCommand "node server.js --port=3000"
  = ["node"; "server.js"; "--port=3000"].
Proof.
  apply (parseCommand_join_tokens ["node"; "server.js"; "--port=3000"]).
  repeat constructor.
Defined.

(** X2: quotes only delimit.  Bare text [a], a span [s] between two quote
    characters of any kinds, and bare text [b], written without a space
    between them, parse to the single token [a ++ s ++ b], spaces of [s]
    included; and a span that is never closed runs to the end of the
    command. *)
Theorem parseCommand_quoted_span (a q s q' b : string) :
  isQuoteString q -> isQuoteString q' ->
  allBytes plainByte a = true ->
  allBytes quotableByte s = true ->
  allBytes plainByte b = true ->
  (a ++ s ++ b)%string <> "" ->
  Main.parseCommand (a ++ q ++ s ++ q' ++ b) = [(a ++ s ++ b)%string]
  /\ ((a ++ s)%string <> "" -> Main.parseCommand (a ++ q ++ s) = [(a ++ s)%string]).
Proof.
  intros Hq Hq' Ha Hs Hb Hne.
  pose proof (allBytes_impl _ _ _ plainByte_ascii Ha) as Ha'.
  pose proof (allBytes_impl _ _ _ quotableByte_ascii Hs) as Hs'.
  pose proof (allBytes_impl _ _ _ plainByte_ascii Hb) as Hb'.
  pose proof (quote_ascii q Hq) as Hqa.
  pose proof (quote_ascii q' Hq') as Hqa'.
  split.
  - unfold Main.parseCommand.
    rewrite rangeString_asciiByte
      by (rewrite !allBytes_app, Ha', Hs', Hb', Hqa, Hqa'; reflexivity).
    rewrite !bytesOf_app, !fold_left_app.
    rewrite (fold_pstep_plain a) by exact Ha.
    rewrite (fold_pstep_quote q) by exact Hq. cbn [Main.parts Main.current Main.inQuotes negb].
    rewrite (fold_pstep_quoted s); [|exact Hs|reflexivity].
    rewrite (fold_pstep_quote q') by exact Hq'. cbn [Main.parts Main.current Main.inQuotes negb].
    rewrite (fold_pstep_plain b) by exact Hb.
    unfold Main.pflush, Main.pinit. cbn [Main.parts Main.current Main.inQuotes].
    change ("" ++ a)%string with a. rewrite !string_app_assoc.
    apply String.eqb_neq in Hne. rewrite Hne. reflexivity.
  - intros Hne'. unfold Main.parseCommand.
    rewrite rangeString_asciiByte
      by (rewrite !allBytes_app, Ha', Hs', Hqa; reflexivity).
    rewrite !bytesOf_app, !fold_left_app.
    rewrite (fold_pstep_plain a) by exact Ha.
    rewrite (fold_pstep_quote q) by exact Hq. cbn [Main.parts Main.current Main.inQuotes negb].
    rewrite (fold_pstep_quoted s); [|exact Hs|reflexivity].
    unfold Main.pflush, Main.pinit. cbn [Main.parts Main.current Main.inQuotes].
    change ("" ++ a)%string with a.
    apply String.eqb_neq in Hne'. rewrite Hne'. reflexivity.
Qed.

Lemma parseCommand_quoted_span_witness :
  Main.parseCommand ("--name=" ++ dq ++ "my app" ++ "'" ++ ".v2")
  = ["--name=my app.v2"]
  /\ ("--name=my app" <> "" ->
      Main.parseCommand ("--name=" ++ dq ++ "my app") = ["--name=my app"]).
Proof.
  apply (parseCommand_quoted_span "--name=" dq "my app" "'" ".v2");
    try reflexivity; [left | right | discriminate]; reflexivity.
Defined.

(** ** Truncating a string for display *)

Lemma substring0_length s : forall k,
  (k <= String.length s)%nat -> String.length (substring 0 k s) = k.
Proof.
  induction s as [|c s IH]; intros k H; destruct k as [|k]; simpl in *;
    try reflexivity; try lia.
  rewrite IH; lia.
Qed.

Lemma substring0_prefix s : forall k, String.prefix (substring 0 k s) s = true.
Proof.
  induction s as [|c s IH]; intros k; destruct k as [|k]; simpl;
    try reflexivity.
  destruct (ascii_dec c c) as [_|Hn]; [apply IH | now destruct Hn].
Qed.

(** X3: [truncateString] returns either the string itself, when it is
    no longer than [maxLen] bytes, or the first [maxLen-3] bytes of it
    followed by three dots, [maxLen] bytes in all: a result is never
    longer than [maxLen].  There is no result (the slice panics) exactly
    when the string is longer than [maxLen] and [maxLen] is below 3. *)
Theorem truncateString_fits (s : string) (maxLen : Z) :
  (Commands.truncateString s maxLen = None
   <-> maxLen < Z.of_nat (String.length s) /\ maxLen < 3)
  /\ (forall t,
        Commands.truncateString s maxLen = Some t ->
        Z.of_nat (String.length t) <= maxLen
        /\ (t = s
            \/ (Z.of_nat (String.length t) = maxLen
                /\ exists pre, t = (pre ++ "...")%string
                               /\ String.prefix pre s = true))).
Proof.
  unfold Commands.truncateString.
  destruct (Z.leb_spec (Z.of_nat (String.length s)) maxLen) as [Hle|Hgt].
  { split; [split; [discriminate | lia]|].
    intros t [= <-]. split; [exact Hle | now left]. }
  destruct (Z.ltb_spec (maxLen - 3) 0) as [Hneg|Hpos].
  { split; [split; [lia | reflexivity]|]. discriminate. }
  split; [split; [discriminate | lia]|].
  intros t [= <-].
  assert (Hlen : Z.of_nat (String.length
                   (substring 0 (Z.to_nat (maxLen - 3)) s ++ "...")) = maxLen).
  { rewrite string_length_app, substring0_length by lia. simpl. lia. }
  split; [lia|]. right. split; [exact Hlen|].
  eexists. split; [reflexivity | apply substring0_prefix].
Qed.

Lemma truncateString_fits_witness :
  Z.of_nat (String.length "node server.js --por...") <= 23
  /\ ("node server.js --por..." = "node server.js --port=3000 --verbose"
      \/ (Z.of_nat (String.length "node server.js --por...") = 23
          /\ exists pre, "node server.js --por..." = (pre ++ "...")%string
                         /\ String.prefix pre "node server.js --port=3000 --verbose"
                            = true)).
Proof.
  apply (proj2 (truncateString_fits "node server.js --port=3000 --verbose" 23)).
  reflexivity.
Defined.

(** X4: truncating twice is truncating once. *)
Theorem truncateString_idempotent (s t : string) (maxLen : Z) :
  Commands.truncateString s maxLen = Some t ->
  Commands.truncateString t maxLen = Some t.
Proof.
  intros H. apply (proj2 (truncateString_fits s maxLen)) in H as [H _].
  unfold Commands.truncateString.
  now replace (Z.of_nat (String.length t) <=? maxLen) with true
    by (symmetry; now apply Z.leb_le).
Qed.

Lemma truncateString_idempotent_witness :
  Commands.truncateString "node server.js --por..." 23
  = Some "node server.js --por...".
Proof.
  apply (truncateString_idempotent "node server.js --port=3000 --verbose").
  reflexivity.
Defined.

(** ** The record set: lookup, add, delete *)

Lemma findFrom_spec apps name : forall k i app,
  findFrom k apps name = Some (i, app)
  <-> exists j, i = (k + j)%nat /\ apps !! j = Some app /\ Name app = name
                /\ forall j' a, (j' < j)%nat -> apps !! j' = Some a -> Name a <> name.
Proof.
  induction apps as [|x rest IH]; intros k i app; simpl.
  - split; [discriminate|]. intros (j & _ & H & _). discriminate.
  - destruct (String.eqb (Name x) name) eqn:E.
    + apply String.eqb_eq in E. split.
      * intros [= <- <-]. exists 0%nat. repeat split; [lia | exact E |].
        intros j' a Hj. lia.
      * intros (j & -> & Hj & Hn & Hfirst). destruct j as [|j].
        -- simpl in Hj. injection Hj as <-. f_equal. f_equal. lia.
        -- exfalso. apply (Hfirst 0%nat x); [lia | reflexivity | exact E].
    + apply String.eqb_neq in E. rewrite IH. split.
      * intros (j & -> & Hj & Hn & Hfirst). exists (S j).
        repeat split; [lia | exact Hj | exact Hn |].
        intros [|j'] a Hlt Ha; simpl in Ha.
        -- now injection Ha as <-.
        -- apply (Hfirst j' a); [lia | exact Ha].
      * intros (j & -> & Hj & Hn & Hfirst). destruct j as [|j].
        -- simpl in Hj. injection Hj as <-. contradiction.
        -- exists j. repeat split; [lia | exact Hj | exact Hn |].
           intros j' a Hlt Ha. apply (Hfirst (S j') a); [lia | exact Ha].
Qed.

(** X5: [GetApp] returns the first record of the given name, with its
    index, and returns nil exactly when no record has that name. *)
Theorem GetApp_first_match (c : Config) (name : string) :
  (forall i app,
     Apps.GetApp c name = Some (i, app)
     <-> Apps c !! i = Some app /\ Name app = name
         /\ forall j a, (j < i)%nat -> Apps c !! j = Some a -> Name a <> name)
  /\ (Apps.GetApp c name = None <-> Forall (fun a => Name a <> name) (Apps c)).
Proof.
  unfold Apps.GetApp, findByName. split.
  - intros i app. rewrite findFrom_spec. split.
    + intros (j & -> & H). exact H.
    + intros H. exists i. split; [reflexivity | exact H].
  - apply findFrom_None.
Qed.

Lemma GetApp_first_match_witness :
  {| Apps := [web 0; api 1; api 2] |}.(Apps) !! 1%nat = Some (api 1)
  /\ Name (api 1) = "api"
  /\ forall j a, (j < 1)%nat ->
       {| Apps := [web 0; api 1; api 2] |}.(Apps) !! j = Some a ->
       Name a <> "api".
Proof.
  apply (proj1 (GetApp_first_match {| Apps := [web 0; api 1; api 2] |} "api")).
  reflexivity.
Defined.

Lemma findFrom_app l l' name : forall k,
  findFrom k (l ++ l') name
  = match findFrom k l name with
    | Some r => Some r
    | None => findFrom (k + length l) l' name
    end.
Proof.
  induction l as [|x l IH]; intros k; simpl.
  - now rewrite Nat.add_0_r.
  - destruct (String.eqb (Name x) name); [reflexivity|].
    rewrite IH. now replace (S k + length l)%nat with (k + S (length l))%nat by lia.
Qed.

Lemma NoDup_snoc {A : Type} (l : list A) (x : A) :
  NoDup l -> ~ In x l -> NoDup (l ++ [x]).
Proof.
  induction 1 as [|y l Hy Hl IH]; intros Hx; simpl.
  - constructor; [|constructor]. intros H. inversion H.
  - constructor.
    + rewrite list_elem_of_In, in_app_iff. intros [H|[H|[]]].
      * now apply Hy, list_elem_of_In.
      * apply Hx. now left.
    + apply IH. intros H. apply Hx. now right.
Qed.

Lemma NoDup_map_remove {A B : Type} (f : A -> B) (l1 l2 : list A) (x : A) :
  NoDup (map f (l1 ++ x :: l2)) -> NoDup (map f (l1 ++ l2)).
Proof.
  rewrite !map_app. simpl. rewrite !NoDup_app, NoDup_cons.
  intros (H1 & H2 & _ & H3). repeat split; [exact H1 | | exact H3].
  intros y Hy Hin. apply (H2 y Hy). now right.
Qed.

Lemma apart_not_in app apps :
  Forall (apart app) apps ->
  ~ In (Name app) (map Name apps) /\ ~ In (Port app) (map Port apps).
Proof.
  unfold apart. induction 1 as [|e l [Hn Hp] _ [IHn IHp]]; simpl; [tauto|].
  split; intros [H|H]; congruence || tauto.
Qed.

Section StoreFacts.
Context (os : OS).

Lemma AddApp_result c app w :
  fst (fst (Apps.AddApp os c app w))
  = match Apps.AddApp_check (Apps c) app with
    | Some _ => c
    | None => {| Apps := Apps c ++ [app] |}
    end
  /\ (snd (fst (Apps.AddApp os c app w)) = None ->
      Apps.AddApp_check (Apps c) app = None).
Proof.
  destruct (Apps.AddApp_check (Apps c) app) as [e|] eqn:E.
  - rewrite (AddApp_rejected os c app w e E). split; [reflexivity | discriminate].
  - rewrite (AddApp_accepted os c app w E). split; reflexivity.
Qed.

Lemma DeleteApp_missing c name w :
  Apps.GetApp c name = None ->
  Store.DeleteApp os c name w = ((c, Some NotFound), w).
Proof.
  unfold Apps.GetApp, Store.DeleteApp. now intros ->.
Qed.

Lemma DeleteApp_found c name w i app :
  Apps.GetApp c name = Some (i, app) ->
  Store.DeleteApp os c name w
  = (({| Apps := take i (Apps c) ++ drop (S i) (Apps c) |},
      if os_WriteFile os w Apps.AppsFile then None else Some WriteFailed),
     w ++ [EWriteFile Apps.AppsFile
             {| Apps := take i (Apps c) ++ drop (S i) (Apps c) |}]).
Proof.
  unfold Apps.GetApp, Store.DeleteApp. intros ->.
  unfold Apps.SaveConfig. calls.
  now destruct (os_WriteFile os w Apps.AppsFile).
Qed.

End StoreFacts.

Lemma findByName_split apps name i app :
  findByName apps name = Some (i, app) ->
  apps = take i apps ++ app :: drop (S i) apps
  /\ Name app = name
  /\ Forall (fun a => Name a <> name) (take i apps).
Proof.
  intros H. apply findFrom_spec in H as (j & -> & Hj & Hn & Hfirst).
  simpl. repeat split; [symmetry; now apply take_drop_middle | exact Hn |].
  apply Forall_forall. intros a Ha.
  apply list_elem_of_lookup in Ha as [j' Hj'].
  pose proof (lookup_lt_Some _ _ _ Hj') as Hlt. rewrite length_take in Hlt.
  rewrite lookup_take_lt in Hj' by lia. apply (Hfirst j' a); [lia | exact Hj'].
Qed.


Lemma findFrom_skip l name : forall k,
  Forall (fun a => Name a <> name) l -> findFrom k l name = None.
Proof. intros k H. now apply findFrom_None. Qed.

Lemma AddApp_keeps_unique (os : OS) (c : Config) (app : App) (w : Trace) :
  uniqueApps (Apps c) ->
  uniqueApps (Apps (fst (fst (Apps.AddApp os c app w)))).
Proof.
  intros [Hn Hp]. rewrite (proj1 (AddApp_result os c app w)).
  destruct (Apps.AddApp_check (Apps c) app) eqn:E; [now split|].
  apply AddApp_check_None, apart_not_in in E as [En Ep].
  unfold uniqueApps. simpl. rewrite !map_app. simpl.
  split; now apply NoDup_snoc.
Qed.

Lemma DeleteApp_keeps_unique (os : OS) (c : Config) (name : string) (w : Trace) :
  uniqueApps (Apps c) ->
  uniqueApps (Apps (fst (fst (Store.DeleteApp os c name w)))).
Proof.
  intros [Hn Hp]. destruct (Apps.GetApp c name) as [[i app]|] eqn:E.
  - rewrite (DeleteApp_found os c name w i app E). simpl.
    apply findByName_split in E as (Hs & _ & _).
    rewrite Hs in Hn, Hp. split; eapply NoDup_map_remove; eassumption.
  - rewrite (DeleteApp_missing os c name w E). now split.
Qed.

Lemma AddApp_GetApp_new (os : OS) (c : Config) (app : App) (w : Trace) :
  snd (fst (Apps.AddApp os c app w)) = None ->
  Apps.GetApp (fst (fst (Apps.AddApp os c app w))) (Name app)
  = Some (length (Apps c), app).
Proof.
  intros H. destruct (AddApp_result os c app w) as [Hr Hc].
  specialize (Hc H). rewrite Hr, Hc.
  unfold Apps.GetApp, findByName. simpl.
  rewrite findFrom_app.
  apply AddApp_check_None in Hc.
  rewrite findFrom_skip.
  - simpl. now rewrite String.eqb_refl.
  - eapply Forall_impl; [exact Hc|]. unfold apart. simpl. tauto.
Qed.

(** X6: the record set stays free of duplicate names and of duplicate
    ports through [AddApp] and [DeleteApp], whatever their outcome. *)
Theorem store_keeps_names_and_ports_unique (os : OS) (c : Config) (w : Trace) :
  uniqueApps (Apps c) ->
  (forall app, uniqueApps (Apps (fst (fst (Apps.AddApp os c app w)))))
  /\ (forall name, uniqueApps (Apps (fst (fst (Store.DeleteApp os c name w))))).
Proof.
  intros H. split.
  - intros app. now apply AddApp_keeps_unique.
  - intros name. now apply DeleteApp_keeps_unique.
Qed.

Lemma store_keeps_names_and_ports_unique_witness :
  uniqueApps (Apps (fst (fst (Apps.AddApp (sim42 never [])
                                {| Apps := [web 0; api 0] |} clash []))))
  /\ uniqueApps (Apps (fst (fst (Store.DeleteApp (sim42 never [])
                                   {| Apps := [web 0; api 0] |} "web" [])))).
Proof.
  assert (H : uniqueApps (Apps {| Apps := [web 0; api 0] |})).
  { split; simpl; repeat constructor; rewrite ?list_elem_of_In; simpl;
      intros H; decompose [or] H; discriminate || contradiction. }
  destruct (store_keeps_names_and_ports_unique (sim42 never [])
              {| Apps := [web 0; api 0] |} [] H) as [H1 H2].
  split; [apply H1 | apply H2].
Defined.

(** X7: after an [AddApp] that returns nil, [GetApp] finds the new
    record under its name, at the end of the record set, and every
    lookup that succeeded before gives the same answer. *)
Theorem AddApp_then_GetApp (os : OS) (c : Config) (app : App) (w : Trace) :
  snd (fst (Apps.AddApp os c app w)) = None ->
  Apps.GetApp (fst (fst (Apps.AddApp os c app w))) (Name app)
  = Some (length (Apps c), app)
  /\ (forall name r,
        Apps.GetApp c name = Some r ->
        Apps.GetApp (fst (fst (Apps.AddApp os c app w))) name = Some r).
Proof.
  intros H. split; [now apply AddApp_GetApp_new|].
  destruct (AddApp_result os c app w) as [Hr Hc].
  specialize (Hc H). rewrite Hr, Hc.
  unfold Apps.GetApp, findByName. simpl.
  intros name r Hf. rewrite findFrom_app. now rewrite Hf.
Qed.

Lemma AddApp_then_GetApp_witness :
  Apps.GetApp (fst (fst (Apps.AddApp (sim42 never []) {| Apps := [web 0] |}
                           (api 0) []))) "api"
  = Some (1%nat, api 0)
  /\ (forall name r,
        Apps.GetApp {| Apps := [web 0] |} name = Some r ->
        Apps.GetApp (fst (fst (Apps.AddApp (sim42 never [])
                                 {| Apps := [web 0] |} (api 0) []))) name
        = Some r).
Proof.
  apply (AddApp_then_GetApp (sim42 never []) {| Apps := [web 0] |} (api 0) []).
  reflexivity.
Defined.



(** X9: adding a record and then deleting it by its name gives back the
    record set there was before the add. *)
Theorem AddApp_then_DeleteApp (os : OS) (c : Config) (app : App) (w w' : Trace) :
  snd (fst (Apps.AddApp os c app w)) = None ->
  fst (fst (Store.DeleteApp os (fst (fst (Apps.AddApp os c app w)))
              (Name app) w')) = c.
Proof.
  intros H. pose proof (AddApp_GetApp_new os c app w H) as Hg.
  rewrite (DeleteApp_found os _ _ w' _ _ Hg). cbn [fst].
  destruct (AddApp_result os c app w) as [Hr Hc]. rewrite Hr, (Hc H).
  cbn [Apps]. rewrite take_app_length, drop_app_ge by lia.
  replace (S (length (Apps c)) - length (Apps c))%nat with 1%nat by lia.
  destruct c. simpl. now rewrite app_nil_r.
Qed.

Lemma AddApp_then_DeleteApp_witness :
  fst (fst (Store.DeleteApp (sim42 never [])
              (fst (fst (Apps.AddApp (sim42 never []) {| Apps := [web 0] |}
                           (api 0) [])))
              (Name (api 0)) []))
  = {| Apps := [web 0] |}.
Proof.
  apply (AddApp_then_DeleteApp (sim42 never []) {| Apps := [web 0] |} (api 0)).
  reflexivity.
Defined.

(** ** What stop sends, and stopping twice *)

Ltac traces :=
  rewrite ?signalsOf_app, ?startsOf_app, ?writesOf_app;
  cbn [signalsOf startsOf writesOf];
  rewrite ?app_nil_r, <- ?app_assoc; cbn [app].

(** Every path of a function: the calls are exposed, each test is
    decided both ways, and the paths no answer can take are dropped. *)
Ltac paths :=
  calls; unfold ret; branches; cbn [fst snd] in *; try discriminate.

Section StopDiscipline.
Context (os : OS).

Lemma StopApp_effects app w :
  startsOf (snd (Apps.StopApp os app w)) = startsOf w
  /\ writesOf (snd (Apps.StopApp os app w)) = writesOf w
  /\ exists sigs,
       signalsOf (snd (Apps.StopApp os app w)) = signalsOf w ++ sigs
       /\ (sigs = [] \/ sigs = [(PID app, SIGTERM)]
           \/ sigs = [(PID app, SIGTERM); (PID app, SIGKILL)]).
Proof.
  unfold Apps.StopApp, Apps.IsProcessRunning. paths;
    (split; [traces; reflexivity | split; [traces; reflexivity|]]);
    first [ exists []; split; [traces; reflexivity | auto]
          | exists [(PID app, SIGTERM)]; split; [traces; reflexivity | auto]
          | exists [(PID app, SIGTERM); (PID app, SIGKILL)];
            split; [traces; reflexivity | auto] ].
Qed.

Lemma IsProcessRunning_effects pid w :
  startsOf (snd (Apps.IsProcessRunning os pid w)) = startsOf w
  /\ writesOf (snd (Apps.IsProcessRunning os pid w)) = writesOf w
  /\ signalsOf (snd (Apps.IsProcessRunning os pid w)) = signalsOf w.
Proof.
  unfold Apps.IsProcessRunning. paths;
    (split; [|split]); traces; reflexivity.
Qed.

Lemma isProcessRunning_effects pid w :
  startsOf (snd (Main.isProcessRunning os pid w)) = startsOf w
  /\ writesOf (snd (Main.isProcessRunning os pid w)) = writesOf w
  /\ signalsOf (snd (Main.isProcessRunning os pid w)) = signalsOf w.
Proof.
  unfold Main.isProcessRunning. paths;
    (split; [|split]); traces; reflexivity.
Qed.

End StopDiscipline.

(** X10: whatever the system answers, [StopApp] starts nothing and writes
    nothing, and the signals it sends beyond the existence checks are
    none, or the graceful one alone, or the graceful one followed by the
    forceful one, all to the pid of the record: the forceful signal is
    never sent first. *)
Theorem StopApp_signal_discipline (os : OS) (app : App) (w : Trace) :
  startsOf (snd (Apps.StopApp os app w)) = startsOf w
  /\ writesOf (snd (Apps.StopApp os app w)) = writesOf w
  /\ exists sigs,
       signalsOf (snd (Apps.StopApp os app w)) = signalsOf w ++ sigs
       /\ (sigs = [] \/ sigs = [(PID app, SIGTERM)]
           \/ sigs = [(PID app, SIGTERM); (PID app, SIGKILL)]).
Proof. apply StopApp_effects. Qed.

(** X11: a record that [StopApp] has stopped is stopped again without a
    single call to the system, and stays as it is. *)
Theorem StopApp_twice (os : OS) (app : App) (w w' : Trace) :
  Apps.StopApp os (fst (fst (Apps.StopApp os app w))) w'
  = (fst (Apps.StopApp os app w), w').
Proof.
  rewrite StopApp_result. cbn [fst].
  rewrite StopApp_nonpos by (simpl; lia). reflexivity.
Qed.

(** ** Stopping all records *)


Section StopAll.
Context (os : OS).

Lemma StopApp_all_result apps : forall w,
  fst (Handlers.StopApp_all os apps w) = map (fun a => setPID a 0) apps
  /\ writesOf (snd (Handlers.StopApp_all os apps w)) = writesOf w
  /\ startsOf (snd (Handlers.StopApp_all os apps w)) = startsOf w.
Proof.
  induction apps as [|a rest IH]; intros w; [now repeat split|].
  change (Handlers.StopApp_all os (a :: rest) w)
    with (fst (fst (Apps.StopApp os a w))
            :: fst (Handlers.StopApp_all os rest (snd (Apps.StopApp os a w))),
          snd (Handlers.StopApp_all os rest (snd (Apps.StopApp os a w)))).
  cbn [fst snd map].
  destruct (IH (snd (Apps.StopApp os a w))) as (H1 & H2 & H3).
  destruct (StopApp_effects os a w) as (E1 & E2 & _).
  rewrite H1, H2, H3, E1, E2, StopApp_result. now repeat split.
Qed.



End StopAll.

(** X12: the stop-all request of package handlers (a POST without a
    name) always answers success; every record is returned with pid 0 and
    otherwise as it was, nothing is started, and the records are written
    once, as returned. *)
Theorem Handlers_StopApp_all (os : OS) (c : Config) (w : Trace) :
  fst (Handlers.StopApp os "POST" "" c w)
  = ({| Apps := map (fun a => setPID a 0) (Apps c) |}, Handlers.JSONSuccess)
  /\ writesOf (snd (Handlers.StopApp os "POST" "" c w))
     = writesOf w ++ [{| Apps := map (fun a => setPID a 0) (Apps c) |}]
  /\ startsOf (snd (Handlers.StopApp os "POST" "" c w)) = startsOf w.
Proof.
  unfold Handlers.StopApp.
  change (String.eqb "POST" "POST") with true.
  change (String.eqb "" "") with true. cbn [negb].
  unfold Apps.SaveConfig. calls.
  destruct (StopApp_all_result os (Apps c) w) as (H1 & H2 & H3).
  rewrite H1. split; [reflexivity|].
  branches; rewrite writesOf_app, startsOf_app, H2, H3; simpl;
    rewrite app_nil_r; split; reflexivity.
Qed.



(** ** Reconciliation touches nothing but pids *)

Section ReconcileEffects.
Context (os : OS).

Lemma UpdateAppStatus_one_effects app w :
  sameOrStopped app (fst (Apps.UpdateAppStatus_one os app w))
  /\ writesOf (snd (Apps.UpdateAppStatus_one os app w)) = writesOf w
  /\ startsOf (snd (Apps.UpdateAppStatus_one os app w)) = startsOf w
  /\ signalsOf (snd (Apps.UpdateAppStatus_one os app w)) = signalsOf w.
Proof.
  unfold sameOrStopped, Apps.UpdateAppStatus_one, Apps.IsProcessRunning.
  paths; (split; [auto | repeat split; traces; reflexivity]).
Qed.

Lemma UpdateAppStatus_loop_effects apps : forall w,
  Forall2 sameOrStopped apps (fst (Apps.UpdateAppStatus_loop os apps w))
  /\ writesOf (snd (Apps.UpdateAppStatus_loop os apps w)) = writesOf w
  /\ startsOf (snd (Apps.UpdateAppStatus_loop os apps w)) = startsOf w
  /\ signalsOf (snd (Apps.UpdateAppStatus_loop os apps w)) = signalsOf w.
Proof.
  induction apps as [|a rest IH]; intros w.
  - repeat split. constructor.
  - rewrite UpdateAppStatus_loop_cons. cbn [fst snd].
    destruct (IH (snd (Apps.UpdateAppStatus_one os a w))) as (H1 & H2 & H3 & H4).
    destruct (UpdateAppStatus_one_effects a w) as (E1 & E2 & E3 & E4).
    rewrite H2, H3, H4. repeat split; auto.
Qed.

End ReconcileEffects.

(** X14: [UpdateAppStatus] returns the records in their order, each one
    as it was or with its pid reset to 0 and nothing else changed; it
    sends no signal but existence checks, starts nothing and writes
    nothing.  [GetApps] answers with the reconciled records and does not
    save them: apps.json keeps the stale pids until another request
    writes it. *)
Theorem UpdateAppStatus_only_clears_pids (os : OS) (c : Config) (w : Trace) :
  Forall2 sameOrStopped (Apps c) (Apps (fst (Apps.UpdateAppStatus os c w)))
  /\ writesOf (snd (Apps.UpdateAppStatus os c w)) = writesOf w
  /\ startsOf (snd (Apps.UpdateAppStatus os c w)) = startsOf w
  /\ signalsOf (snd (Apps.UpdateAppStatus os c w)) = signalsOf w
  /\ Handlers.GetApps os c w
     = ((fst (Apps.UpdateAppStatus os c w),
         Handlers.JSONApps (Apps (fst (Apps.UpdateAppStatus os c w)))),
        snd (Apps.UpdateAppStatus os c w)).
Proof.
  destruct (UpdateAppStatus_loop_effects os (Apps c) w) as (H1 & H2 & H3 & H4).
  repeat split; assumption.
Qed.

(** ** What start changes *)

Section StartEffects.
Context (os : OS).

Ltac outcome :=
  repeat split; traces; try reflexivity; try discriminate; auto;
  try (intros; exfalso; auto; fail); eauto.

Lemma Apps_StartApp_effects app w :
  sameIdentity app (fst (fst (Apps.StartApp os app w)))
  /\ (LogFile (fst (fst (Apps.StartApp os app w))) = LogFile app
      \/ LogFile (fst (fst (Apps.StartApp os app w)))
         = filepath_Join os Apps.LogsDir (Name app ++ ".log")%string)
  /\ (snd (fst (Apps.StartApp os app w)) <> None ->
      PID (fst (fst (Apps.StartApp os app w))) = PID app)
  /\ writesOf (snd (Apps.StartApp os app w)) = writesOf w
  /\ signalsOf (snd (Apps.StartApp os app w)) = signalsOf w
  /\ (startsOf (snd (Apps.StartApp os app w)) = startsOf w
      \/ exists cmd, startsOf (snd (Apps.StartApp os app w)) = startsOf w ++ [cmd]).
Proof.
  unfold sameIdentity, Apps.StartApp, Apps.IsProcessRunning.
  paths; cbn [Name Port Command PID LogFile setPID setLogFile]; outcome.
Qed.

Lemma Cli_startApp_effects app w :
  sameIdentity app (fst (fst (Cli.startApp os app w)))
  /\ LogFile (fst (fst (Cli.startApp os app w)))
     = filepath_Join os Main.logsDir (Name app ++ ".log")%string
  /\ (snd (fst (Cli.startApp os app w)) <> None ->
      PID (fst (fst (Cli.startApp os app w))) = PID app)
  /\ writesOf (snd (Cli.startApp os app w)) = writesOf w
  /\ signalsOf (snd (Cli.startApp os app w)) = signalsOf w
  /\ (startsOf (snd (Cli.startApp os app w)) = startsOf w
      \/ exists cmd, startsOf (snd (Cli.startApp os app w)) = startsOf w ++ [cmd]).
Proof.
  unfold sameIdentity, Cli.startApp.
  paths; cbn [Name Port Command PID LogFile setPID setLogFile]; outcome.
Qed.

Lemma WebUI_startApp_effects app w :
  sameIdentity app (fst (fst (WebUI.startApp os app w)))
  /\ LogFile (fst (fst (WebUI.startApp os app w)))
     = filepath_Join os Main.logsDir (Name app ++ ".log")%string
  /\ (snd (fst (WebUI.startApp os app w)) <> None ->
      PID (fst (fst (WebUI.startApp os app w))) = PID app)
  /\ writesOf (snd (WebUI.startApp os app w)) = writesOf w
  /\ signalsOf (snd (WebUI.startApp os app w)) = signalsOf w
  /\ (startsOf (snd (WebUI.startApp os app w)) = startsOf w
      \/ exists cmd, startsOf (snd (WebUI.startApp os app w)) = startsOf w ++ [cmd]).
Proof.
  unfold sameIdentity, WebUI.startApp.
  paths; cbn [Name Port Command PID LogFile setPID setLogFile]; outcome.
Qed.

End StartEffects.

(** X15: whatever the system answers, [StartApp] of package apps leaves
    the name, the port and the command of the record as they are; the
    log file is as before or the path derived from the name; when it
    returns an error the pid is as before; it writes nothing to
    apps.json, sends no signal but the existence check, and starts at
    most one process. *)
Theorem StartApp_outcomes (os : OS) (app : App) (w : Trace) :
  sameIdentity app (fst (fst (Apps.StartApp os app w)))
  /\ (LogFile (fst (fst (Apps.StartApp os app w))) = LogFile app
      \/ LogFile (fst (fst (Apps.StartApp os app w)))
         = filepath_Join os Apps.LogsDir (Name app ++ ".log")%string)
  /\ (snd (fst (Apps.StartApp os app w)) <> None ->
      PID (fst (fst (Apps.StartApp os app w))) = PID app)
  /\ writesOf (snd (Apps.StartApp os app w)) = writesOf w
  /\ signalsOf (snd (Apps.StartApp os app w)) = signalsOf w
  /\ (startsOf (snd (Apps.StartApp os app w)) = startsOf w
      \/ exists cmd, startsOf (snd (Apps.StartApp os app w)) = startsOf w ++ [cmd]).
Proof. apply Apps_StartApp_effects. Qed.

Lemma StartApp_outcomes_witness :
  PID (fst (fst (Apps.StartApp (sim42 never []) (web 42) []))) = PID (web 42).
Proof.
  destruct (StartApp_outcomes (sim42 never []) (web 42) [])
    as (_ & _ & H & _).
  apply H. discriminate.
Defined.

(** X16: the copies of [startApp] in package main set the log file of
    the record to the path derived from its name on every path, also when
    they fail; they leave name, port and command as they are, and the pid
    too when they return an error; they write nothing to apps.json, send
    no signal, and start at most one process. *)
Theorem startApp_outcomes (os : OS) (app : App) (w : Trace) :
  (sameIdentity app (fst (fst (Cli.startApp os app w)))
   /\ LogFile (fst (fst (Cli.startApp os app w)))
      = filepath_Join os Main.logsDir (Name app ++ ".log")%string
   /\ (snd (fst (Cli.startApp os app w)) <> None ->
       PID (fst (fst (Cli.startApp os app w))) = PID app)
   /\ writesOf (snd (Cli.startApp os app w)) = writesOf w
   /\ signalsOf (snd (Cli.startApp os app w)) = signalsOf w
   /\ (startsOf (snd (Cli.startApp os app w)) = startsOf w
       \/ exists cmd, startsOf (snd (Cli.startApp os app w)) = startsOf w ++ [cmd]))
  /\ (sameIdentity app (fst (fst (WebUI.startApp os app w)))
      /\ LogFile (fst (fst (WebUI.startApp os app w)))
         = filepath_Join os Main.logsDir (Name app ++ ".log")%string
      /\ (snd (fst (WebUI.startApp os app w)) <> None ->
          PID (fst (fst (WebUI.startApp os app w))) = PID app)
      /\ writesOf (snd (WebUI.startApp os app w)) = writesOf w
      /\ signalsOf (snd (WebUI.startApp os app w)) = signalsOf w
      /\ (startsOf (snd (WebUI.startApp os app w)) = startsOf w
          \/ exists cmd,
               startsOf (snd (WebUI.startApp os app w)) = startsOf w ++ [cmd])).
Proof.
  split; [apply Cli_startApp_effects | apply WebUI_startApp_effects].
Qed.

Lemma startApp_outcomes_witness :
  PID (fst (fst (Cli.startApp (sim42 never []) blank []))) = PID blank
  /\ PID (fst (fst (WebUI.startApp (sim42 never []) blank []))) = PID blank.
Proof.
  destruct (startApp_outcomes (sim42 never []) blank [])
    as ((_ & _ & H1 & _) & (_ & _ & H2 & _)).
  split; [apply H1 | apply H2]; discriminate.
Defined.

(** ** Starting all records from the command line *)

Section StartAll.
Context (os : OS).

Lemma startApps_one_effects app w :
  sameIdentity app (fst (Commands.startApps_one os app w))
  /\ writesOf (snd (Commands.startApps_one os app w)) = writesOf w.
Proof.
  unfold Commands.startApps_one. run.
  destruct (Cli_startApp_effects os app w) as (H1 & _ & _ & H4 & _).
  destruct (negb (PID app =? 0)).
  - destruct (isProcessRunning_effects os (PID app) w) as (_ & Hw & _).
    destruct (Main.isProcessRunning os (PID app) w) as [[|] w1];
      cbn [fst snd] in *.
    + split; [now repeat split | exact Hw].
    + destruct (Cli_startApp_effects os app w1) as (G1 & _ & _ & G4 & _).
      split; [exact G1 | now rewrite G4].
  - cbn [fst snd]. split; assumption.
Qed.

Lemma startApps_loop_effects apps : forall w,
  Forall2 sameIdentity apps (fst (Commands.startApps_loop os apps w))
  /\ writesOf (snd (Commands.startApps_loop os apps w)) = writesOf w.
Proof.
  induction apps as [|a rest IH]; intros w; [split; [constructor | reflexivity]|].
  change (Commands.startApps_loop os (a :: rest) w)
    with (fst (Commands.startApps_one os a w)
            :: fst (Commands.startApps_loop os rest
                      (snd (Commands.startApps_one os a w))),
          snd (Commands.startApps_loop os rest
                 (snd (Commands.startApps_one os a w)))).
  cbn [fst snd].
  destruct (IH (snd (Commands.startApps_one os a w))) as (H1 & H2).
  destruct (startApps_one_effects a w) as (E1 & E2).
  rewrite H2, E2. split; [now constructor | reflexivity].
Qed.

Lemma startApps_loop_cons a rest w :
  Commands.startApps_loop os (a :: rest) w
  = (fst (Commands.startApps_one os a w)
       :: fst (Commands.startApps_loop os rest (snd (Commands.startApps_one os a w))),
     snd (Commands.startApps_loop os rest (snd (Commands.startApps_one os a w)))).
Proof. reflexivity. Qed.

Lemma startApps_loop_length apps w :
  length (fst (Commands.startApps_loop os apps w)) = length apps.
Proof.
  destruct (startApps_loop_effects apps w) as [H _].
  symmetry. exact (Forall2_length _ _ _ H).
Qed.

Lemma startApps_loop_middle pre a post : forall w,
  Commands.startApps_loop os (pre ++ a :: post) w
  = (fst (Commands.startApps_loop os pre w)
       ++ fst (Commands.startApps_one os a (snd (Commands.startApps_loop os pre w)))
       :: fst (Commands.startApps_loop os post
                 (snd (Commands.startApps_one os a
                         (snd (Commands.startApps_loop os pre w))))),
     snd (Commands.startApps_loop os post
            (snd (Commands.startApps_one os a (snd (Commands.startApps_loop os pre w)))))).
Proof.
  induction pre as [|x pre IH]; intros w.
  - cbn [app]. rewrite startApps_loop_cons. reflexivity.
  - cbn [app]. rewrite !startApps_loop_cons, IH. reflexivity.
Qed.

(** The record at place [i] goes through the loop body at the trace the
    records before it have left, and the loop goes on with the records
    after it from the trace it leaves, whatever its start gave. *)
Lemma startApps_loop_visits apps i a w :
  apps !! i = Some a ->
  fst (Commands.startApps_loop os apps w) !! i
  = Some (fst (Commands.startApps_one os a
                 (snd (Commands.startApps_loop os (take i apps) w))))
  /\ snd (Commands.startApps_loop os apps w)
     = snd (Commands.startApps_loop os (drop (S i) apps)
              (snd (Commands.startApps_one os a
                      (snd (Commands.startApps_loop os (take i apps) w))))).
Proof.
  intros H. pose proof (take_drop_middle apps i a H) as E.
  pose proof (startApps_loop_middle (take i apps) a (drop (S i) apps) w) as L.
  rewrite E in L. rewrite L. cbn [fst snd]. split; [|reflexivity].
  apply list_lookup_middle. rewrite startApps_loop_length, length_take.
  apply lookup_lt_Some in H. lia.
Qed.

(** The loop body hands every record that is not found running to
    [startApp] and drops its error. *)
Lemma startApps_one_starts app w :
  (PID app = 0 ->
   Commands.startApps_one os app w
   = (fst (fst (Cli.startApp os app w)), snd (Cli.startApp os app w)))
  /\ (forall w1,
        PID app <> 0 ->
        Main.isProcessRunning os (PID app) w = (false, w1) ->
        Commands.startApps_one os app w
        = (fst (fst (Cli.startApp os app w1)), snd (Cli.startApp os app w1))).
Proof.
  split.
  - intros Hp. unfold Commands.startApps_one. run. rewrite Hp. reflexivity.
  - intros w1 Hp H. unfold Commands.startApps_one. run.
    known (PID app =? 0) false; [|now apply Z.eqb_neq].
    cbn [negb]. step H. reflexivity.
Qed.

Lemma startApps_one_running app w w1 :
  PID app <> 0 ->
  Main.isProcessRunning os (PID app) w = (true, w1) ->
  Commands.startApps_one os app w = (app, w1).
Proof.
  intros Hp H. unfold Commands.startApps_one. run.
  known (PID app =? 0) false; [|now apply Z.eqb_neq].
  cbn [negb]. step H. reflexivity.
Qed.

Lemma startApps_empty w w1 :
  Main.loadAppsConfig os w = (inr {| Apps := [] |}, w1) ->
  Commands.startApps os w = (Cli.Returned, w1).
Proof.
  intros Hl. unfold Commands.startApps. run. step Hl. reflexivity.
Qed.

Lemma startApps_saves w w1 w2 config :
  Main.loadAppsConfig os w = (inr config, w1) ->
  Apps config <> [] ->
  Main.ensureLogsDir os w1 = (None, w2) ->
  writesOf (snd (Commands.startApps os w))
  = writesOf w2 ++ [{| Apps := fst (Commands.startApps_loop os (Apps config) w2) |}].
Proof.
  intros Hl Hne He. unfold Commands.startApps. run. step Hl.
  destruct (Apps config) as [|a rest] eqn:Ea; [contradiction|].
  step He. unfold Main.saveAppsConfig. calls.
  destruct (startApps_loop_effects (a :: rest) w2) as (_ & Hw).
  branches; rewrite writesOf_app, Hw; reflexivity.
Qed.

End StartAll.

(** X17: the command that starts all records returns at once, without
    creating the log directory or writing apps.json, when there is no
    record.  Otherwise its loop goes through every record, whatever the
    starts give: the record at each place goes through the loop body at
    the trace the records before it have left, and the loop goes on with
    the records after it; the loop body leaves a record found running as
    it is and hands every other record to [startApp], whose error it
    drops; every record keeps its name, port and command and its place,
    and the records are written once, after the loop. *)
Theorem startApps_goes_through_all (os : OS) (w : Trace) :
  (forall w1,
     Main.loadAppsConfig os w = (inr {| Apps := [] |}, w1) ->
     Commands.startApps os w = (Cli.Returned, w1))
  /\ (forall apps,
        Forall2 sameIdentity apps (fst (Commands.startApps_loop os apps w))
        /\ writesOf (snd (Commands.startApps_loop os apps w)) = writesOf w)
  /\ (forall app w1,
        PID app <> 0 ->
        Main.isProcessRunning os (PID app) w = (true, w1) ->
        Commands.startApps_one os app w = (app, w1))
  /\ (forall w1 w2 config,
        Main.loadAppsConfig os w = (inr config, w1) ->
        Apps config <> [] ->
        Main.ensureLogsDir os w1 = (None, w2) ->
        writesOf (snd (Commands.startApps os w))
        = writesOf w2
          ++ [{| Apps := fst (Commands.startApps_loop os (Apps config) w2) |}])
  /\ (forall apps i a,
        apps !! i = Some a ->
        fst (Commands.startApps_loop os apps w) !! i
        = Some (fst (Commands.startApps_one os a
                       (snd (Commands.startApps_loop os (take i apps) w))))
        /\ snd (Commands.startApps_loop os apps w)
           = snd (Commands.startApps_loop os (drop (S i) apps)
                    (snd (Commands.startApps_one os a
                            (snd (Commands.startApps_loop os (take i apps) w))))))
  /\ (forall app,
        PID app = 0 ->
        Commands.startApps_one os app w
        = (fst (fst (Cli.startApp os app w)), snd (Cli.startApp os app w)))
  /\ (forall app w1,
        PID app <> 0 ->
        Main.isProcessRunning os (PID app) w = (false, w1) ->
        Commands.startApps_one os app w
        = (fst (fst (Cli.startApp os app w1)), snd (Cli.startApp os app w1))).
Proof.
  split; [|split; [|split; [|split; [|split; [|split]]]]].
  - apply startApps_empty.
  - intros apps. apply startApps_loop_effects.
  - intros app w1. apply startApps_one_running.
  - apply startApps_saves.
  - intros apps i a. apply startApps_loop_visits.
  - intros app. apply startApps_one_starts.
  - intros app. apply startApps_one_starts.
Qed.

Lemma startApps_goes_through_all_witness :
  Commands.startApps (sim42 never []) []
  = (Cli.Returned, [EStat "apps.json"; EReadFile "apps.json"])
  /\ Commands.startApps_one (sim42 never []) (web 42) [] = (web 42, probe 42)
  /\ map PID (concat (map Apps (writesOf
        (snd (Commands.startApps (sim42 never [web 42; api 0]) [])))))
     = [42; 4242]
  /\ snd (fst (Cli.startApp (sim42 never []) blank [])) = Some InvalidCommand
  /\ fst (Commands.startApps_loop (sim42 never []) [blank; web 42; api 0] [])
       !! 2%nat
     = Some (setPID (setLogFile (api 0) "logs/api.log") 4242)
  /\ map Args (startsOf (snd (Commands.startApps_loop (sim42 never [])
                                [blank; web 42; api 0] [])))
     = [["sleep"; "200"]].
Proof.
  destruct (startApps_goes_through_all (sim42 never []) [])
    as (H1 & _ & H3 & _ & H5 & _).
  destruct (startApps_goes_through_all (sim42 never [web 42; api 0]) [])
    as (_ & _ & _ & H4 & _).
  split; [|split; [|split; [|split; [|split]]]].
  - apply H1. reflexivity.
  - apply H3; [simpl; lia | reflexivity].
  - rewrite (H4 [EStat "apps.json"; EReadFile "apps.json"]
               [EStat "apps.json"; EReadFile "apps.json"; EStat "logs"]
               {| Apps := [web 42; api 0] |});
      [reflexivity | reflexivity | discriminate | reflexivity].
  - reflexivity.
  - destruct (H5 [blank; web 42; api 0] 2%nat (api 0) eq_refl) as [E _].
    rewrite E. reflexivity.
  - destruct (H5 [blank; web 42; api 0] 2%nat (api 0) eq_refl) as [_ E].
    rewrite E. reflexivity.
Defined.

(** ** The handlers that add and delete *)

Lemma findByName_insert apps name i app app' :
  findByName apps name = Some (i, app) ->
  Name app' = Name app ->
  findByName (<[i := app']> apps) name = Some (i, app').
Proof.
  unfold findByName. intros H Hn.
  apply findFrom_spec in H as (j & -> & Hj & Hname & Hfirst).
  apply findFrom_spec. exists j. simpl.
  pose proof (lookup_lt_Some _ _ _ Hj) as Hlt.
  repeat split; [now apply list_lookup_insert_eq | congruence |].
  intros j' a Hj' Ha. rewrite list_lookup_insert_ne in Ha by lia.
  now apply (Hfirst j' a).
Qed.

Section ApiFacts.
Context (os : OS).

Lemma Api_AddApp_invalid c app w :
  Name app = "" \/ Port app = 0 \/ Command app = "" ->
  Api.AddApp os "POST" (Some app) c w = ((c, Api.HTTPError 400 None), w).
Proof.
  intros H. unfold Api.AddApp.
  change (String.eqb "POST" "POST") with true. cbn [negb].
  replace (String.eqb (Name app) "" || (Port app =? 0)
           || String.eqb (Command app) "") with true; [reflexivity|].
  symmetry. destruct H as [H | [H | H]]; rewrite H;
    rewrite ?String.eqb_refl, ?orb_true_r; reflexivity.
Qed.

Lemma Api_AddApp_valid c app w :
  Name app <> "" -> Port app <> 0 -> Command app <> "" ->
  Api.AddApp os "POST" (Some app) c w
  = ((fst (fst (Apps.AddApp os c app w)),
      match snd (fst (Apps.AddApp os c app w)) with
      | Some e => Api.HTTPError 400 (Some e)
      | None => Api.JSONStatus 201
      end),
     snd (Apps.AddApp os c app w)).
Proof.
  intros Hn Hp Hc. unfold Api.AddApp.
  change (String.eqb "POST" "POST") with true. cbn [negb].
  apply String.eqb_neq in Hn, Hc. apply Z.eqb_neq in Hp.
  rewrite Hn, Hp, Hc. cbn [orb]. run.
  now destruct (snd (fst (Apps.AddApp os c app w))).
Qed.

Lemma Api_AddApp_config method body c w :
  fst (fst (Api.AddApp os method body c w)) = c
  \/ exists app, body = Some app
                 /\ fst (fst (Api.AddApp os method body c w))
                    = fst (fst (Apps.AddApp os c app w)).
Proof.
  unfold Api.AddApp.
  destruct (negb (String.eqb method "POST")); [now left|].
  destruct body as [app|]; [|now left].
  destruct (String.eqb (Name app) "" || (Port app =? 0)
            || String.eqb (Command app) ""); [now left|].
  right. exists app. split; [reflexivity|]. run.
  now destruct (snd (fst (Apps.AddApp os c app w))).
Qed.

Lemma Api_DeleteApp_missing c name w :
  name <> "" ->
  Apps.GetApp c name = None ->
  Api.DeleteApp os "POST" (Some name) c w
  = ((c, Api.HTTPError 404 (Some NotFound)), w).
Proof.
  intros Hn Hg. unfold Api.DeleteApp.
  change (String.eqb "POST" "POST") with true. cbn [negb].
  apply String.eqb_neq in Hn. rewrite Hn, Hg. run. cbn [fst snd].
  now rewrite (DeleteApp_missing os c name w Hg).
Qed.

Lemma Api_DeleteApp_found c name w i app :
  name <> "" ->
  Apps.GetApp c name = Some (i, app) ->
  Api.DeleteApp os "POST" (Some name) c w
  = (({| Apps := take i (Apps c) ++ drop (S i) (Apps c) |},
      if os_WriteFile os (snd (Apps.StopApp os app w)) Apps.AppsFile
      then Api.JSONStatus 200 else Api.HTTPError 404 (Some WriteFailed)),
     snd (Apps.StopApp os app w)
     ++ [EWriteFile Apps.AppsFile
           {| Apps := take i (Apps c) ++ drop (S i) (Apps c) |}]).
Proof.
  intros Hn Hg. unfold Api.DeleteApp.
  change (String.eqb "POST" "POST") with true. cbn [negb].
  apply String.eqb_neq in Hn. rewrite Hn, Hg. run. cbn [fst snd].
  rewrite StopApp_result. cbn [fst].
  assert (Hg' : Apps.GetApp {| Apps := <[i := setPID app 0]> (Apps c) |} name
                = Some (i, setPID app 0)).
  { unfold Apps.GetApp. cbn [Apps].
    now apply (findByName_insert (Apps c) name i app). }
  rewrite (DeleteApp_found os _ name _ i _ Hg'). cbn [fst snd Apps].
  rewrite take_insert_ge, drop_insert_lt by lia.
  now destruct (os_WriteFile os _ Apps.AppsFile).
Qed.

End ApiFacts.

(** X18: the add handler refuses a record with an empty name, a port 0
    or an empty command with status 400 before anything else happens:
    the records are unchanged and nothing is called.  A complete record
    goes to [AddApp] as it was decoded (pid and log file included): the
    answer is 201 when [AddApp] returns nil and 400 with its error
    otherwise.  Whatever the request, records with unique names and
    ports stay so. *)
Theorem Api_AddApp_validates (os : OS) (c : Config) (w : Trace) :
  (forall app,
     Name app = "" \/ Port app = 0 \/ Command app = "" ->
     Api.AddApp os "POST" (Some app) c w = ((c, Api.HTTPError 400 None), w))
  /\ (forall app,
        Name app <> "" -> Port app <> 0 -> Command app <> "" ->
        Api.AddApp os "POST" (Some app) c w
        = ((fst (fst (Apps.AddApp os c app w)),
            match snd (fst (Apps.AddApp os c app w)) with
            | Some e => Api.HTTPError 400 (Some e)
            | None => Api.JSONStatus 201
            end),
           snd (Apps.AddApp os c app w)))
  /\ (forall method body,
        uniqueApps (Apps c) ->
        uniqueApps (Apps (fst (fst (Api.AddApp os method body c w))))).
Proof.
  split; [|split].
  - intros app. apply Api_AddApp_invalid.
  - intros app. apply Api_AddApp_valid.
  - intros method body Hu.
    destruct (Api_AddApp_config os method body c w) as [-> | (app & _ & ->)];
      [exact Hu|].
    now apply AddApp_keeps_unique.
Qed.

Lemma Api_AddApp_validates_witness :
  Api.AddApp (sim42 never []) "POST"
    (Some {| Name := "db"; Port := 0; Command := "sleep 1"; PID := 0;
             LogFile := "" |}) {| Apps := [web 0] |} []
  = (({| Apps := [web 0] |}, Api.HTTPError 400 None), [])
  /\ fst (Api.AddApp (sim42 never []) "POST" (Some (api 7)) {| Apps := [web 0] |} [])
     = ({| Apps := [web 0; api 7] |}, Api.JSONStatus 201).
Proof.
  destruct (Api_AddApp_validates (sim42 never []) {| Apps := [web 0] |} [])
    as (H1 & H2 & _).
  split.
  - apply H1. right. left. reflexivity.
  - rewrite H2; [reflexivity | discriminate | simpl; lia | discriminate].
Defined.

(** X19: the delete handler answers 404 and changes nothing when no
    record has the name.  Otherwise it first stops the record with
    [StopApp], then removes it: the other records are returned untouched
    and in order, and the remaining records are written once; the answer
    is 200, or 404 when the write fails, although the record is then
    already removed from the records in memory. *)
Theorem Api_DeleteApp_stops_then_removes (os : OS) (c : Config) (name : string) (w : Trace) :
  name <> "" ->
  (Apps.GetApp c name = None ->
   Api.DeleteApp os "POST" (Some name) c w
   = ((c, Api.HTTPError 404 (Some NotFound)), w))
  /\ (forall i app,
        Apps.GetApp c name = Some (i, app) ->
        Api.DeleteApp os "POST" (Some name) c w
        = (({| Apps := take i (Apps c) ++ drop (S i) (Apps c) |},
            if os_WriteFile os (snd (Apps.StopApp os app w)) Apps.AppsFile
            then Api.JSONStatus 200 else Api.HTTPError 404 (Some WriteFailed)),
           snd (Apps.StopApp os app w)
           ++ [EWriteFile Apps.AppsFile
                 {| Apps := take i (Apps c) ++ drop (S i) (Apps c) |}])).
Proof.
  intros Hn. split.
  - now apply Api_DeleteApp_missing.
  - intros i app. now apply Api_DeleteApp_found.
Qed.

Lemma Api_DeleteApp_stops_then_removes_witness :
  Api.DeleteApp (sim42 anyTerm []) "POST" (Some "web")
    {| Apps := [api 0; web 42] |} []
  = (({| Apps := [api 0] |}, Api.JSONStatus 200),
     probe 42 ++ [EFindProcess 42; ESignal 42 SIGTERM; ESleep 2]
     ++ probe 42 ++ [EWriteFile "apps.json" {| Apps := [api 0] |}]).
Proof.
  destruct (Api_DeleteApp_stops_then_removes (sim42 anyTerm [])
              {| Apps := [api 0; web 42] |} "web" []) as [_ H];
    [discriminate|].
  rewrite (H 1%nat (web 42)); reflexivity.
Defined.

(** ** Deleting in the web copy *)

Section WebDelete.
Context (os : OS).




End WebDelete.



(** ** Starting one record through the handler *)

(** X21: the handler that starts a record by name replaces that record
    by the one [StartApp] returns and leaves the others untouched.  When
    the start succeeds the records are written once, as returned, and
    the answer is success; when it fails the answer carries the error
    and nothing is written, so that a log file path set by the failed
    start stays in memory only.  For a name no record has the answer is
    the not-found error and nothing is called. *)
Theorem Handlers_StartApp_named (os : OS) (c : Config) (name : string) (w : Trace) :
  name <> "" ->
  (Apps.GetApp c name = None ->
   Handlers.StartApp os "POST" name c w
   = ((c, Handlers.JSONError NotFound), w))
  /\ (forall i app,
        Apps.GetApp c name = Some (i, app) ->
        fst (fst (Handlers.StartApp os "POST" name c w))
        = {| Apps := <[i := fst (fst (Apps.StartApp os app w))]> (Apps c) |}
        /\ snd (fst (Handlers.StartApp os "POST" name c w))
           = match snd (fst (Apps.StartApp os app w)) with
             | Some e => Handlers.JSONError e
             | None => Handlers.JSONSuccess
             end
        /\ writesOf (snd (Handlers.StartApp os "POST" name c w))
           = match snd (fst (Apps.StartApp os app w)) with
             | Some _ => writesOf w
             | None =>
               writesOf w
               ++ [{| Apps := <[i := fst (fst (Apps.StartApp os app w))]> (Apps c) |}]
             end).
Proof.
  intros Hn. apply String.eqb_neq in Hn. split.
  - intros Hg. unfold Handlers.StartApp.
    change (String.eqb "POST" "POST") with true. cbn [negb].
    now rewrite Hn, Hg.
  - intros i app Hg. unfold Handlers.StartApp.
    change (String.eqb "POST" "POST") with true. cbn [negb].
    rewrite Hn, Hg. cbn [negb]. run.
    destruct (Apps_StartApp_effects os app w) as (_ & _ & _ & Hw & _).
    destruct (snd (fst (Apps.StartApp os app w))) as [e|]; cbn [fst snd].
    + repeat split. exact Hw.
    + unfold Apps.SaveConfig. calls. repeat split.
      branches; rewrite writesOf_app, Hw; reflexivity.
Qed.

Lemma Handlers_StartApp_named_witness :
  Handlers.StartApp (sim42 never []) "POST" "db" {| Apps := [web 0] |} []
  = (({| Apps := [web 0] |}, Handlers.JSONError NotFound), [])
  /\ writesOf (snd (Handlers.StartApp (sim42 never []) "POST" "web"
                      {| Apps := [api 0; web 0] |} []))
     = [{| Apps := [api 0; setPID (setLogFile (web 0) "logs/web.log") 4242] |}].
Proof.
  destruct (Handlers_StartApp_named (sim42 never []) {| Apps := [web 0] |}
              "db" []) as [H1 _]; [discriminate|].
  destruct (Handlers_StartApp_named (sim42 never [])
              {| Apps := [api 0; web 0] |} "web" []) as [_ H2];
    [discriminate|].
  split; [now apply H1|].
  destruct (H2 1%nat (web 0) eq_refl) as (_ & _ & H). rewrite H. reflexivity.
Defined.

(** ** Starting all records in the web copy, stopping all from the command line *)

Section BulkFacts.
Context (os : OS).










Lemma stopApps_one_effects app w :
  sameOrStopped app (fst (Cli.stopApps_one os app w))
  /\ writesOf (snd (Cli.stopApps_one os app w)) = writesOf w
  /\ startsOf (snd (Cli.stopApps_one os app w)) = startsOf w.
Proof.
  unfold sameOrStopped, Cli.stopApps_one, Main.isProcessRunning.
  paths; (split; [auto | split; traces; reflexivity]).
Qed.

Lemma stopApps_loop_effects apps : forall w,
  Forall2 sameOrStopped apps (fst (Cli.stopApps_loop os apps w))
  /\ writesOf (snd (Cli.stopApps_loop os apps w)) = writesOf w
  /\ startsOf (snd (Cli.stopApps_loop os apps w)) = startsOf w.
Proof.
  induction apps as [|a rest IH]; intros w; [repeat split; constructor|].
  change (Cli.stopApps_loop os (a :: rest) w)
    with (fst (Cli.stopApps_one os a w)
            :: fst (Cli.stopApps_loop os rest (snd (Cli.stopApps_one os a w))),
          snd (Cli.stopApps_loop os rest (snd (Cli.stopApps_one os a w)))).
  cbn [fst snd].
  destruct (IH (snd (Cli.stopApps_one os a w))) as (H1 & H2 & H3).
  destruct (stopApps_one_effects a w) as (E1 & E2 & E3).
  rewrite H2, H3, E2, E3. repeat split. now constructor.
Qed.

Lemma stopApps_saves w w1 config :
  Main.loadAppsConfig os w = (inr config, w1) ->
  writesOf (snd (Cli.stopApps os w))
  = writesOf w1 ++ [{| Apps := fst (Cli.stopApps_loop os (Apps config) w1) |}]
  /\ startsOf (snd (Cli.stopApps os w)) = startsOf w1.
Proof.
  intros Hl. unfold Cli.stopApps. run. step Hl.
  unfold Main.saveAppsConfig. calls.
  destruct (stopApps_loop_effects (Apps config) w1) as (_ & Hw & Hs).
  branches; rewrite writesOf_app, startsOf_app, Hw, Hs; simpl;
    rewrite app_nil_r; auto.
Qed.

End BulkFacts.



(** X23: the command that stops all records, once the records are
    loaded, keeps every record in its place, as it was or with its pid
    reset to 0 and nothing else changed; it starts nothing and writes the
    records once, after the loop. *)
Theorem stopApps_keeps_records (os : OS) (w w1 : Trace) (config : Config) :
  Main.loadAppsConfig os w = (inr config, w1) ->
  Forall2 sameOrStopped (Apps config)
    (fst (Cli.stopApps_loop os (Apps config) w1))
  /\ writesOf (snd (Cli.stopApps os w))
     = writesOf w1 ++ [{| Apps := fst (Cli.stopApps_loop os (Apps config) w1) |}]
  /\ startsOf (snd (Cli.stopApps os w)) = startsOf w1.
Proof.
  intros Hl. split.
  - apply stopApps_loop_effects.
  - now apply stopApps_saves.
Qed.

Lemma stopApps_keeps_records_witness :
  Forall2 sameOrStopped [web 42; api 0]
    (fst (Cli.stopApps_loop (sim42 never [web 42; api 0]) [web 42; api 0]
            [EStat "apps.json"; EReadFile "apps.json"]))
  /\ writesOf (snd (Cli.stopApps (sim42 never [web 42; api 0]) []))
     = writesOf [EStat "apps.json"; EReadFile "apps.json"]
       ++ [{| Apps := fst (Cli.stopApps_loop (sim42 never [web 42; api 0])
                             [web 42; api 0]
                             [EStat "apps.json"; EReadFile "apps.json"]) |}]
  /\ startsOf (snd (Cli.stopApps (sim42 never [web 42; api 0]) []))
     = startsOf [EStat "apps.json"; EReadFile "apps.json"].
Proof.
  destruct (stopApps_keeps_records (sim42 never [web 42; api 0]) []
              [EStat "apps.json"; EReadFile "apps.json"]
              {| Apps := [web 42; api 0] |} eq_refl) as (H1 & H2 & H3).
  split; [|split; [exact H2 | exact H3]].
  exact H1.
Defined.
